(** * Tube Visibility Inspector: the resolution engine

  A shallow embedding of the edge function [check-youtube-status]
  (the request handler, channel discovery by scraping, listing
  pagination, duration parsing and the classifier of videos missing from
  the data API), with the properties of the design document stated and
  settled against it.

  Conventions of the embedding:
  - a JavaScript string is a [string] of 8-bit characters; lower-casing is
    the ASCII one;
  - a JavaScript number holding a count or a time stamp is a [Z]
    (milliseconds since the epoch for time stamps);
  - a [Set<string>] is the list of its elements in insertion order;
  - an object used as a dictionary and the cache table are [gmap]s (the
    keys an object inherits from its prototype are left out);
  - the cache store answers every query and performs every write: on a
    store error the code logs it and goes on;
  - a network call is a field of an environment record; an exception is
    the right injection of a sum. *)

From Stdlib Require Import ZArith Ascii String.
From stdpp Require Import base option list gmap strings fin_maps.

Local Open Scope Z_scope.

(** ** Strings as the code uses them *)

Module Str.

(** [String.prototype.toLowerCase] on the ASCII range. *)
Definition lowerChar (c : ascii) : ascii :=
  let n := nat_of_ascii c in
  if ((65 <=? n) && (n <=? 90))%nat then ascii_of_nat (n + 32) else c.

Fixpoint toLowerCase (s : string) : string :=
  match s with
  | EmptyString => EmptyString
  | String c s' => String (lowerChar c) (toLowerCase s')
  end.

(** [String.prototype.startsWith]. *)
Fixpoint startsWith (s p : string) : bool :=
  match p, s with
  | EmptyString, _ => true
  | String _ _, EmptyString => false
  | String a p', String b s' => if decide (a = b) then startsWith s' p' else false
  end.

(** [String.prototype.includes]. *)
Fixpoint includes (s needle : string) : bool :=
  startsWith s needle ||
  match s with
  | EmptyString => false
  | String _ s' => includes s' needle
  end.

(** The truthiness of a string: only the empty one is falsy. *)
Definition truthy (s : string) : bool :=
  match s with EmptyString => false | String _ _ => true end.

(** [o || d] for an optional string [o]: [undefined] and [''] give [d]. *)
Definition orElse (o : option string) (d : string) : string :=
  match o with
  | Some s => if truthy s then s else d
  | None => d
  end.

End Str.

(** ** Duration parsing *)

Module Duration.

(** The character class [\d]. *)
Definition isDigit (c : ascii) : bool :=
  let n := nat_of_ascii c in ((48 <=? n) && (n <=? 57))%nat.

Definition digitVal (c : ascii) : Z := Z.of_nat (nat_of_ascii c) - 48.

(** [parseInt(s, 10)] on a string of decimal digits, without the rounding
    of a number beyond 2^53. *)
Definition parseInt (s : string) : Z :=
  fold_left (fun acc c => 10 * acc + digitVal c) (list_ascii_of_string s) 0.

(** The longest prefix of digits, and what follows it: the greedy [\d+]. *)
Fixpoint spanDigits (s : string) : string * string :=
  match s with
  | EmptyString => (EmptyString, EmptyString)
  | String c s' =>
      if isDigit c
      then let '(ds, rest) := spanDigits s' in (String c ds, rest)
      else (EmptyString, s)
  end.

(** The optional group [(?:(\d+)X)?] matched at the head of [s]: the
    capture (absent when the group is skipped) and the rest of the
    input.  Everything after the group in the pattern is optional, so the
    greedy choice is never undone. *)
Definition optGroup (X : ascii) (s : string) : option string * string :=
  match spanDigits s with
  | (String d ds, String c rest) =>
      if decide (c = X) then (Some (String d ds), rest) else (None, s)
  | _ => (None, s)
  end.

(** The input that follows the leftmost occurrence of [PT]: where the
    unanchored pattern starts to match. *)
Fixpoint afterPT (s : string) : option string :=
  match s with
  | EmptyString => None
  | String c s' =>
      match s' with
      | String c' rest =>
          if decide (c = "P"%char ∧ c' = "T"%char) then Some rest else afterPT s'
      | EmptyString => None
      end
  end.

(** [parseDuration]: [duration.match(/PT(?:(\d+)H)?(?:(\d+)M)?(?:(\d+)S)?/)],
    0 when there is no match, else hours * 3600 + minutes * 60 + seconds
    with an absent capture read as ['0']. *)
Definition parseDuration (duration : string) : Z :=
  match afterPT duration with
  | None => 0
  | Some r =>
      let '(h, r1) := optGroup "H" r in
      let '(m, r2) := optGroup "M" r1 in
      let '(s, _) := optGroup "S" r2 in
      let hours := parseInt (default "0" h) in
      let minutes := parseInt (default "0" m) in
      let seconds := parseInt (default "0" s) in
      hours * 3600 + minutes * 60 + seconds
  end.

(** [duration && parseDuration(duration) <= 61], as a truth value. *)
Definition isShort (duration : string) : bool :=
  Str.truthy duration && (parseDuration duration <=? 61).

End Duration.


(** ** The data model of the handler *)

Inductive ContentType := video | short.

(** A field of a JSON object that the code may leave out ([undefined]),
    set to [null], or set to a string. *)
Inductive JsField := absent | null | text (s : string).

(** What is stored in the cache for a video: a result without its
    [fromCache] flag. *)
Record VideoData := {
  videoId : string;
  title : string;
  status : string;
  thumbnail : JsField;
  publishedAt : JsField;
  contentType : ContentType;
  duration : JsField
}.

(** One element of the [results] array. *)
Record VideoRecord := { fields : VideoData; fromCache : bool }.

(** A row of the table [video_cache]; the key [video_id] is the key of the
    map that holds the rows. *)
Record CacheRow := { data : VideoData; cached_at : Z }.

(** What the handler reads of an item of the data API's [videos] answer. *)
Record ApiItem := {
  item_id : string;
  privacyStatus : option string;       (* status?.privacyStatus *)
  item_duration : option string;       (* contentDetails?.duration *)
  item_title : option string;          (* snippet?.title *)
  item_thumbnail : JsField;            (* snippet?.thumbnails?.default?.url *)
  item_publishedAt : JsField           (* snippet?.publishedAt *)
}.

Record Request := {
  videoIds : option (list string);
  channelUrl : option string;
  ignoreCache : bool
}.

Inductive Response :=
| Results (results : list VideoRecord)
| Failure (code : Z) (error : string).

(** What a channel enumeration returns: [{ videoIds, types }]. *)
Record Discovery := {
  found : list string;
  types : gmap string ContentType
}.

(** The world outside of one request.  A thrown exception is the right
    injection, with its message.  The batch lookup is indexed by the offset
    of the batch in the work list and the watch-page fetch by the position of
    the video in it, so that two calls may be answered differently. *)
Record Env := {
  YOUTUBE_API_KEY : option string;
  getChannelVideosWithApi : string → Discovery + string;
  scrapeChannelContent : string → Discovery + string;
  dateNow : Z;                                   (* Date.now() at the cache read *)
  cachedAtStamp : nat → Z;                       (* new Date() for the k-th row written *)
  fetchVideos : nat → list string → list ApiItem + string;
  fetchWatchPage : nat → string → option string  (* None: the fetch failed *)
}.

#[global] Instance ContentType_eq_dec : EqDecision ContentType.
Proof. solve_decision. Defined.
#[global] Instance JsField_eq_dec : EqDecision JsField.
Proof. solve_decision. Defined.
#[global] Instance VideoData_eq_dec : EqDecision VideoData.
Proof. solve_decision. Defined.
#[global] Instance VideoRecord_eq_dec : EqDecision VideoRecord.
Proof. solve_decision. Defined.

(** ** A [Set<string>] in insertion order *)

Module JsSet.

Definition add (s : list string) (x : string) : list string :=
  if decide (x ∈ s) then s else s ++ [x].

(** [xs.forEach(x => s.add(x))]. *)
Definition addAll (s xs : list string) : list string := foldl add s xs.

(** [new Set(xs)], and [Array.from] of it. *)
Definition ofList (xs : list string) : list string := addAll [] xs.

End JsSet.

(** ** Videos missing from the data API *)

Definition deletedKeywords : list string :=
  ["isn't available"; "unavailable"; "deleted"; "terminated"; "no longer available"].

(** [checkMissingVideoStatusViaScraping], on the outcome of fetching the
    watch page of the video. *)
Definition checkMissingVideoStatusViaScraping (page : option string) : string :=
  match page with
  | Some html =>
      if Str.includes (Str.toLowerCase html) "private" then "private"
      else if existsb (fun keyword => Str.includes (Str.toLowerCase html) keyword)
                deletedKeywords
      then "deleted"
      else "deleted"
  | None => "deleted"
  end.

(** ** One batch of work *)

Section Batch.

Variable env : Env.
Variable videoTypes : gmap string ContentType.

(** The record of a video that the data API answered for. *)
Definition foundRecord (videoId : string) (videoData : ApiItem) : VideoRecord :=
  let privacyStatus := Str.orElse (privacyStatus videoData) "unknown" in
  let duration := Str.orElse (item_duration videoData) "" in
  let isShort := Duration.isShort duration in
  let contentType :=
    default (if isShort then short else video) (videoTypes !! videoId) in
  {| fields := {| videoId := videoId;
                  title := Str.orElse (item_title videoData) "Unknown Title";
                  status := privacyStatus;
                  thumbnail := item_thumbnail videoData;
                  publishedAt := item_publishedAt videoData;
                  contentType := contentType;
                  duration := text duration |};
     fromCache := false |}.

(** The record of a video that the data API did not answer for. *)
Definition missingRecord (videoId : string) (status : string) : VideoRecord :=
  {| fields := {| videoId := videoId;
                  title := if decide (status = "private")
                           then "Private Video" else "Video Not Found";
                  status := status;
                  thumbnail := null;
                  publishedAt := null;
                  contentType := default video (videoTypes !! videoId);
                  duration := null |};
     fromCache := false |}.

(** [new Map(items.map(item => [item.id, item]))]: a later item replaces an
    earlier one with the same id. *)
Definition apiResultsOf (items : list ApiItem) : gmap string ApiItem :=
  foldl (fun m item => <[item_id item := item]> m) ∅ items.

(** The callback of [batch.map]: [pos] is the position of [videoId] in the
    work list. *)
Definition batchEntry (apiResults : gmap string ApiItem) (pos : nat)
    (videoId : string) : VideoRecord :=
  match apiResults !! videoId with
  | Some videoData => foundRecord videoId videoData
  | None =>
      missingRecord videoId
        (checkMissingVideoStatusViaScraping (fetchWatchPage env pos videoId))
  end.

(** The body of the batch loop for the batch that starts at offset [i]. *)
Definition processBatch (i : nat) (batch : list string) : list VideoRecord + string :=
  match fetchVideos env i batch with
  | inr message => inr message
  | inl items =>
      inl (imap (fun j => batchEntry (apiResultsOf items) (i + j)) batch)
  end.

Definition batchSize : nat := 50.

(** [for (let i = 0; i < idsToFetch.length; i += batchSize)]: [fuel] bounds
    the number of iterations; the length of the work list is enough. *)
Fixpoint batchLoop (idsToFetch : list string) (fuel i : nat)
    (freshResults : list VideoRecord) : list VideoRecord + string :=
  match fuel with
  | O => inl freshResults
  | S fuel' =>
      if decide (i < length idsToFetch)%nat then
        let batch := take batchSize (drop i idsToFetch) in
        match processBatch i batch with
        | inr message => inr message
        | inl batchResults =>
            batchLoop idsToFetch fuel' (i + batchSize) (freshResults ++ batchResults)
        end
      else inl freshResults
  end.

End Batch.

(** ** The cache *)

Definition freshnessWindow : Z := 24 * 60 * 60 * 1000.

(** [['public', 'unlisted', 'private', 'deleted'].includes(status)]. *)
Definition definitive (status : string) : bool :=
  bool_decide (status ∈ ["public"; "unlisted"; "private"; "deleted"]).

(** The query [.in('video_id', ids).gt('cached_at', cacheExpiry)]: the rows
    whose key is requested and whose time stamp is after [cacheExpiry], each
    once, here in the order of the first request of their key. *)
Definition cacheSelect (cache : gmap string CacheRow) (ids : list string)
    (cacheExpiry : Z) : list (string * VideoData) :=
  omap (fun id =>
          match cache !! id with
          | Some row =>
              if decide (cacheExpiry < cached_at row) then Some (id, data row) else None
          | None => None
          end)
       (remove_dups ids).

(** The rows written for the fresh results. *)
Definition cachePayloadOf (env : Env) (freshResults : list VideoRecord)
    : list (string * CacheRow) :=
  imap (fun k result =>
          (videoId (fields result),
           {| data := fields result; cached_at := cachedAtStamp env k |}))
       (filter (fun r => definitive (status (fields r)) = true) freshResults).

(** [.upsert(rows, { onConflict: 'video_id' })]. *)
Definition upsert (cache : gmap string CacheRow) (rows : list (string * CacheRow))
    : gmap string CacheRow :=
  foldl (fun c kv => <[kv.1 := kv.2]> c) cache rows.

(** [new Map(allResults.map(r => [r.id, r]))]. *)
Definition resultMapOf (allResults : list VideoRecord) : gmap string VideoRecord :=
  foldl (fun m r => <[videoId (fields r) := r]> m) ∅ allResults.

(** ** The status resolver: the handler after the list of ids is fixed *)

(** The rows read from the cache: none when the request ignores the cache,
    else those not older than 24 hours. *)
Definition cacheRead (env : Env) (ignoreCache : bool) (allVideoIds : list string)
    (cache : gmap string CacheRow) : list (string * VideoData) :=
  if ignoreCache then []
  else cacheSelect cache allVideoIds (dateNow env - freshnessWindow).

(** [idsToFetch]: [allVideoIds.filter(id => !cachedIds.has(id))]. *)
Definition workList (cacheData : list (string * VideoData)) (allVideoIds : list string)
    : list string :=
  filter (fun id => id ∉ (fst <$> cacheData)) allVideoIds.

Definition resolve (env : Env) (videoTypes : gmap string ContentType)
    (ignoreCache : bool) (allVideoIds : list string)
    (cache : gmap string CacheRow) : Response * gmap string CacheRow :=
  let cacheData := cacheRead env ignoreCache allVideoIds cache in
  let cachedResults :=
    (fun item => {| fields := item.2; fromCache := true |}) <$> cacheData in
  let idsToFetch := workList cacheData allVideoIds in
  match batchLoop env videoTypes idsToFetch (length idsToFetch) 0 [] with
  | inr message => (Failure 500 (Str.orElse (Some message) "Internal server error"), cache)
  | inl freshResults =>
      let cache' :=
        if ignoreCache then cache else upsert cache (cachePayloadOf env freshResults) in
      let allResults := cachedResults ++ freshResults in
      let resultMap := resultMapOf allResults in
      let sortedResults := omap (fun id => resultMap !! id) allVideoIds in
      (Results sortedResults, cache')
  end.

(** ** The request handler *)

(** The ids to resolve and their hints: the ids of the request, joined
    through a [Set] with those of the channel when the request names one.
    The data API is tried first for the channel, then scraping; the right
    injection is the error answered when both fail. *)
Definition collectVideoIds (env : Env) (req : Request)
    : list string * gmap string ContentType + string :=
  let finalVideoIds := default [] (videoIds req) in
  let videoTypes : gmap string ContentType := ∅ in
  if Str.truthy (default "" (channelUrl req)) then
    let channelUrl := default "" (channelUrl req) in
    let channel :=
      match getChannelVideosWithApi env channelUrl with
      | inl apiResult => inl apiResult
      | inr _ => scrapeChannelContent env channelUrl
      end in
    match channel with
    | inl result =>
        inl (JsSet.ofList (finalVideoIds ++ found result), types result ∪ videoTypes)
    | inr _ =>
        inr "Failed to fetch channel videos using both API and scraping methods."
    end
  else inl (finalVideoIds, videoTypes).

Definition handler (env : Env) (req : Request) (cache : gmap string CacheRow)
    : Response * gmap string CacheRow :=
  if negb (Str.truthy (default "" (YOUTUBE_API_KEY env))) then
    (Failure 500 "YouTube API key not configured", cache)
  else
    match collectVideoIds env req with
    | inr message => (Failure 500 message, cache)
    | inl (allVideoIds, videoTypes) =>
        match allVideoIds with
        | [] => (Results [], cache)
        | _ :: _ => resolve env videoTypes (ignoreCache req) allVideoIds cache
        end
    end.

(** ** Channel discovery by scraping *)

Module Scrape.

(** [ids.forEach(id => { allVideoIds.add(id); videoTypes[id] = tab })]. *)
Definition tagAll (tab : ContentType)
    (acc : list string * gmap string ContentType) (ids : list string)
    : list string * gmap string ContentType :=
  foldl (fun st id => (JsSet.add st.1 id, <[id := tab]> st.2)) acc ids.

(** [scrapeChannelContent], on the results of its three awaited calls: the
    two paginated listings and the additional channel pages.  None of the
    three throws, so its [catch] clause has nothing to catch. *)
Definition scrapeChannelContent
    (videoResults shortsResults additionalResults : list string) : Discovery :=
  let acc := tagAll video ([], ∅) videoResults in
  let acc := tagAll short acc shortsResults in
  let allVideoIds := JsSet.addAll acc.1 additionalResults in
  {| found := allVideoIds; types := acc.2 |}.

(** *** Pagination of one listing *)

Section Pagination.

(** The network, as a state that every call reads and advances; a thrown
    exception is the right injection, with its message. *)
Variable World : Type.
Variable scrapePageContent : string → ContentType → World → list string * World.
Variable fetchPageHtml : string → World → (string + string) * World.
Variable extractContinuationToken : string → option string.
Variable fetchPageWithMultipleStrategies :
  string → string → ContentType → World → (list string * option string + string) * World.
Variable tryAlternativeContinuation :
  string → string → ContentType → World → (list string + string) * World.

(** The local variables of [scrapeWithAggressivePagination], with the
    network.  [refreshes] is not a variable of the code: it counts the
    token refreshes that were started. *)
Record PState := {
  world : World;
  allVideoIds : list string;
  continuationToken : option string;
  pageCount : nat;
  refreshes : nat
}.

(** Computations over [PState] that may throw; the state survives a throw. *)
Definition M (A : Type) : Type := PState → (A + string) * PState.

Definition ret {A} (a : A) : M A := fun st => (inl a, st).

Definition bind {A B} (m : M A) (k : A → M B) : M B :=
  fun st => match m st with
            | (inl a, st') => k a st'
            | (inr e, st') => (inr e, st')
            end.

Definition tryCatch {A} (m : M A) (handler : string → M A) : M A :=
  fun st => match m st with
            | (inl a, st') => (inl a, st')
            | (inr e, st') => handler e st'
            end.

Notation "x <- m ;; k" := (bind m (fun x => k))
  (at level 100, m at next level, right associativity).
Notation "m ;; k" := (bind m (fun _ => k))
  (at level 100, right associativity).

Definition get : M PState := fun st => (inl st, st).

Definition withWorld (st : PState) (w : World) : PState :=
  {| world := w; allVideoIds := allVideoIds st;
     continuationToken := continuationToken st;
     pageCount := pageCount st; refreshes := refreshes st |}.

(** [await f(...)] for a call that may throw, and for one that does not. *)
Definition await {A} (f : World → (A + string) * World) : M A :=
  fun st => let '(r, w) := f (world st) in (r, withWorld st w).

Definition awaitTotal {A} (f : World → A * World) : M A :=
  fun st => let '(a, w) := f (world st) in (inl a, withWorld st w).

Definition setToken (t : option string) : M unit :=
  fun st => (inl tt,
             {| world := world st; allVideoIds := allVideoIds st;
                continuationToken := t;
                pageCount := pageCount st; refreshes := refreshes st |}).

Definition incrPageCount : M unit :=
  fun st => (inl tt,
             {| world := world st; allVideoIds := allVideoIds st;
                continuationToken := continuationToken st;
                pageCount := S (pageCount st); refreshes := refreshes st |}).

Definition noteRefresh : M unit :=
  fun st => (inl tt,
             {| world := world st; allVideoIds := allVideoIds st;
                continuationToken := continuationToken st;
                pageCount := pageCount st; refreshes := S (refreshes st) |}).

(** [ids.forEach(id => { if (!allVideoIds.has(id)) { allVideoIds.add(id); n++ } })],
    giving [n]. *)
Definition countNew (acc : list string * nat) (ids : list string) : list string * nat :=
  foldl (fun st id => if decide (id ∈ st.1) then st else (st.1 ++ [id], S st.2)) acc ids.

Definition addNew (ids : list string) : M nat :=
  fun st => let '(all, n) := countNew (allVideoIds st, O) ids in
            (inl n,
             {| world := world st; allVideoIds := all;
                continuationToken := continuationToken st;
                pageCount := pageCount st; refreshes := refreshes st |}).

Definition tokenTruthy (t : option string) : bool :=
  match t with Some s => Str.truthy s | None => false end.

Definition maxPages : nat := 50.

(** The [try] block of one turn of the loop; [false] stands for [break]. *)
Definition pageBody (url : string) (contentType : ContentType) (token : string)
    : M bool :=
  pageResults <- await (fetchPageWithMultipleStrategies url token contentType) ;;
  newVideosFound <- addNew pageResults.1 ;;
  exhausted <-
    (if decide (newVideosFound = O) then
       altResults <- await (tryAlternativeContinuation url token contentType) ;;
       altNewVideos <- addNew altResults ;;
       ret (bool_decide (altNewVideos = O))
     else ret false) ;;
  if (exhausted : bool) then ret false
  else setToken pageResults.2 ;; ret true.

(** The [catch] block of one turn of the loop; [false] stands for [break]. *)
Definition recover (url : string) : M bool :=
  st <- get ;;
  if decide (pageCount st < 3)%nat then
    noteRefresh ;;
    refreshedHtml <- await (fetchPageHtml (url +:+ "?flow=grid&view=0")) ;;
    setToken (extractContinuationToken refreshedHtml) ;;
    ret (tokenTruthy (extractContinuationToken refreshedHtml))
  else ret false.

(** [while (continuationToken && pageCount < maxPages)]: every turn
    increments [pageCount], so [maxPages] turns are enough fuel. *)
Fixpoint paginate (url : string) (contentType : ContentType) (fuel : nat) : M unit :=
  match fuel with
  | O => ret tt
  | S fuel' =>
      st <- get ;;
      match continuationToken st with
      | Some token =>
          if Str.truthy token && bool_decide (pageCount st < maxPages)%nat then
            incrPageCount ;;
            goOn <- tryCatch (pageBody url contentType token) (fun _ => recover url) ;;
            if (goOn : bool) then paginate url contentType fuel' else ret tt
          else ret tt
      | None => ret tt
      end
  end.

Definition scrapeWithAggressivePagination (url : string) (contentType : ContentType)
    : M (list string) :=
  tryCatch
    (initialResults <- awaitTotal (scrapePageContent url contentType) ;;
     addNew initialResults ;;
     initialHtml <- await (fetchPageHtml url) ;;
     setToken (extractContinuationToken initialHtml) ;;
     paginate url contentType maxPages ;;
     st <- get ;;
     ret (allVideoIds st))
    (fun _ => st <- get ;; ret (allVideoIds st)).

(** The state at the entry of the function. *)
Definition entry (w : World) : PState :=
  {| world := w; allVideoIds := []; continuationToken := None;
     pageCount := O; refreshes := O |}.

End Pagination.

Arguments world {World} _.
Arguments allVideoIds {World} _.
Arguments continuationToken {World} _.
Arguments pageCount {World} _.
Arguments refreshes {World} _.
Arguments ret {World A} _ _.
Arguments bind {World A B} _ _ _.
Arguments tryCatch {World A} _ _ _.
Arguments get {World} _.
Arguments await {World A} _ _.
Arguments awaitTotal {World A} _ _.
Arguments setToken {World} _ _.
Arguments incrPageCount {World} _.
Arguments noteRefresh {World} _.
Arguments addNew {World} _ _.
Arguments entry {World} _.

End Scrape.

(** ** Extraction of ids and tokens from a page *)

Module Extract.

(** The double quote, which a string literal here does not hold. *)
Definition dq : string := String (ascii_of_nat 34) "".

(** [s] between double quotes. *)
Definition quoted (s : string) : string := dq +:+ s +:+ dq.

(** The character class [[a-zA-Z0-9_-]]. *)
Definition isIdChar (c : ascii) : bool :=
  let n := nat_of_ascii c in
  (((97 <=? n) && (n <=? 122)) || ((65 <=? n) && (n <=? 90))
   || ((48 <=? n) && (n <=? 57)) || (n =? 95) || (n =? 45))%nat.

(** What follows the literal [lit] at the head of [s]. *)
Fixpoint dropLiteral (lit s : string) : option string :=
  match lit, s with
  | EmptyString, _ => Some s
  | String _ _, EmptyString => None
  | String a lit', String b s' => if decide (a = b) then dropLiteral lit' s' else None
  end.

(** Exactly [n] characters of the class [p] at the head of [s], and the
    rest: [[p]{n}]. *)
Fixpoint takeExactly (p : ascii → bool) (n : nat) (s : string) : option (string * string) :=
  match n with
  | O => Some (EmptyString, s)
  | S n' =>
      match s with
      | String c s' =>
          if p c then
            match takeExactly p n' s' with
            | Some (cs, rest) => Some (String c cs, rest)
            | None => None
            end
          else None
      | EmptyString => None
      end
  end.

(** The longest run of characters of the class [p] at the head of [s], and
    the rest: the greedy [[p]*]. *)
Fixpoint span (p : ascii → bool) (s : string) : string * string :=
  match s with
  | EmptyString => (EmptyString, EmptyString)
  | String c s' =>
      if p c then let '(cs, rest) := span p s' in (String c cs, rest)
      else (EmptyString, s)
  end.

(** All the matches of a pattern with the [g] flag, from left to right,
    each with its index: [matchAt] tells whether the pattern matches at the
    head of its argument, and gives the capture and the length of the match.
    After a match the search goes on behind it ([skip] characters are
    passed over).  No pattern here matches the empty string. *)
Fixpoint execAll {A} (matchAt : string → option (A * nat)) (skip index : nat)
    (s : string) : list (nat * A) :=
  match s with
  | EmptyString => []
  | String _ s' =>
      match skip with
      | S skip' => execAll matchAt skip' (S index) s'
      | O =>
          match matchAt s with
          | Some (capture, len) =>
              (index, capture) :: execAll matchAt (pred len) (S index) s'
          | None => execAll matchAt O (S index) s'
          end
      end
  end.

(** The pattern [prefix([a-zA-Z0-9_-]{11})suffix] at the head of [s]. *)
Definition idAt (prefix suffix s : string) : option (string * nat) :=
  match dropLiteral prefix s with
  | Some rest =>
      match takeExactly isIdChar 11 rest with
      | Some (id, rest') =>
          if Str.startsWith rest' suffix
          then Some (id, (String.length prefix + 11 + String.length suffix)%nat)
          else None
      | None => None
      end
  | None => None
  end.

(** The patterns 1 to 6 of [extractVideoIds], in the order the code runs
    them: what precedes the 11 characters of the id, and what follows. *)
Definition idPatterns : list (string * string) :=
  [ ("href=" +:+ dq +:+ "/watch?v=", dq);
    (quoted "videoId" +:+ ":" +:+ dq, dq);
    (quoted "id" +:+ ":" +:+ dq, dq);
    (quoted "videoDetails" +:+ ":{" +:+ quoted "videoId" +:+ ":" +:+ dq, dq);
    ("watch?v=", "");
    ("embed/", "");
    ("shorts/", "");
    (quoted "webCommandMetadata" +:+ ":{" +:+ quoted "url" +:+ ":" +:+ dq +:+ "/watch?v=", dq);
    (quoted "navigationEndpoint" +:+ ":{" +:+ quoted "commandMetadata" +:+ ":{"
       +:+ quoted "webCommandMetadata" +:+ ":{" +:+ quoted "url" +:+ ":" +:+ dq
       +:+ "/watch?v=", dq);
    (quoted "watchEndpoint" +:+ ":{" +:+ quoted "videoId" +:+ ":" +:+ dq, dq);
    (quoted "videoRenderer" +:+ ":{" +:+ quoted "videoId" +:+ ":" +:+ dq, dq);
    (quoted "compactVideoRenderer" +:+ ":{" +:+ quoted "videoId" +:+ ":" +:+ dq, dq);
    (quoted "gridVideoRenderer" +:+ ":{" +:+ quoted "videoId" +:+ ":" +:+ dq, dq) ].

Definition videoKeywords : list string :=
  ["videoId"; "watch?v="; "shorts/"; "embed/"; "thumbnail"; "title";
   "videoRenderer"; "watchEndpoint"].

(** [html.substring(from, to)] for [from <= to]. *)
Definition substring (from to : nat) (html : string) : string :=
  String.substring from (to - from) html.

(** [/^[a-zA-Z0-9_-]+$/.test(s)]. *)
Definition allIdChars (s : string) : bool :=
  Str.truthy s && forallb isIdChar (list_ascii_of_string s).

(** The test of pattern 7 on a match at [index]: the id is well formed and
    one of the keywords is within 300 characters of the match. *)
Definition inVideoContext (html : string) (index : nat) (potentialId : string) : bool :=
  ((String.length potentialId =? 11)%nat && allIdChars potentialId)
  && let contextStart := Nat.max 0 (index - 300) in
     let contextEnd := Nat.min (String.length html) (index + 300) in
     let context := substring contextStart contextEnd html in
     existsb (fun keyword => Str.includes context keyword) videoKeywords.

Definition extractVideoIds (html : string) : list string :=
  let videoIds :=
    foldl (fun videoIds pattern =>
             JsSet.addAll videoIds
               (snd <$> execAll (idAt pattern.1 pattern.2) O O html))
          [] idPatterns in
  JsSet.addAll videoIds
    (snd <$> filter (fun m => inVideoContext html m.1 m.2 = true)
               (execAll (idAt dq dq) O O html)).

(** *** Continuation tokens *)

(** The literal [prefix] and a capture at the head of [s], followed by a
    double quote when [closing] is set: the capture is the longest run of
    characters outside of [stop], and it is not empty. *)
Definition runAt (prefix : string) (stop : ascii → bool) (closing : bool) (s : string)
    : option (string * nat) :=
  match dropLiteral prefix s with
  | Some rest =>
      match span (fun c => negb (stop c)) rest with
      | (String c cs, rest') =>
          if closing then
            if Str.startsWith rest' dq
            then Some (String c cs, (String.length prefix + String.length (String c cs) + 1)%nat)
            else None
          else Some (String c cs, (String.length prefix + String.length (String c cs))%nat)
      | (EmptyString, _) => None
      end
  | None => None
  end.

Definition isQuote (c : ascii) : bool := bool_decide (c = ascii_of_nat 34).

(** The characters that end the capture of the third pattern: ampersand,
    double quote and apostrophe. *)
Definition isParamEnd (c : ascii) : bool :=
  bool_decide (c = "&"%char) || isQuote c || bool_decide (c = ascii_of_nat 39).

(** A run without semicolon, then [lit], a capture without double quote
    and a double quote, at the head of [s]: the greedy run without semicolon
    is the longest behind which the rest matches.  Gives the capture and the
    length of the match. *)
Fixpoint lastRunWithin (lit : string) (s : string) : option (string * nat) :=
  let here := runAt lit isQuote true s in
  match s with
  | String c s' =>
      if bool_decide (c = ";"%char) then here
      else
        match lastRunWithin lit s' with
        | Some (capture, len) => Some (capture, S len)
        | None => here
        end
  | EmptyString => here
  end.

Definition initialDataAt (s : string) : option (string * nat) :=
  match dropLiteral "var ytInitialData = " s with
  | Some rest =>
      match lastRunWithin (quoted "continuation" +:+ ":" +:+ dq) rest with
      | Some (capture, len) =>
          Some (capture, (String.length "var ytInitialData = " + len)%nat)
      | None => None
      end
  | None => None
  end.

(** [tokenPatterns], in order. *)
Definition tokenPatterns : list (string → option (string * nat)) :=
  [ runAt (quoted "continuationCommand" +:+ ":{" +:+ quoted "token" +:+ ":" +:+ dq)
      isQuote true;
    runAt (quoted "continuation" +:+ ":" +:+ dq) isQuote true;
    runAt "continuation=" isParamEnd false;
    runAt (quoted "token" +:+ ":" +:+ dq) isQuote true;
    runAt (quoted "continuationEndpoint" +:+ ":{" +:+ quoted "continuationCommand"
           +:+ ":{" +:+ quoted "token" +:+ ":" +:+ dq) isQuote true;
    initialDataAt;
    runAt (quoted "nextContinuationData" +:+ ":{" +:+ quoted "continuation" +:+ ":" +:+ dq)
      isQuote true ].

(** [match[1] && match[1].length > 10 && !match[1].includes(' ')]. *)
Definition validToken (t : string) : bool :=
  Str.truthy t && (10 <? String.length t)%nat && negb (Str.includes t " ").

(** [tokenArray.reduce((longest, current) =>
      current.length > longest.length ? current : longest)]. *)
Definition longestOf (first : string) (others : list string) : string :=
  foldl (fun longest current =>
           if (String.length longest <? String.length current)%nat
           then current else longest)
        first others.

(** The set [tokens] when the loops are over. *)
Definition candidateTokens (html : string) : list string :=
  foldl (fun tokens pattern =>
           JsSet.addAll tokens
             (filter (fun t => validToken t = true)
                (snd <$> execAll pattern O O html)))
        [] tokenPatterns.

Definition extractContinuationToken (html : string) : option string :=
  match candidateTokens html with
  | [] => None
  | first :: others => Some (longestOf first others)
  end.

End Extract.

(** ** The scraping client over [fetch] *)

Module Net.

Inductive Method := GET | POST.

(** The argument of [fetch]: the url and the fields of the options that the
    code sets. *)
Record FetchRequest := {
  req_url : string;
  req_method : Method;
  req_headers : list (string * string);
  req_body : option string
}.

(** What the code reads of a [Response]: [ok], [status] as it prints, and
    the outcome of [text()], which may throw. *)
Record FetchResponse := {
  resp_ok : bool;
  resp_status : string;
  resp_text : string + string
}.

Definition userAgent : string :=
  "Mozilla/5.0 (Windows NT 10.0; Win64; x64) AppleWebKit/537.36 (KHTML, like Gecko) Chrome/120.0.0.0 Safari/537.36".

(** [String.prototype.replace] with a string pattern: the first occurrence. *)
Fixpoint replaceFirst (pattern replacement s : string) : string :=
  match Extract.dropLiteral pattern s with
  | Some rest => replacement +:+ rest
  | None =>
      match s with
      | EmptyString => EmptyString
      | String c s' => String c (replaceFirst pattern replacement s')
      end
  end.

Definition hexDigit (n : nat) : ascii :=
  if (n <? 10)%nat then ascii_of_nat (48 + n) else ascii_of_nat (87 + n).

(** A character inside a JSON string, as [JSON.stringify] writes it. *)
Definition jsonChar (c : ascii) : string :=
  let n := nat_of_ascii c in
  if (n =? 34)%nat then "\" +:+ Extract.dq
  else if (n =? 92)%nat then "\\"
  else if (n =? 8)%nat then "\b"
  else if (n =? 12)%nat then "\f"
  else if (n =? 10)%nat then "\n"
  else if (n =? 13)%nat then "\r"
  else if (n =? 9)%nat then "\t"
  else if (n <? 32)%nat
       then "\u00" +:+ String (hexDigit (n / 16)) (String (hexDigit (n mod 16)) "")
  else String c "".

Fixpoint jsonString (s : string) : string :=
  match s with
  | EmptyString => EmptyString
  | String c s' => jsonChar c +:+ jsonString s'
  end.

(** [JSON.stringify(postData)] for the continuation [token]. *)
Definition postData (token : string) : string :=
  "{" +:+ Extract.quoted "context" +:+ ":{" +:+ Extract.quoted "client" +:+ ":{"
  +:+ Extract.quoted "clientName" +:+ ":" +:+ Extract.quoted "WEB" +:+ ","
  +:+ Extract.quoted "clientVersion" +:+ ":" +:+ Extract.quoted "2.0" +:+ "}},"
  +:+ Extract.quoted "continuation" +:+ ":" +:+ Extract.quoted (jsonString token) +:+ "}".

Section Client.

(** The network, as a state that every call reads and advances. *)
Variable World : Type.
Variable fetch : FetchRequest → World → (FetchResponse + string) * World.

(** Asynchronous computations that may throw. *)
Definition N (A : Type) : Type := World → (A + string) * World.

Definition ret {A} (a : A) : N A := fun w => (inl a, w).
Definition throw {A} (message : string) : N A := fun w => (inr message, w).
Definition bind {A B} (m : N A) (k : A → N B) : N B :=
  fun w => match m w with
           | (inl a, w') => k a w'
           | (inr e, w') => (inr e, w')
           end.
Definition tryCatch {A} (m : N A) (handler : string → N A) : N A :=
  fun w => match m w with
           | (inl a, w') => (inl a, w')
           | (inr e, w') => handler e w'
           end.

Notation "x <- m ;; k" := (bind m (fun x => k))
  (at level 100, m at next level, right associativity).

(** [await response.text()]. *)
Definition textOf (response : FetchResponse) : N string :=
  fun w => (resp_text response, w).

Definition fetchPageHtml (url : string) : N string :=
  response <- fetch {| req_url := url; req_method := GET;
                       req_headers :=
                         [("User-Agent", userAgent);
                          ("Accept", "text/html,application/xhtml+xml,application/xml;q=0.9,image/webp,*/*;q=0.8");
                          ("Accept-Language", "en-US,en;q=0.5");
                          ("Accept-Encoding", "gzip, deflate");
                          ("DNT", "1");
                          ("Connection", "keep-alive")];
                       req_body := None |} ;;
  if negb (resp_ok response)
  then throw ("Failed to fetch page: " +:+ resp_status response)
  else textOf response.

(** One turn of the loop of [fetchPageWithMultipleStrategies]: the result
    to return, or none to go on with the next url. *)
Definition tryStrategy (baseUrl url : string)
    : N (option (list string * option string)) :=
  tryCatch
    (response <- fetch {| req_url := url; req_method := GET;
                          req_headers :=
                            [("User-Agent", userAgent);
                             ("Accept", "application/json, text/html, */*");
                             ("Accept-Language", "en-US,en;q=0.9");
                             ("Referer", baseUrl)];
                          req_body := None |} ;;
     if resp_ok response then
       data <- textOf response ;;
       let videoIds := Extract.extractVideoIds data in
       let nextToken := Extract.extractContinuationToken data in
       match videoIds with
       | _ :: _ => ret (Some (videoIds, nextToken))
       | [] => ret None
       end
     else ret None)
    (fun _ => ret None).

Fixpoint tryStrategies (baseUrl : string) (urls : list string)
    : N (list string * option string) :=
  match urls with
  | [] => ret ([], None)
  | url :: rest =>
      found <- tryStrategy baseUrl url ;;
      match found with
      | Some result => ret result
      | None => tryStrategies baseUrl rest
      end
  end.

Definition continuationUrls (baseUrl token : string) : list string :=
  [ baseUrl +:+ "?pbj=1&continuation=" +:+ token;
    baseUrl +:+ "?flow=grid&view=0&pbj=1&continuation=" +:+ token;
    baseUrl +:+ "?continuation=" +:+ token +:+ "&pbj=1";
    "https://www.youtube.com/youtubei/v1/browse?continuation=" +:+ token;
    baseUrl +:+ "?flow=list&view=0&continuation=" +:+ token ].

Definition fetchPageWithMultipleStrategies (baseUrl token : string)
    (contentType : ContentType) : N (list string * option string) :=
  tryStrategies baseUrl (continuationUrls baseUrl token).

Definition tryAlternativeContinuation (baseUrl token : string)
    (contentType : ContentType) : N (list string) :=
  tryCatch
    (response <- fetch {| req_url := "https://www.youtube.com/youtubei/v1/browse";
                          req_method := POST;
                          req_headers :=
                            [("Content-Type", "application/json");
                             ("User-Agent",
                              "Mozilla/5.0 (Windows NT 10.0; Win64; x64) AppleWebKit/537.36")];
                          req_body := Some (postData token) |} ;;
     if resp_ok response then
       data <- textOf response ;;
       ret (JsSet.addAll [] (Extract.extractVideoIds data))
     else ret [])
    (fun _ => ret []).

Definition plainGet (url : string) : FetchRequest :=
  {| req_url := url; req_method := GET;
     req_headers := [("User-Agent", userAgent)]; req_body := None |}.

(** [scrapePageContent]: every exception ends in its [catch] clause, which
    returns no id. *)
Definition scrapePageContent (url : string) (contentType : ContentType)
    : World → list string * World :=
  fun w =>
    match
      (response <- fetch (plainGet url) ;;
       if negb (resp_ok response) then
         if Str.includes url "/@" then
           let fallbackUrl := replaceFirst "/@" "/c/" url in
           fallbackResponse <- fetch (plainGet fallbackUrl) ;;
           if negb (resp_ok fallbackResponse) then ret []
           else html <- textOf fallbackResponse ;;
                ret (Extract.extractVideoIds html)
         else ret []
       else html <- textOf response ;;
            ret (Extract.extractVideoIds html)) w
    with
    | (inl videoIds, w') => (videoIds, w')
    | (inr _, w') => ([], w')
    end.

Definition channelVariations (channelInput : string) : list string :=
  [ replaceFirst "@" "/c/" channelInput;
    replaceFirst "@" "/user/" channelInput;
    replaceFirst "@" "/channel/" channelInput;
    channelInput +:+ "/featured";
    channelInput +:+ "/playlists" ].

(** [tryAdditionalChannelMethods]: the pages are scraped one after the
    other into one set. *)
Definition tryAdditionalChannelMethods (channelInput : string)
    : World → list string * World :=
  fun w =>
    foldl (fun acc variation =>
             let '(results, w') := scrapePageContent variation video acc.2 in
             (JsSet.addAll acc.1 results, w'))
          ([], w) (channelVariations channelInput).

(** [String.prototype.trim], for the white space of the ASCII range. *)
Definition isSpace (c : ascii) : bool :=
  let n := nat_of_ascii c in (((9 <=? n) && (n <=? 13)) || (n =? 32))%nat.

Fixpoint trimStart (s : string) : string :=
  match s with
  | String c s' => if isSpace c then trimStart s' else s
  | EmptyString => EmptyString
  end.

Fixpoint trimEnd (s : string) : string :=
  match s with
  | String c s' =>
      match trimEnd s' with
      | EmptyString => if isSpace c then EmptyString else String c EmptyString
      | rest => String c rest
      end
  | EmptyString => EmptyString
  end.

Definition trim (s : string) : string := trimEnd (trimStart s).

(** A character that [.] does not match. *)
Definition isLineTerminator (c : ascii) : bool :=
  let n := nat_of_ascii c in ((n =? 10) || (n =? 13))%nat.

(** The pattern [/\/(videos|shorts).*$/] at the head of [s]. *)
Definition listingSuffixAt (s : string) : bool :=
  match Extract.dropLiteral "/videos" s, Extract.dropLiteral "/shorts" s with
  | Some rest, _ | None, Some rest =>
      forallb (fun c => negb (isLineTerminator c)) (list_ascii_of_string rest)
  | None, None => false
  end.

(** [s.replace(/\/(videos|shorts).*$/, '')]. *)
Fixpoint dropListingSuffix (s : string) : string :=
  if listingSuffixAt s then EmptyString
  else match s with
       | String c s' => String c (dropListingSuffix s')
       | EmptyString => EmptyString
       end.

Definition normalizeChannelUrls (channelInput : string) : string * string :=
  let baseUrl :=
    if Str.startsWith channelInput "http://" || Str.startsWith channelInput "https://"
    then dropListingSuffix channelInput
    else
      let channelName := trim channelInput in
      let channelName :=
        if Str.startsWith channelName "@"
        then String.substring 1 (String.length channelName - 1) channelName
        else channelName in
      "https://www.youtube.com/@" +:+ channelName in
  (baseUrl +:+ "/videos", baseUrl +:+ "/shorts").

(** [scrapeWithAggressivePagination] as an asynchronous call: its local
    variables are those of [Scrape.entry]. *)
Definition paginateListing (url : string) (contentType : ContentType)
    : N (list string) :=
  fun w =>
    let '(result, st) :=
      Scrape.scrapeWithAggressivePagination World scrapePageContent fetchPageHtml
        Extract.extractContinuationToken fetchPageWithMultipleStrategies
        tryAlternativeContinuation url contentType (Scrape.entry w) in
    (result, Scrape.world st).

(** [scrapeChannelContent], with its callees. *)
Definition scrapeChannelContent (channelInput : string) : N Discovery :=
  let '(videosUrl, shortsUrl) := normalizeChannelUrls channelInput in
  tryCatch
    (videoResults <- paginateListing videosUrl video ;;
     shortsResults <- paginateListing shortsUrl short ;;
     additionalResults <-
       (fun w => let '(ids, w') := tryAdditionalChannelMethods channelInput w in
                 (inl ids, w')) ;;
     ret (Scrape.scrapeChannelContent videoResults shortsResults additionalResults))
    (fun message => throw ("Failed to scrape channel comprehensively: " +:+ message)).

End Client.

End Net.

(** ** Channel discovery by the data API *)

Module Api.

(** What an endpoint of the data API answers: the [ok] flag of the response
    and, of its body, the fields the code reads. *)
Record Answer (Item : Type) := {
  ok : bool;
  items : option (list Item);
  nextPageToken : option string
}.
Arguments ok {Item} _.
Arguments items {Item} _.
Arguments nextPageToken {Item} _.

Record Snippet := { channelId : option string }.
Record SearchItem := { snippet : option Snippet }.

Record RelatedPlaylists := { uploads : option string }.
Record ContentDetails := { relatedPlaylists : option RelatedPlaylists }.
Record ChannelItem := { contentDetails : option ContentDetails }.

(** [item.snippet?.resourceId?.videoId]: absent as soon as one of the three
    is. *)
Record PlaylistItem := { resourceVideoId : option string }.

(** Reading a property of [undefined] throws; the handler only logs the
    message. *)
Definition typeError : string := "TypeError".

(** The rest of the pattern [youtube\.com\/(?:channel\/|c\/|@)?([a-zA-Z0-9_-]+)]
    behind [youtube.com/], with [group] for the optional group: the capture is
    the longest run of id characters, and it is not empty. *)
Definition captureAfter (group rest : string) : option (string * nat) :=
  match Extract.dropLiteral group rest with
  | Some rest' =>
      match Extract.span Extract.isIdChar rest' with
      | (String c cs, _) =>
          Some (String c cs,
                (String.length "youtube.com/" + String.length group
                 + String.length (String c cs))%nat)
      | (EmptyString, _) => None
      end
  | None => None
  end.

(** The pattern at the head of [s]: the alternatives of the optional group
    are tried in order, then the group is left out. *)
Definition channelMatchAt (s : string) : option (string * nat) :=
  match Extract.dropLiteral "youtube.com/" s with
  | Some rest =>
      match captureAfter "channel/" rest with
      | Some m => Some m
      | None =>
          match captureAfter "c/" rest with
          | Some m => Some m
          | None =>
              match captureAfter "@" rest with
              | Some m => Some m
              | None => captureAfter "" rest
              end
          end
      end
  | None => None
  end.

(** [query] in [findChannelId], when the search is sent. *)
Definition queryOf (channelInput : string) : string :=
  match head (Extract.execAll channelMatchAt O O channelInput) with
  | Some (_, capture) => capture
  | None =>
      if Str.startsWith channelInput "@"
      then match channelInput with String _ rest => rest | EmptyString => EmptyString end
      else channelInput
  end.

Section Client.

(** The three endpoints, by what the code puts into the request besides the
    key: the search by its query, the channel by its id, a playlist page by
    the playlist id and the page token, if one is sent.  The right injection
    is [fetch] or [response.json()] throwing. *)
Variable World : Type.
Variable search : string → World → (Answer SearchItem + string) * World.
Variable channels : string → World → (Answer ChannelItem + string) * World.
Variable playlistItems :
  string → option string → World → (Answer PlaylistItem + string) * World.

(** [!response.ok || !data.items || data.items.length === 0]. *)
Definition noItems {Item} (data : Answer Item) : bool :=
  negb (ok data) || match items data with Some (_ :: _) => false | _ => true end.

Definition findChannelId (channelInput : string) (w : World)
    : (option string + string) * World :=
  let query := queryOf channelInput in
  match search query w with
  | (inl data, w) =>
      if noItems data then (inl None, w)
      else
        match items data with
        | Some (first :: _) =>
            match snippet first with
            | Some s => (inl (channelId s), w)
            | None => (inr typeError, w)
            end
        | _ => (inl None, w)
        end
  | (inr e, w) => (inr e, w)
  end.

Definition getUploadsPlaylistId (channelId : string) (w : World)
    : (option string + string) * World :=
  match channels channelId w with
  | (inl data, w) =>
      if noItems data then (inl None, w)
      else
        match items data with
        | Some (first :: _) =>
            match contentDetails first with
            | Some details =>
                match relatedPlaylists details with
                | Some related => (inl (uploads related), w)
                | None => (inr typeError, w)
                end
            | None => (inr typeError, w)
            end
        | _ => (inl None, w)
        end
  | (inr e, w) => (inr e, w)
  end.

(** The turns of the [do ... while (nextPageToken)] loop from the state
    [(videoIds, nextPageToken)] on.  The loop has no bound of its own:
    [None] is running out of [fuel]. *)
Fixpoint playlistLoop (fuel : nat) (playlistId : string) (pageToken : option string)
    (videoIds : list string) (w : World) : option ((list string + string) * World) :=
  match fuel with
  | O => None
  | S fuel =>
      match playlistItems playlistId pageToken w with
      | (inl data, w) =>
          if negb (ok data) then Some (inl videoIds, w)
          else
            match items data with
            | Some its =>
                let ids := filter (fun id => Str.truthy id = true)
                             (omap resourceVideoId its) in
                let videoIds := videoIds ++ ids in
                match nextPageToken data with
                | Some token =>
                    if Str.truthy token
                    then playlistLoop fuel playlistId (Some token) videoIds w
                    else Some (inl videoIds, w)
                | None => Some (inl videoIds, w)
                end
            | None => Some (inr typeError, w)
            end
      | (inr e, w) => Some (inr e, w)
      end
  end.

Definition getAllVideosFromPlaylist (fuel : nat) (playlistId : string) (w : World)
    : option ((list string + string) * World) :=
  playlistLoop fuel playlistId None [] w.

Definition getChannelVideosWithApi (fuel : nat) (channelInput : string) (w : World)
    : option ((Discovery + string) * World) :=
  match findChannelId channelInput w with
  | (inl channelId, w) =>
      if negb (Str.truthy (default "" channelId))
      then Some (inr "Could not find channel ID for the given input via API.", w)
      else
        match getUploadsPlaylistId (default "" channelId) w with
        | (inl uploadsPlaylistId, w) =>
            if negb (Str.truthy (default "" uploadsPlaylistId))
            then Some (inr "Could not find uploads playlist for the channel.", w)
            else
              match getAllVideosFromPlaylist fuel (default "" uploadsPlaylistId) w with
              | Some (inl videoIds, w) => Some (inl {| found := videoIds; types := ∅ |}, w)
              | Some (inr e, w) => Some (inr e, w)
              | None => None
              end
        | (inr e, w) => Some (inr e, w)
        end
  | (inr e, w) => Some (inr e, w)
  end.

End Client.

End Api.

(** ** The page that sends the requests *)

Module Client.

(** The character class that ends an id in an address: ampersand, line
    feed, question mark and hash. *)
Definition isIdEnd (c : ascii) : bool :=
  bool_decide (c = "&"%char) || bool_decide (c = ascii_of_nat 10)
  || bool_decide (c = "?"%char) || bool_decide (c = "#"%char).

(** The first pattern that matches at the head of [s], in order. *)
Fixpoint firstOf (alternatives : list (string → option (string * nat))) (s : string)
    : option (string * nat) :=
  match alternatives with
  | [] => None
  | alternative :: rest =>
      match alternative s with
      | Some m => Some m
      | None => firstOf rest s
      end
  end.

(** A run without line terminator, then [lit] and a capture, at the head of
    [s]: the greedy run is the longest behind which the rest matches. *)
Fixpoint lastRunOnLine (lit : string) (s : string) : option (string * nat) :=
  let here := Extract.runAt lit isIdEnd false s in
  match s with
  | String c s' =>
      if Net.isLineTerminator c then here
      else
        match lastRunOnLine lit s' with
        | Some (capture, len) => Some (capture, S len)
        | None => here
        end
  | EmptyString => here
  end.

(** [/youtube\.com\/watch\?.*v=([^&\n?#]+)/] at the head of [s]. *)
Definition watchParamAt (s : string) : option (string * nat) :=
  match Extract.dropLiteral "youtube.com/watch?" s with
  | Some rest =>
      match lastRunOnLine "v=" rest with
      | Some (capture, len) =>
          Some (capture, (String.length "youtube.com/watch?" + len)%nat)
      | None => None
      end
  | None => None
  end.

(** [patterns], in order. *)
Definition patterns : list (string → option (string * nat)) :=
  [ firstOf [ Extract.runAt "youtube.com/watch?v=" isIdEnd false;
              Extract.runAt "youtu.be/" isIdEnd false;
              Extract.runAt "youtube.com/embed/" isIdEnd false ];
    Extract.runAt "youtube.com/v/" isIdEnd false;
    watchParamAt;
    Extract.runAt "youtube.com/shorts/" isIdEnd false ].

(** [url.match(pattern)]: the leftmost match, and of it the capture. *)
Definition matchOf (pattern : string → option (string * nat)) (url : string)
    : option string :=
  snd <$> head (Extract.execAll pattern O O url).

Definition extractVideoId (url : string) : option string :=
  head (omap (fun pattern => matchOf pattern url) patterns).

(** A row of the table: the interface [VideoData] of the page.  A field
    that is left out is [absent], [None]. *)
Record Row := {
  row_url : string;
  row_id : string;
  row_title : string;
  row_status : string;
  row_thumbnail : JsField;
  row_publishedAt : JsField;
  row_contentType : option ContentType;
  row_fromCache : option bool
}.

(** [url.trim() && extractVideoId(url.trim())], as a truth value. *)
Definition isValidUrl (url : string) : bool :=
  Str.truthy (Net.trim url) && bool_decide (is_Some (extractVideoId (Net.trim url))).

Definition initialVideo (url videoId : string) : Row :=
  {| row_url := Net.trim url; row_id := videoId;
     row_title := "Checking..."; row_status := "checking";
     row_thumbnail := absent; row_publishedAt := absent;
     row_contentType := None; row_fromCache := None |}.

(** [results.find((r) => r.id === videoId)]. *)
Definition findResult (results : list VideoRecord) (wanted : string)
    : option VideoRecord :=
  snd <$> list_find (fun r => videoId (fields r) = wanted) results.

(** The row of a video that the answer holds a record of. *)
Definition processedVideo (url : string) (result : VideoRecord) (wanted : string) : Row :=
  {| row_url := Net.trim url; row_id := wanted;
     row_title := title (fields result); row_status := status (fields result);
     row_thumbnail := thumbnail (fields result);
     row_publishedAt := publishedAt (fields result);
     row_contentType := Some (contentType (fields result));
     row_fromCache := Some (fromCache result) |}.

(** The row of a video that the answer holds no record of. *)
Definition errorVideo (url wanted : string) : Row :=
  {| row_url := Net.trim url; row_id := wanted;
     row_title := "Error checking video"; row_status := "deleted";
     row_thumbnail := absent; row_publishedAt := absent;
     row_contentType := None; row_fromCache := None |}.

(** [{ ...v, status: 'deleted', title: 'Error checking video' }]. *)
Definition markFailed (v : Row) : Row :=
  {| row_url := row_url v; row_id := row_id v;
     row_title := "Error checking video"; row_status := "deleted";
     row_thumbnail := row_thumbnail v; row_publishedAt := row_publishedAt v;
     row_contentType := row_contentType v; row_fromCache := row_fromCache v |}.

(** [processUrls]: the table when the function is over, from the table
    [videos] before it.  [checkVideoStatus] is the call of the edge function
    with the ids, which gives the [results] or throws ([None]; the message
    goes to a notice, not to the table). *)
Definition processUrls (checkVideoStatus : list string → option (list VideoRecord))
    (urls : list string) (videos : list Row) : list Row :=
  let validUrls := filter (fun url => isValidUrl url = true) urls in
  match validUrls with
  | [] => videos
  | _ :: _ =>
      let videoIds := (fun url => default "" (extractVideoId (Net.trim url))) <$> validUrls in
      let initialVideos :=
        imap (fun index url => initialVideo url (default "" (videoIds !! index)))
             validUrls in
      match checkVideoStatus videoIds with
      | Some results =>
          imap (fun index url =>
                  let wanted := default "" (videoIds !! index) in
                  match findResult results wanted with
                  | Some result => processedVideo url result wanted
                  | None => errorVideo url wanted
                  end)
               validUrls
      | None => markFailed <$> initialVideos
      end
  end.

(** The row of a record of a channel scan. *)
Definition channelVideo (result : VideoRecord) : Row :=
  {| row_url := "https://www.youtube.com/watch?v=" +:+ videoId (fields result);
     row_id := videoId (fields result);
     row_title := title (fields result); row_status := status (fields result);
     row_thumbnail := thumbnail (fields result);
     row_publishedAt := publishedAt (fields result);
     row_contentType := Some (contentType (fields result));
     row_fromCache := Some (fromCache result) |}.

(** [handleChannelSubmit]: the table when the function is over.
    [checkVideoStatus] is the call of the edge function with the channel. *)
Definition handleChannelSubmit (checkVideoStatus : string → option (list VideoRecord))
    (channelInput : string) (videos : list Row) : list Row :=
  if negb (Str.truthy (Net.trim channelInput)) then videos
  else
    match checkVideoStatus (Net.trim channelInput) with
    | Some results => channelVideo <$> results
    | None => []
    end.

(** [text.split] at the line feeds. *)
Fixpoint splitLines (text : string) : list string :=
  match text with
  | EmptyString => [EmptyString]
  | String c text' =>
      if bool_decide (c = ascii_of_nat 10) then EmptyString :: splitLines text'
      else
        match splitLines text' with
        | line :: lines => String c line :: lines
        | [] => [String c EmptyString]
        end
  end.

(** [handleTextSubmit]: the lines of the text area that are not blank go to
    [processUrls]; a blank text area changes nothing. *)
Definition handleTextSubmit (checkVideoStatus : list string → option (list VideoRecord))
    (textInput : string) (videos : list Row) : list Row :=
  if negb (Str.truthy (Net.trim textInput)) then videos
  else
    let urls := filter (fun url => Str.truthy (Net.trim url) = true) (splitLines textInput) in
    processUrls checkVideoStatus urls videos.

(** [getStatusCount] and [getStatusCombinationCount] on the table. *)
Definition getStatusCount (videos : list Row) (wanted : string) : nat :=
  length (filter (fun v => row_status v = wanted) videos).

Definition getStatusCombinationCount (videos : list Row) (statuses : list string) : nat :=
  length (filter (fun v => row_status v ∈ statuses) videos).

(** What the page gets from the edge function for a list of ids: the
    [results] of a good answer, an exception else. *)
Definition invoke (env : Env) (ignoreCache_ : bool) (cache : gmap string CacheRow)
    (videoIds_ : list string) : option (list VideoRecord) :=
  match (handler env {| videoIds := Some videoIds_; channelUrl := None;
                        ignoreCache := ignoreCache_ |} cache).1 with
  | Results results => Some results
  | Failure _ _ => None
  end.

End Client.

(** ** Reference notions the properties are stated with *)






(** [html] has an occurrence of [needle] up to the case of its letters. *)
Definition containsIgnoringCase (html needle : string) : Prop :=
  ∃ pre occurrence post,
    html = pre +:+ occurrence +:+ post
    ∧ Str.toLowerCase occurrence = Str.toLowerCase needle.

(** Every row of the cache holds the data of the video it is keyed by: what
    the handler writes. *)
Definition wellKeyed (cache : gmap string CacheRow) : Prop :=
  ∀ k row, cache !! k = Some row → videoId (data row) = k.

(** The entry of a batch answer for [id]: the last one, should the answer
    repeat the id. *)
Definition answerFor (items : list ApiItem) (id : string) : option ApiItem :=
  last (filter (fun item => item_id item = id) items).

(** The ids of a pagination only accumulate, and stay distinct. *)
Definition accumulates {World} (st st' : Scrape.PState World) : Prop :=
  (∀ id, id ∈ Scrape.allVideoIds st → id ∈ Scrape.allVideoIds st')
  ∧ (NoDup (Scrape.allVideoIds st) → NoDup (Scrape.allVideoIds st')).

(** The bound on token refreshes that every turn of the pagination loop
    keeps. *)
Definition refreshBound {World} (st : Scrape.PState World) : Prop :=
  (Scrape.refreshes st ≤ Scrape.pageCount st ∧ Scrape.refreshes st ≤ 2)%nat.

(** The rows a request selects hold the data of the video they are keyed
    by. *)
Definition selectedWellKeyed (cache : gmap string CacheRow) (ids : list string)
    (cacheExpiry : Z) : Prop :=
  ∀ k row, k ∈ ids → cache !! k = Some row → cacheExpiry < cached_at row →
           videoId (data row) = k.

(** [part] occurs in [whole]. *)
Definition occursIn (part whole : string) : Prop :=
  ∃ pre post, whole = pre +:+ part +:+ post.

(** An id as the pages of the site spell it: eleven id characters. *)
Definition wellFormedId (id : string) : Prop :=
  String.length id = 11%nat ∧ Extract.allIdChars id = true.

(** The character [c] is not in [s]. *)
Definition noChar (c : ascii) (s : string) : bool :=
  forallb (fun x => negb (bool_decide (x = c))) (list_ascii_of_string s).

(** The character [/] is not in [s]. *)
Definition noSlash (s : string) : bool :=
  forallb (fun c => negb (bool_decide (c = "/"%char))) (list_ascii_of_string s).


(** [rest] is empty or starts with a character of the class [stop]. *)
Definition endsRun (stop : ascii → bool) (rest : string) : Prop :=
  match rest with String r _ => stop r = true | EmptyString => True end.

(** An id as [extractVideoId] gives it: not empty, and without a character
    that ends an id. *)
Definition cleanId (id : string) : Prop :=
  id ≠ "" ∧ forallb (fun c => negb (Client.isIdEnd c)) (list_ascii_of_string id) = true.

(** The addresses of a video that the page knows, up to the id. *)
Definition videoAddresses : list string :=
  ["youtube.com/watch?v="; "youtu.be/"; "youtube.com/embed/"; "youtube.com/v/";
   "youtube.com/shorts/"].


(** The rows of the cache all hold a definitive status. *)
Definition allDefinitive (cache : gmap string CacheRow) : Prop :=
  ∀ k row, cache !! k = Some row → definitive (status (data row)) = true.

(** The next page is asked for: the answer is fine, lists items and names a
    further page. *)
Definition continues (data : Api.Answer Api.PlaylistItem) : bool :=
  Api.ok data && bool_decide (is_Some (Api.items data))
  && Str.truthy (default "" (Api.nextPageToken data)).

(** The addresses of [urls] that [processUrls] keeps. *)
Definition validUrlsOf (urls : list string) : list string :=
  filter (fun url => Client.isValidUrl url = true) urls.

(** The id that [processUrls] sends for an address it keeps. *)
Definition idOfUrl (url : string) : string :=
  default "" (Client.extractVideoId (Net.trim url)).

(** The characters of [s] are all white space. *)
Definition isBlank (s : string) : bool :=
  forallb Net.isSpace (list_ascii_of_string s).


(** ** Sample environments *)

Definition sampleItem (id : string) (privacy duration : option string) : ApiItem :=
  {| item_id := id; privacyStatus := privacy; item_duration := duration;
     item_title := Some "A title";
     item_thumbnail := text "https://i.ytimg.com/vi/default.jpg";
     item_publishedAt := text "2009-10-25T06:57:33Z" |}.

(** The data API knows two videos, one of them without a privacy status,
    and no channel; the watch page of a third video says it is private. *)
Definition sampleEnv : Env :=
  {| YOUTUBE_API_KEY := Some "key";
     getChannelVideosWithApi :=
       fun _ => inr "Could not find channel ID for the given input via API.";
     scrapeChannelContent :=
       fun _ => inl (Scrape.scrapeChannelContent ["dQw4w9WgXcQ"] ["9bZkp7q19f0"] []);
     dateNow := 1700000000000;
     cachedAtStamp := fun k => 1700000000500 + Z.of_nat k;
     fetchVideos :=
       fun _ _ => inl [sampleItem "dQw4w9WgXcQ" (Some "public") (Some "PT3M33S");
                       sampleItem "kJQP7kiw5Fk" None (Some "PT4M42S")];
     fetchWatchPage :=
       fun _ id => if decide (id = "9bZkp7q19f0")
                   then Some "<title>Private video - YouTube</title>" else None |}.




(** The pagination of a listing whose every continuation page fails while
    the base page keeps giving a token: the result and the final state. *)
Definition failingListing : (list string + string) * Scrape.PState unit :=
  Scrape.scrapeWithAggressivePagination unit
    (fun _ _ w => (["dQw4w9WgXcQ"], w))
    (fun _ w => (inl "<html>", w))
    (fun _ => Some "4qmFsgKrCBIYVUNfeDVYRzFPVjJQ")
    (fun _ _ _ w => (inr "Failed to fetch page: 429", w))
    (fun _ _ _ w => (inl [], w))
    "https://www.youtube.com/@example/videos" video (Scrape.entry ()).

(** A cache whose only row is exactly 24 hours old for [sampleEnv]. *)
Definition dayOldCache : gmap string CacheRow :=
  {[ "dQw4w9WgXcQ" :=
       {| data := {| videoId := "dQw4w9WgXcQ"; title := "A title"; status := "public";
                     thumbnail := absent; publishedAt := absent;
                     contentType := video; duration := text "PT3M33S" |};
          cached_at := 1700000000000 - 86400000 |} ]}.

(** A network that is down: every [fetch] throws. *)
Definition offlineFetch (request : Net.FetchRequest) (w : unit)
    : (Net.FetchResponse + string) * unit :=
  (inr "error sending request", w).

(** An environment whose scraper is the one of the repository, run on the
    network that is down, and whose data API knows no channel. *)
Definition offlineEnv : Env :=
  {| YOUTUBE_API_KEY := Some "key";
     getChannelVideosWithApi :=
       fun _ => inr "Could not find channel ID for the given input via API.";
     scrapeChannelContent :=
       fun channelInput => (Net.scrapeChannelContent unit offlineFetch channelInput ()).1;
     dateNow := 1700000000000;
     cachedAtStamp := fun k => 1700000000500 + Z.of_nat k;
     fetchVideos := fetchVideos sampleEnv;
     fetchWatchPage := fetchWatchPage sampleEnv |}.

(** A search that finds one channel, and the channel with its uploads. *)
Definition sampleSearch (query : string) (w : nat)
    : (Api.Answer Api.SearchItem + string) * nat :=
  (inl {| Api.ok := true;
          Api.items := Some [ {| Api.snippet := Some {| Api.channelId := Some "UC-sample" |} |} ];
          Api.nextPageToken := None |}, w).

Definition sampleChannels (channelId : string) (w : nat)
    : (Api.Answer Api.ChannelItem + string) * nat :=
  (inl {| Api.ok := true;
          Api.items :=
            Some [ {| Api.contentDetails :=
                        Some {| Api.relatedPlaylists :=
                                  Some {| Api.uploads := Some "UU-sample" |} |} |} ];
          Api.nextPageToken := None |}, w).

(** A playlist of which the world counts the pages that follow: each page
    has one video and one item without video. *)
Definition pagedPlaylist (playlistId : string) (pageToken : option string) (pagesLeft : nat)
    : (Api.Answer Api.PlaylistItem + string) * nat :=
  (inl {| Api.ok := true;
          Api.items := Some [ {| Api.resourceVideoId := Some "dQw4w9WgXcQ" |};
                              {| Api.resourceVideoId := None |} ];
          Api.nextPageToken :=
            match pagesLeft with O => None | S _ => Some "next-page" end |},
   pred pagesLeft).

(** A playlist of which every page names a further page. *)
Definition endlessPlaylist (playlistId : string) (pageToken : option string) (w : unit)
    : (Api.Answer Api.PlaylistItem + string) * unit :=
  (inl {| Api.ok := true;
          Api.items := Some [ {| Api.resourceVideoId := Some "dQw4w9WgXcQ" |} ];
          Api.nextPageToken := Some "next-page" |}, w).

(** A cache whose only row is one hour old for [sampleEnv]. *)
Definition hourOldCache : gmap string CacheRow :=
  {[ "dQw4w9WgXcQ" :=
       {| data := {| videoId := "dQw4w9WgXcQ"; title := "A title"; status := "public";
                     thumbnail := absent; publishedAt := absent;
                     contentType := video; duration := text "PT3M33S" |};
          cached_at := 1700000000000 - 3600000 |} ]}.

(** Three lines of input: two addresses and a line without one. *)
Definition sampleUrls : list string :=
  ["https://youtu.be/dQw4w9WgXcQ"; "no address here";
   "  https://www.youtube.com/watch?v=kJQP7kiw5Fk  "].

(** A channel scan that is answered with one record. *)
Definition sampleScan (channelInput : string) : option (list VideoRecord) :=
  Some [ {| fields := {| videoId := "dQw4w9WgXcQ"; title := "A title"; status := "public";
                         thumbnail := absent; publishedAt := absent;
                         contentType := video; duration := text "PT3M33S" |};
            fromCache := false |} ].

(** * Properties *)

(** ** Strings *)

Lemma app_String a s t : String a s +:+ t = String a (s +:+ t).
Proof. reflexivity. Qed.

Lemma app_empty t : "" +:+ t = t.
Proof. reflexivity. Qed.

Lemma app_assoc_string (a b c : string) : (a +:+ b) +:+ c = a +:+ b +:+ c.
Proof. induction a as [|x a IH]; [done|]. rewrite !app_String. by rewrite IH. Qed.

Lemma app_empty_r (a : string) : a +:+ "" = a.
Proof. induction a as [|x a IH]; [done|]. by rewrite app_String, IH. Qed.

(** ** Duration parsing *)

Section DurationFacts.

Import Duration.










Example parseDuration_61_seconds :
  parseDuration "PT61S" = 61 ∧ parseDuration "PT1M1S" = 61 ∧ isShort "PT61S" = true.
Proof. by vm_compute. Qed.

Example parseDuration_62_seconds :
  parseDuration "PT62S" = 62 ∧ parseDuration "PT1M2S" = 62 ∧ isShort "PT62S" = false.
Proof. by vm_compute. Qed.

(** A duration with a day designator has no [PT] in it: the pattern does
    not match and the duration reads as 0 seconds. *)
Example parseDuration_day_designator : parseDuration "P1DT1S" = 0.
Proof. reflexivity. Qed.

End DurationFacts.



(** ** Searching a page for a word *)

Section IncludesFacts.

Import Str.

Lemma startsWith_spec s p : startsWith s p = true ↔ ∃ post, s = p +:+ post.
Proof.
  revert s. induction p as [|a p IH]; intros s.
  - split; [intros _; by exists s | by destruct s].
  - destruct s as [|b s]; simpl.
    + split; [done | intros [post Hpost]; discriminate].
    + destruct (decide (a = b)) as [->|Hne].
      * rewrite IH. split; intros [post Hpost]; exists post.
        -- by rewrite app_String, Hpost.
        -- rewrite app_String in Hpost. by injection Hpost.
      * split; [done|]. intros [post Hpost]. rewrite app_String in Hpost.
        injection Hpost as Hab _. by destruct Hne.
Qed.

Lemma includes_spec s needle :
  includes s needle = true ↔ ∃ pre post, s = pre +:+ needle +:+ post.
Proof.
  induction s as [|c s IH].
  - cbn [includes]. rewrite orb_false_r, startsWith_spec. split.
    + intros [post Hpost]. by exists "", post.
    + intros [pre [post Hs]]. destruct pre; [by exists post | discriminate].
  - cbn [includes]. rewrite orb_true_iff, startsWith_spec, IH. split.
    + intros [[post Hpost] | [pre [post Hs]]].
      * by exists "", post.
      * exists (String c pre), post. by rewrite app_String, Hs.
    + intros [pre [post Hs]]. destruct pre as [|c' pre].
      * left. by exists post.
      * right. rewrite app_String in Hs. injection Hs as _ Hs. by exists pre, post.
Qed.

Lemma toLowerCase_app a b : toLowerCase (a +:+ b) = toLowerCase a +:+ toLowerCase b.
Proof. induction a as [|c a IH]; [done|]. rewrite app_String. simpl. by rewrite IH. Qed.

Lemma toLowerCase_split s a b :
  toLowerCase s = a +:+ b →
  ∃ s1 s2, s = s1 +:+ s2 ∧ toLowerCase s1 = a ∧ toLowerCase s2 = b.
Proof.
  revert s. induction a as [|c a IH]; intros s Hs.
  - by exists "", s.
  - destruct s as [|c' s]; [discriminate|].
    rewrite app_String in Hs. simpl in Hs. injection Hs as Hc Hs.
    destruct (IH s Hs) as (s1 & s2 & -> & H1 & H2).
    exists (String c' s1), s2. simpl. by rewrite Hc, H1.
Qed.

Lemma lowerChar_idemp c : lowerChar (lowerChar c) = lowerChar c.
Proof. by destruct c as [[] [] [] [] [] [] [] []]. Qed.

Lemma toLowerCase_idemp s : toLowerCase (toLowerCase s) = toLowerCase s.
Proof. induction s as [|c s IH]; [done|]. simpl. by rewrite lowerChar_idemp, IH. Qed.

(** Searching the lower-cased page for a word finds the occurrences of the
    word in the page up to case. *)
Lemma includes_toLowerCase html needle :
  includes (toLowerCase html) (toLowerCase needle) = true
  ↔ containsIgnoringCase html needle.
Proof.
  rewrite includes_spec. unfold containsIgnoringCase. split.
  - intros (pre & post & Hs).
    apply toLowerCase_split in Hs as (s1 & s23 & -> & H1 & Hs).
    apply toLowerCase_split in Hs as (s2 & s3 & -> & H2 & H3).
    by exists s1, s2, s3.
  - intros (pre & occurrence & post & -> & Hocc).
    exists (toLowerCase pre), (toLowerCase post).
    by rewrite !toLowerCase_app, Hocc.
Qed.

End IncludesFacts.

Lemma checkMissing_private page :
  checkMissingVideoStatusViaScraping page = "private"
  ↔ ∃ html, page = Some html ∧ containsIgnoringCase html "private".
Proof.
  unfold checkMissingVideoStatusViaScraping. destruct page as [html|].
  - change "private" with (Str.toLowerCase "private") at 1 4.
    pose proof (includes_toLowerCase html "private") as Hinc.
    destruct (Str.includes (Str.toLowerCase html) (Str.toLowerCase "private")).
    + split; [|done]. intros _. exists html. split; [done|]. by apply Hinc.
    + split.
      * by destruct (existsb _ _).
      * intros (html' & [= <-] & Hc). apply Hinc in Hc. discriminate.
  - split; [done|]. by intros (html & ? & _).
Qed.

Lemma checkMissing_deleted page :
  checkMissingVideoStatusViaScraping page = "deleted"
  ↔ ¬ ∃ html, page = Some html ∧ containsIgnoringCase html "private".
Proof.
  rewrite <- checkMissing_private.
  unfold checkMissingVideoStatusViaScraping. destruct page as [html|]; [|done].
  destruct (Str.includes _ _); [split; [done | intros H; by destruct H] |].
  by destruct (existsb _ _).
Qed.

(** ** Maps built by successive insertions *)

Lemma foldl_insert_lookup {A V} (key : A → string) (val : A → V)
    (l : list A) (m0 : gmap string V) (k : string) :
  foldl (fun m x => <[key x := val x]> m) m0 l !! k
  = match last (filter (fun x => key x = k) l) with
    | Some x => Some (val x)
    | None => m0 !! k
    end.
Proof.
  induction l as [|x l IH] using rev_ind; [done|].
  rewrite foldl_app, filter_app, filter_cons, filter_nil. cbn [foldl].
  destruct (decide (key x = k)) as [Hk|Hk].
  - by rewrite last_snoc, Hk, lookup_insert_eq.
  - by rewrite app_nil_r, lookup_insert_ne.
Qed.

Lemma last_filter_None {A} (P : A → Prop) `{!∀ x, Decision (P x)} (l : list A) :
  last (filter P l) = None ↔ ∀ x, x ∈ l → ¬ P x.
Proof.
  rewrite last_None. split.
  - intros Hnil x Hx HP. assert (x ∈ filter P l) as Hin by by apply list_elem_of_filter.
    rewrite Hnil in Hin. by apply not_elem_of_nil in Hin.
  - intros Hall. destruct (filter P l) as [|y l'] eqn:Hf; [done|].
    assert (y ∈ filter P l) as Hin by (rewrite Hf; left).
    apply list_elem_of_filter in Hin as [HP Hy]. by destruct (Hall y Hy).
Qed.

Lemma last_filter_Some {A} (P : A → Prop) `{!∀ x, Decision (P x)} (l : list A) x :
  last (filter P l) = Some x → x ∈ l ∧ P x.
Proof.
  intros Hlast. assert (x ∈ filter P l) as Hin.
  { destruct (filter P l) as [|y l'] using rev_ind; [done|].
    rewrite last_snoc in Hlast. injection Hlast as ->. set_solver. }
  apply list_elem_of_filter in Hin. tauto.
Qed.

(** ** One batch *)

Lemma apiResultsOf_lookup items id : apiResultsOf items !! id = answerFor items id.
Proof.
  unfold apiResultsOf, answerFor.
  pose proof (foldl_insert_lookup item_id (fun x => x) items ∅ id) as H.
  cbv beta in H. rewrite H. by destruct (last _).
Qed.

Lemma processBatch_lookup env videoTypes i batch items j id :
  fetchVideos env i batch = inl items →
  batch !! j = Some id →
  ∃ records,
    processBatch env videoTypes i batch = inl records
    ∧ length records = length batch
    ∧ records !! j = Some (batchEntry env videoTypes (apiResultsOf items) (i + j) id).
Proof.
  intros Hfetch Hj. unfold processBatch. rewrite Hfetch.
  eexists. split; [done|]. split; [by rewrite length_imap|].
  by rewrite list_lookup_imap, Hj.
Qed.

(** C7: a requested video that the batch answer does not contain gets the
    record of the scraping classifier: [private] with title "Private Video"
    when the watch page was fetched and has "private" in it up to case, else
    (a page without it, or a failed fetch) [deleted] with title
    "Video Not Found"; thumbnail, publication date and duration are null. *)
Theorem C7_missing_video_record
    (env : Env) (videoTypes : gmap string ContentType) (i : nat)
    (batch : list string) (items : list ApiItem) (j : nat) (id : string) :
  fetchVideos env i batch = inl items →
  batch !! j = Some id →
  (∀ item, item ∈ items → item_id item ≠ id) →
  let page := fetchWatchPage env (i + j) id in
  let foundPrivate := ∃ html, page = Some html ∧ containsIgnoringCase html "private" in
  ∃ records r,
    processBatch env videoTypes i batch = inl records
    ∧ records !! j = Some r
    ∧ videoId (fields r) = id
    ∧ status (fields r) = checkMissingVideoStatusViaScraping page
    ∧ (foundPrivate →
       status (fields r) = "private" ∧ title (fields r) = "Private Video")
    ∧ (¬ foundPrivate →
       status (fields r) = "deleted" ∧ title (fields r) = "Video Not Found")
    ∧ thumbnail (fields r) = null
    ∧ publishedAt (fields r) = null
    ∧ duration (fields r) = null
    ∧ fromCache r = false.
Proof.
  intros Hfetch Hj Habsent page foundPrivate.
  destruct (processBatch_lookup env videoTypes i batch items j id Hfetch Hj)
    as (records & Hrecords & _ & Hr).
  exists records, (batchEntry env videoTypes (apiResultsOf items) (i + j) id).
  split; [done|]. split; [done|].
  unfold batchEntry. rewrite apiResultsOf_lookup.
  assert (answerFor items id = None) as -> by by apply last_filter_None.
  fold page. unfold missingRecord. cbn [fields videoId status title thumbnail
    publishedAt duration fromCache].
  repeat split.
  - by apply checkMissing_private in H as ->.
  - apply checkMissing_private in H as ->. by rewrite decide_True.
  - by apply checkMissing_deleted.
  - apply checkMissing_deleted in H as ->. by rewrite decide_False.
Qed.

(** C2, as the code has it: a requested video that the batch answer
    contains gets a record whose status is the answer's [privacyStatus]
    verbatim when the answer carries a non-empty one, hence one of public,
    unlisted and private whenever the answer's value is, and the placeholder
    "unknown" when the answer carries none. *)
Theorem C2_status_of_answered_video
    (env : Env) (videoTypes : gmap string ContentType) (i : nat)
    (batch : list string) (items : list ApiItem) (j : nat) (id : string)
    (item : ApiItem) :
  fetchVideos env i batch = inl items →
  batch !! j = Some id →
  answerFor items id = Some item →
  ∃ records r,
    processBatch env videoTypes i batch = inl records
    ∧ records !! j = Some r
    ∧ videoId (fields r) = id
    ∧ fromCache r = false
    ∧ (∀ s, privacyStatus item = Some s → s ≠ "" → status (fields r) = s)
    ∧ (privacyStatus item = None ∨ privacyStatus item = Some "" →
       status (fields r) = "unknown")
    ∧ (∀ s, privacyStatus item = Some s →
         s ∈ ["public"; "unlisted"; "private"] →
         status (fields r) ∈ ["public"; "unlisted"; "private"]).
Proof.
  intros Hfetch Hj Hitem.
  destruct (processBatch_lookup env videoTypes i batch items j id Hfetch Hj)
    as (records & Hrecords & _ & Hr).
  exists records, (batchEntry env videoTypes (apiResultsOf items) (i + j) id).
  split; [done|]. split; [done|].
  unfold batchEntry. rewrite apiResultsOf_lookup, Hitem.
  unfold foundRecord. cbn [fields videoId status fromCache].
  split; [done|]. split; [done|]. split; [|split].
  - intros s -> Hs. by destruct s.
  - by intros [-> | ->].
  - intros s -> Hs. assert (s ≠ "") as Hne.
    { intros ->. by apply (bool_decide_pack _) in Hs. }
    by destruct s.
Qed.

(** ** Sets in insertion order *)

Lemma JsSet_add_elem s x y : y ∈ JsSet.add s x ↔ y ∈ s ∨ y = x.
Proof.
  unfold JsSet.add. destruct (decide (x ∈ s)) as [Hin|Hin].
  - split; [by left | intros [?| ->]; done].
  - by rewrite elem_of_app, list_elem_of_singleton.
Qed.

Lemma JsSet_add_NoDup s x : NoDup s → NoDup (JsSet.add s x).
Proof.
  intros Hs. unfold JsSet.add. destruct (decide (x ∈ s)) as [Hin|Hin]; [done|].
  apply NoDup_app. split; [done|]. split; [|apply NoDup_singleton].
  intros y Hy ->%list_elem_of_singleton. done.
Qed.

Lemma JsSet_addAll_elem s xs y : y ∈ JsSet.addAll s xs ↔ y ∈ s ∨ y ∈ xs.
Proof.
  unfold JsSet.addAll. revert s. induction xs as [|x xs IH]; intros s; cbn [foldl].
  - rewrite elem_of_nil. tauto.
  - rewrite IH, JsSet_add_elem, elem_of_cons. tauto.
Qed.

Lemma JsSet_addAll_NoDup s xs : NoDup s → NoDup (JsSet.addAll s xs).
Proof.
  unfold JsSet.addAll. revert s. induction xs as [|x xs IH]; intros s Hs; [done|].
  cbn [foldl]. by apply IH, JsSet_add_NoDup.
Qed.

Lemma NoDup_occurs_once (l : list string) x :
  NoDup l → x ∈ l → length (filter (fun y => y = x) l) = 1%nat.
Proof.
  induction 1 as [|y l Hy Hl IH]; intros Hx; [by apply elem_of_nil in Hx|].
  rewrite filter_cons. destruct (decide (y = x)) as [->|Hne].
  - cbn [length]. f_equal. apply length_zero_iff_nil.
    apply elem_of_nil_inv. intros z [-> Hz]%list_elem_of_filter. done.
  - apply IH. apply elem_of_cons in Hx as [->|Hx]; done.
Qed.

(** ** Channel discovery by scraping *)

Lemma tagAll_fst tab acc ids : (Scrape.tagAll tab acc ids).1 = JsSet.addAll acc.1 ids.
Proof.
  unfold Scrape.tagAll, JsSet.addAll. revert acc.
  induction ids as [|id ids IH]; intros acc; [done|]. cbn [foldl]. by rewrite IH.
Qed.

Lemma tagAll_snd tab acc ids id :
  (Scrape.tagAll tab acc ids).2 !! id
  = if decide (id ∈ ids) then Some tab else acc.2 !! id.
Proof.
  unfold Scrape.tagAll. revert acc.
  induction ids as [|x ids IH]; intros acc; cbn [foldl].
  - by rewrite decide_False by apply not_elem_of_nil.
  - rewrite IH. cbn [snd]. destruct (decide (id ∈ ids)) as [Hin|Hin].
    + by rewrite decide_True by by right.
    + destruct (decide (id = x)) as [->|Hne].
      * by rewrite decide_True, lookup_insert_eq by left.
      * rewrite decide_False, lookup_insert_ne; [done..|].
        by intros [?|?]%elem_of_cons.
Qed.

(** The hint of a discovered video: [short] when the shorts listing has it,
    else [video] when the videos listing has it, else none. *)
Lemma scrapeChannelContent_types videoResults shortsResults additionalResults id :
  types (Scrape.scrapeChannelContent videoResults shortsResults additionalResults) !! id
  = if decide (id ∈ shortsResults) then Some short
    else if decide (id ∈ videoResults) then Some video else None.
Proof.
  unfold Scrape.scrapeChannelContent. cbn [types]. rewrite !tagAll_snd. cbn [snd].
  by rewrite lookup_empty.
Qed.

Lemma scrapeChannelContent_found videoResults shortsResults additionalResults :
  NoDup (found (Scrape.scrapeChannelContent videoResults shortsResults additionalResults))
  ∧ ∀ id,
      id ∈ found (Scrape.scrapeChannelContent videoResults shortsResults additionalResults)
      ↔ id ∈ videoResults ∨ id ∈ shortsResults ∨ id ∈ additionalResults.
Proof.
  unfold Scrape.scrapeChannelContent. cbn [found]. rewrite !tagAll_fst. cbn [fst]. split.
  - do 3 apply JsSet_addAll_NoDup. apply NoDup_nil_2.
  - intros id. rewrite !JsSet_addAll_elem, elem_of_nil. tauto.
Qed.

(** C1, as the code has it: a video found in both the videos listing and
    the shorts listing is once in the discovery result, and its hint is that
    of the listing processed last, the shorts listing: the later assignment
    replaces the earlier one. *)
Theorem C1_duplicate_once_hint_of_last_listing
    (videoResults shortsResults additionalResults : list string) (id : string) :
  id ∈ videoResults →
  id ∈ shortsResults →
  let result := Scrape.scrapeChannelContent videoResults shortsResults additionalResults in
  length (filter (fun x => x = id) (found result)) = 1%nat
  ∧ types result !! id = Some short.
Proof.
  intros Hv Hs result. split.
  - destruct (scrapeChannelContent_found videoResults shortsResults additionalResults)
      as [Hnodup Hin].
    apply NoDup_occurs_once; [done|]. apply Hin. by left.
  - unfold result. by rewrite scrapeChannelContent_types, decide_True.
Qed.

Lemma C1_witness_duplicate :
  let result := Scrape.scrapeChannelContent ["dQw4w9WgXcQ"; "9bZkp7q19f0"] ["dQw4w9WgXcQ"] [] in
  length (filter (fun x => x = "dQw4w9WgXcQ") (found result)) = 1%nat
  ∧ types result !! "dQw4w9WgXcQ" = Some short.
Proof.
  apply (C1_duplicate_once_hint_of_last_listing
           ["dQw4w9WgXcQ"; "9bZkp7q19f0"] ["dQw4w9WgXcQ"] [] "dQw4w9WgXcQ");
    apply (bool_decide_unpack _); vm_compute; exact I.
Defined.

(** The claim as written fails: the video below is in both listings, the
    videos listing is processed first, and its hint is [short]. *)
Lemma C1_counterexample_first_hint_lost :
  let videoResults := ["dQw4w9WgXcQ"] in
  let shortsResults := ["dQw4w9WgXcQ"] in
  let result := Scrape.scrapeChannelContent videoResults shortsResults [] in
  "dQw4w9WgXcQ" ∈ videoResults
  ∧ "dQw4w9WgXcQ" ∈ shortsResults
  ∧ found result = ["dQw4w9WgXcQ"]
  ∧ types result !! "dQw4w9WgXcQ" = Some short
  ∧ types result !! "dQw4w9WgXcQ" ≠ Some video.
Proof.
  cbv zeta. split; [by left|]. split; [by left|].
  split; [by vm_compute|]. split; [by vm_compute|]. by vm_compute.
Qed.

(** ** Pagination of a listing *)

Section PaginationFacts.

Context (World : Type).
Context (scrapePageContent : string → ContentType → World → list string * World).
Context (fetchPageHtml : string → World → (string + string) * World).
Context (extractContinuationToken : string → option string).
Context (fetchPageWithMultipleStrategies :
  string → string → ContentType → World → (list string * option string + string) * World).
Context (tryAlternativeContinuation :
  string → string → ContentType → World → (list string + string) * World).

Local Abbreviation PState := (Scrape.PState World).
Local Abbreviation pageBody :=
  (Scrape.pageBody World fetchPageWithMultipleStrategies tryAlternativeContinuation).
Local Abbreviation recover := (Scrape.recover World fetchPageHtml extractContinuationToken).
Local Abbreviation paginate :=
  (Scrape.paginate World fetchPageHtml extractContinuationToken
     fetchPageWithMultipleStrategies tryAlternativeContinuation).
Local Abbreviation scrapeWithAggressivePagination :=
  (Scrape.scrapeWithAggressivePagination World scrapePageContent fetchPageHtml
     extractContinuationToken fetchPageWithMultipleStrategies tryAlternativeContinuation).


Lemma accumulates_refl (st : PState) : accumulates st st.
Proof. by split. Qed.

Lemma accumulates_trans (st1 st2 st3 : PState) :
  accumulates st1 st2 → accumulates st2 st3 → accumulates st1 st3.
Proof. intros [H1 H2] [H3 H4]. split; auto. Qed.

Lemma countNew_fst acc ids : (Scrape.countNew acc ids).1 = JsSet.addAll acc.1 ids.
Proof.
  unfold Scrape.countNew, JsSet.addAll. revert acc.
  induction ids as [|id ids IH]; intros acc; [done|]. cbn [foldl]. rewrite IH.
  f_equal. unfold JsSet.add. by destruct (decide (id ∈ acc.1)).
Qed.

Lemma addNew_spec ids (st : PState) :
  ∃ n st', Scrape.addNew ids st = (inl n, st')
    ∧ Scrape.world st' = Scrape.world st
    ∧ Scrape.allVideoIds st' = JsSet.addAll (Scrape.allVideoIds st) ids
    ∧ Scrape.continuationToken st' = Scrape.continuationToken st
    ∧ Scrape.pageCount st' = Scrape.pageCount st
    ∧ Scrape.refreshes st' = Scrape.refreshes st.
Proof.
  unfold Scrape.addNew. pose proof (countNew_fst (Scrape.allVideoIds st, O) ids) as Hc.
  destruct (Scrape.countNew _ ids) as [all n]. cbn in Hc. subst all.
  by eexists _, _.
Qed.

Lemma addNew_accumulates ids (st : PState) r st' :
  Scrape.addNew ids st = (r, st') →
  accumulates st st' ∧ Scrape.pageCount st' = Scrape.pageCount st
  ∧ Scrape.refreshes st' = Scrape.refreshes st ∧ (∃ n, r = inl n)
  ∧ ∀ id, id ∈ ids → id ∈ Scrape.allVideoIds st'.
Proof.
  destruct (addNew_spec ids st) as (n & st0 & -> & _ & Hall & _ & Hp & Hr).
  intros [= <- <-]. unfold accumulates. rewrite Hall. repeat split; try done.
  - intros id Hid. apply JsSet_addAll_elem. by left.
  - apply JsSet_addAll_NoDup.
  - by exists n.
  - intros id Hid. apply JsSet_addAll_elem. by right.
Qed.

Lemma pageBody_frame url contentType token (st : PState) r st' :
  pageBody url contentType token st = (r, st') →
  accumulates st st' ∧ Scrape.pageCount st' = Scrape.pageCount st
  ∧ Scrape.refreshes st' = Scrape.refreshes st.
Proof.
  unfold Scrape.pageBody, Scrape.bind, Scrape.await, Scrape.ret, Scrape.setToken.
  destruct (fetchPageWithMultipleStrategies _ _ _ _) as [[pageResults|e] w]; cbn.
  2:{ intros [= <- <-]. by repeat split. }
  destruct (Scrape.addNew pageResults.1 _) as [r1 st1] eqn:H1.
  apply addNew_accumulates in H1 as (Hacc1 & Hp1 & Hr1 & [n ->] & _).
  cbn in Hacc1, Hp1, Hr1.
  assert (accumulates st st1) as Hacc1' by (destruct Hacc1; by split).
  destruct (decide (n = O)) as [->|Hn]; cbn.
  2:{ intros [= <- <-]. by repeat split; cbn; try apply Hacc1. }
  destruct (tryAlternativeContinuation _ _ _ _) as [[altResults|e] w']; cbn.
  2:{ intros [= <- <-]. by repeat split; cbn; try apply Hacc1. }
  destruct (Scrape.addNew altResults _) as [r2 st2] eqn:H2.
  apply addNew_accumulates in H2 as (Hacc2 & Hp2 & Hr2 & [n2 ->] & _).
  cbn in Hacc2, Hp2, Hr2.
  assert (accumulates st st2) as Hacc.
  { destruct Hacc1 as [A1 B1], Hacc2 as [A2 B2]. split; cbn in *; auto. }
  destruct (bool_decide (n2 = O)); cbn; intros [= <- <-]; cbn;
    (split; [by destruct Hacc; split | split; congruence]).
Qed.

Lemma recover_frame url (st : PState) r st' :
  recover url st = (r, st') →
  Scrape.allVideoIds st' = Scrape.allVideoIds st
  ∧ Scrape.pageCount st' = Scrape.pageCount st
  ∧ (Scrape.refreshes st' = Scrape.refreshes st
     ∨ Scrape.refreshes st' = S (Scrape.refreshes st) ∧ (Scrape.pageCount st < 3)%nat).
Proof.
  unfold Scrape.recover, Scrape.bind, Scrape.get, Scrape.noteRefresh, Scrape.await, Scrape.setToken, Scrape.ret. cbn.
  destruct (decide (Scrape.pageCount st < 3)%nat) as [Hlt|Hge]; cbn.
  2:{ intros [= <- <-]. auto. }
  destruct (fetchPageHtml _ _) as [[html|e] w]; cbn; intros [= <- <-]; cbn; auto.
Qed.

Lemma paginate_frame url contentType fuel (st : PState) r st' :
  paginate url contentType fuel st = (r, st') →
  accumulates st st' ∧ (refreshBound st → refreshBound st').
Proof.
  revert st. induction fuel as [|fuel IH]; intros st.
  { cbn. intros [= <- <-]. split; [apply accumulates_refl | done]. }
  cbn [Scrape.paginate]. unfold Scrape.bind at 1, Scrape.get at 1.
  destruct (Scrape.continuationToken st) as [token|] eqn:Htok.
  2:{ intros [= <- <-]. split; [apply accumulates_refl | done]. }
  destruct (Str.truthy token && bool_decide (Scrape.pageCount st < Scrape.maxPages)%nat).
  2:{ intros [= <- <-]. split; [apply accumulates_refl | done]. }
  unfold Scrape.bind at 1, Scrape.incrPageCount at 1. unfold Scrape.bind at 1, Scrape.tryCatch at 1.
  destruct (pageBody url contentType token _) as [[goOn|e] st2] eqn:Hbody.
  - apply pageBody_frame in Hbody as (Hacc & Hp & Hr). cbn in Hp, Hr.
    assert (accumulates st st2) as Hacc0 by (destruct Hacc; by split).
    clear Hacc; rename Hacc0 into Hacc.
    assert (refreshBound st → refreshBound st2) as Hb.
    { unfold refreshBound. rewrite Hp, Hr. cbn. lia. }
    destruct goOn.
    + intros Hrec. apply IH in Hrec as [Hacc' Hb'].
      split; [|by auto]. eapply accumulates_trans; [|exact Hacc']. exact Hacc.
    + intros [= <- <-]. by split.
  - apply pageBody_frame in Hbody as (Hacc & Hp & Hr). cbn in Hp, Hr.
    assert (accumulates st st2) as Hacc0 by (destruct Hacc; by split).
    clear Hacc; rename Hacc0 into Hacc.
    destruct (recover url st2) as [[goOn|e'] st3] eqn:Hrec.
    + apply recover_frame in Hrec as (Hall & Hp3 & Hr3).
      assert (accumulates st st3) as Hacc3.
      { destruct Hacc as [A B]. split; rewrite Hall; auto. }
      assert (refreshBound st → refreshBound st3) as Hb.
      { unfold refreshBound. rewrite Hp3, Hp. cbn.
        destruct Hr3 as [-> | [-> Hlt]]; rewrite ?Hr; rewrite ?Hp in *; cbn in *; lia. }
      destruct goOn.
      * intros Hloop. apply IH in Hloop as [Hacc' Hb'].
        split; [|by auto]. eapply accumulates_trans; [exact Hacc3 | exact Hacc'].
      * intros [= <- <-]. by split.
    + apply recover_frame in Hrec as (Hall & Hp3 & Hr3).
      intros [= <- <-]. split.
      * destruct Hacc as [A B]. split; rewrite Hall; auto.
      * unfold refreshBound. rewrite Hp3, Hp. cbn.
        destruct Hr3 as [-> | [-> Hlt]]; rewrite ?Hr; rewrite ?Hp in *; cbn in *; lia.
Qed.


Lemma paginate_unfold url contentType fuel (st : PState) :
  paginate url contentType (S fuel) st
  = match Scrape.continuationToken st with
    | Some token =>
        if Str.truthy token && bool_decide (Scrape.pageCount st < Scrape.maxPages)%nat
        then
          match pageBody url contentType token (Scrape.incrPageCount st).2 with
          | (inl goOn, st2) =>
              if goOn then paginate url contentType fuel st2 else (inl (), st2)
          | (inr _, st2) =>
              match recover url st2 with
              | (inl goOn, st3) =>
                  if goOn then paginate url contentType fuel st3 else (inl (), st3)
              | (inr e, st3) => (inr e, st3)
              end
          end
        else (inl (), st)
    | None => (inl (), st)
    end.
Proof.
  cbn [Scrape.paginate]. unfold Scrape.bind at 1, Scrape.get at 1.
  destruct (Scrape.continuationToken st) as [token|]; [|done].
  destruct (Str.truthy token && _); [|done].
  unfold Scrape.bind at 1. cbn [Scrape.incrPageCount snd].
  unfold Scrape.bind at 1, Scrape.tryCatch at 1.
  destruct (pageBody url contentType token _) as [[goOn|e] st2]; [by destruct goOn|].
  destruct (recover url st2) as [[goOn|e'] st3]; [by destruct goOn | done].
Qed.

Lemma paginate_fuel_enough url contentType fuel (st : PState) :
  (Scrape.maxPages ≤ Scrape.pageCount st + fuel)%nat →
  paginate url contentType (S fuel) st = paginate url contentType fuel st.
Proof.
  revert st. induction fuel as [|fuel IH]; intros st Hfuel.
  - rewrite paginate_unfold.
    destruct (Scrape.continuationToken st) as [token|]; [|done].
    rewrite (bool_decide_eq_false_2 (Scrape.pageCount st < Scrape.maxPages)%nat) by lia.
    by rewrite andb_false_r.
  - rewrite (paginate_unfold _ _ (S fuel)), (paginate_unfold _ _ fuel).
    destruct (Scrape.continuationToken st) as [token|]; [|done].
    destruct (Str.truthy token && _); [|done].
    destruct (pageBody url contentType token _) as [[goOn|e] st2] eqn:Hbody;
      apply pageBody_frame in Hbody as (_ & Hp & _); cbn in Hp.
    + destruct goOn; [|done]. apply IH. lia.
    + destruct (recover url st2) as [[goOn|e'] st3] eqn:Hrec; [|done].
      apply recover_frame in Hrec as (_ & Hp3 & _).
      destruct goOn; [|done]. apply IH. lia.
Qed.

Lemma scrapeWithAggressivePagination_total url contentType w :
  ∃ ids st',
    scrapeWithAggressivePagination url contentType (Scrape.entry w) = (inl ids, st')
    ∧ ids = Scrape.allVideoIds st'
    ∧ (Scrape.refreshes st' ≤ 2)%nat
    ∧ (∀ id, id ∈ (scrapePageContent url contentType w).1 → id ∈ ids)
    ∧ NoDup ids.
Proof.
  unfold Scrape.scrapeWithAggressivePagination, Scrape.tryCatch.
  unfold Scrape.bind at 1, Scrape.awaitTotal at 1. cbn [Scrape.world Scrape.entry].
  destruct (scrapePageContent url contentType w) as [initialResults w1]. cbn [fst].
  unfold Scrape.bind at 1.
  destruct (Scrape.addNew initialResults _) as [r1 st1] eqn:H1.
  apply addNew_accumulates in H1 as (Hacc1 & Hp1 & Hr1 & [n ->] & Hinit).
  cbn in Hacc1, Hp1, Hr1.
  assert (NoDup (Scrape.allVideoIds st1)) as Hnd1 by (apply Hacc1, NoDup_nil_2).
  unfold Scrape.bind at 1, Scrape.await at 1.
  destruct (fetchPageHtml url (Scrape.world st1)) as [[initialHtml|e] w2].
  2:{ cbn. eexists _, _. split; [done|]. cbn. repeat split; [lia | done | done]. }
  unfold Scrape.bind at 1, Scrape.setToken at 1. unfold Scrape.bind at 1.
  destruct (paginate url contentType Scrape.maxPages _) as [r3 st3] eqn:Hloop.
  apply paginate_frame in Hloop as [[Hsub Hnd] Hbound]. cbn in Hsub, Hnd.
  assert (refreshBound st3) as [_ Hr3'].
  { apply Hbound. unfold refreshBound. cbn. lia. }
  destruct r3 as [[]|e]; cbn; eexists _, _; (split; [done|]); repeat split; auto.
Qed.


End PaginationFacts.

(** The refresh is gated by [pageCount < 3], tested after the increment: a
    listing whose pages always fail gets two refreshes, then the loop ends
    with the ids of the first page. *)
Example failingListing_two_refreshes :
  failingListing.1 = inl ["dQw4w9WgXcQ"]
  ∧ Scrape.refreshes failingListing.2 = 2%nat
  ∧ Scrape.pageCount failingListing.2 = 3%nat.
Proof. by vm_compute. Qed.


(** ** The resolver *)

Local Abbreviation idOf := (fun r : VideoRecord => videoId (fields r)).
Local Abbreviation cachedRecord :=
  (fun item : string * VideoData => {| fields := item.2; fromCache := true |}).
Local Abbreviation rowOf :=
  (fun (env : Env) (k : nat) (result : VideoRecord) =>
     (videoId (fields result),
      {| data := fields result; cached_at := cachedAtStamp env k |})).

Lemma batchEntry_id env videoTypes apiResults pos id :
  videoId (fields (batchEntry env videoTypes apiResults pos id)) = id
  ∧ fromCache (batchEntry env videoTypes apiResults pos id) = false.
Proof. unfold batchEntry. by destruct (apiResults !! id). Qed.

Lemma imap_sections {A B} (f : nat → A → B) (g : B → A) (l : list A) :
  (∀ j x, g (f j x) = x) → g <$> imap f l = l.
Proof.
  revert f. induction l as [|x l IH]; intros f Hgf; [done|].
  cbn. rewrite Hgf. f_equal. apply IH. intros j y. apply Hgf.
Qed.

Lemma Forall_imap_intro {A B} (P : B → Prop) (f : nat → A → B) (l : list A) :
  (∀ j x, P (f j x)) → Forall P (imap f l).
Proof.
  revert f. induction l as [|x l IH]; intros f HP; cbn; constructor; [done|].
  apply IH. intros j y. apply HP.
Qed.

Lemma processBatch_inl env videoTypes i batch records :
  processBatch env videoTypes i batch = inl records →
  idOf <$> records = batch ∧ Forall (fun r => fromCache r = false) records.
Proof.
  unfold processBatch. destruct (fetchVideos env i batch) as [items|e]; [|done].
  intros [= <-]. split.
  - apply imap_sections. intros j x. apply batchEntry_id.
  - apply Forall_imap_intro. intros j x. apply batchEntry_id.
Qed.

Lemma batchLoop_fresh env videoTypes ids fuel i acc freshResults :
  (length ids ≤ i + fuel)%nat →
  batchLoop env videoTypes ids fuel i acc = inl freshResults →
  ∃ rest,
    freshResults = acc ++ rest
    ∧ idOf <$> rest = drop i ids
    ∧ Forall (fun r => fromCache r = false) rest.
Proof.
  revert i acc. induction fuel as [|fuel IH]; intros i acc Hfuel; cbn [batchLoop].
  - intros [= <-]. exists []. rewrite app_nil_r, drop_ge by lia. by repeat split.
  - destruct (decide (i < length ids)%nat) as [Hlt|Hge].
    2:{ intros [= <-]. exists []. rewrite app_nil_r, drop_ge by lia. by repeat split. }
    destruct (processBatch env videoTypes i _) as [batchResults|e] eqn:Hbatch; [|done].
    apply processBatch_inl in Hbatch as [Hids Hfresh].
    intros Hloop. apply IH in Hloop as (rest & -> & Hrest & Hfresh'); [|unfold batchSize; lia].
    exists (batchResults ++ rest). rewrite app_assoc. split; [done|]. split.
    + rewrite fmap_app, Hids, Hrest, <- drop_drop. apply take_drop.
    + by apply Forall_app.
Qed.

Lemma batchLoop_unfold env videoTypes ids fuel i acc :
  batchLoop env videoTypes ids (S fuel) i acc
  = if decide (i < length ids)%nat then
      match processBatch env videoTypes i (take batchSize (drop i ids)) with
      | inr message => inr message
      | inl batchResults =>
          batchLoop env videoTypes ids fuel (i + batchSize) (acc ++ batchResults)
      end
    else inl acc.
Proof. reflexivity. Qed.

(** The length of the work list is enough fuel: more changes nothing. *)
Lemma batchLoop_fuel_enough env videoTypes ids fuel i acc :
  (length ids ≤ i + fuel)%nat →
  batchLoop env videoTypes ids (S fuel) i acc = batchLoop env videoTypes ids fuel i acc.
Proof.
  revert i acc. induction fuel as [|fuel IH]; intros i acc Hfuel.
  - cbn. by rewrite decide_False by lia.
  - rewrite (batchLoop_unfold _ _ _ (S fuel)), (batchLoop_unfold _ _ _ fuel).
    destruct (decide (i < length ids)%nat); [|done].
    destruct (processBatch _ _ _ _); [|done]. apply IH. unfold batchSize. lia.
Qed.

Lemma cacheSelect_elem cache ids cacheExpiry k d :
  (k, d) ∈ cacheSelect cache ids cacheExpiry
  ↔ k ∈ ids ∧ ∃ row, cache !! k = Some row ∧ cacheExpiry < cached_at row ∧ d = data row.
Proof.
  unfold cacheSelect. rewrite list_elem_of_omap. split.
  - intros (id & Hid & Hsel). apply (proj1 (elem_of_remove_dups _ _)) in Hid.
    cbv beta in Hsel.
    destruct (cache !! id) as [row|] eqn:Hrow; [|discriminate].
    destruct (decide (cacheExpiry < cached_at row)); [|discriminate].
    injection Hsel as <- <-. split; [done|]. by exists row.
  - intros (Hk & row & Hrow & Hfresh & ->). exists k.
    split; [by apply (proj2 (elem_of_remove_dups _ _))|]. cbv beta. by rewrite Hrow, decide_True.
Qed.

Lemma cacheSelect_keys_NoDup cache ids cacheExpiry :
  NoDup (fst <$> cacheSelect cache ids cacheExpiry).
Proof.
  unfold cacheSelect. pose proof (NoDup_remove_dups ids) as Hnd.
  induction Hnd as [|id l Hid Hl IH]; [apply NoDup_nil_2|].
  cbn [omap list_omap].
  destruct (cache !! id) as [row|]; [|done].
  destruct (decide (cacheExpiry < cached_at row)); [|done].
  cbn. apply NoDup_cons. split; [|done].
  intros ((k & d) & -> & Hin)%list_elem_of_fmap. cbn in Hid.
  apply list_elem_of_omap in Hin as (id' & Hid' & Hsel). cbv beta in Hsel.
  destruct (cache !! id') as [row'|]; [|discriminate].
  destruct (decide (cacheExpiry < cached_at row')); [|discriminate].
  by injection Hsel as -> _.
Qed.

Lemma resultMap_lookup allResults id :
  resultMapOf allResults !! id = last (filter (fun r => idOf r = id) allResults).
Proof.
  unfold resultMapOf.
  pose proof (foldl_insert_lookup idOf (fun r => r) allResults ∅ id) as H.
  cbv beta in H. rewrite H. by destruct (last _).
Qed.

Lemma resultMap_lookup_Some allResults id r :
  resultMapOf allResults !! id = Some r → r ∈ allResults ∧ idOf r = id.
Proof.
  rewrite resultMap_lookup. intros H.
  by apply (last_filter_Some (fun r => idOf r = id)) in H as [? ?].
Qed.

Lemma resolve_Results env videoTypes ignoreCache ids cache rs cache' :
  resolve env videoTypes ignoreCache ids cache = (Results rs, cache') →
  let cacheData := cacheRead env ignoreCache ids cache in
  let idsToFetch := workList cacheData ids in
  ∃ freshResults,
    batchLoop env videoTypes idsToFetch (length idsToFetch) 0 [] = inl freshResults
    ∧ idOf <$> freshResults = idsToFetch
    ∧ Forall (fun r => fromCache r = false) freshResults
    ∧ rs = omap (fun id => resultMapOf ((cachedRecord <$> cacheData) ++ freshResults) !! id) ids
    ∧ cache' = if ignoreCache then cache else upsert cache (cachePayloadOf env freshResults).
Proof.
  intros Hres cacheData idsToFetch. unfold resolve in Hres.
  fold cacheData in Hres. fold idsToFetch in Hres.
  destruct (batchLoop _ _ _ _ _ _) as [freshResults|e] eqn:Hloop; [|done].
  injection Hres as <- <-. exists freshResults. split; [done|].
  apply batchLoop_fresh in Hloop as (rest & -> & Hids & Hfresh); [|lia].
  rewrite drop_0 in Hids. by repeat split.
Qed.


(** ** Requests that ignore the cache *)

Lemma workList_nil ids : workList [] ids = ids.
Proof.
  unfold workList. induction ids as [|id ids IH]; [done|].
  rewrite filter_cons, decide_True by apply not_elem_of_nil. by rewrite IH.
Qed.

Lemma resolve_ignoreCache env videoTypes ids cache :
  resolve env videoTypes true ids cache
  = ((resolve env videoTypes true ids ∅).1, cache).
Proof. unfold resolve, cacheRead. by destruct (batchLoop _ _ _ _ _ _). Qed.

Lemma handler_ignoreCache env req cache :
  ignoreCache req = true →
  handler env req cache = ((handler env req ∅).1, cache).
Proof.
  intros Hic. unfold handler.
  destruct (negb _); [done|].
  destruct (collectVideoIds env req) as [[allVideoIds videoTypes]|e]; [|done].
  destruct allVideoIds as [|id ids]; [done|].
  rewrite Hic. apply resolve_ignoreCache.
Qed.

Lemma resolve_ignoreCache_fresh env videoTypes ids cache rs cache' :
  resolve env videoTypes true ids cache = (Results rs, cache') →
  Forall (fun r => fromCache r = false) rs.
Proof.
  intros Hres. apply resolve_Results in Hres as (fresh & _ & _ & Hfresh & -> & _).
  apply Forall_forall. intros r (id & _ & Hr)%list_elem_of_omap.
  apply resultMap_lookup_Some in Hr as [Hin _].
  unfold cacheRead in Hin. cbn in Hin.
  by apply (proj1 (Forall_forall _ _) Hfresh).
Qed.

(** C10: a request with [ignoreCache] set neither reads nor writes the
    cache: the cache after the request is the cache before it, the answer
    is the same whatever the cache holds, and every returned record has
    [fromCache] false. *)
Theorem C10_ignoreCache_leaves_cache_alone (env : Env) (req : Request)
    (cache : gmap string CacheRow) :
  ignoreCache req = true →
  (handler env req cache).2 = cache
  ∧ (∀ other, (handler env req other).1 = (handler env req cache).1)
  ∧ (∀ rs, (handler env req cache).1 = Results rs →
       Forall (fun r => fromCache r = false) rs).
Proof.
  intros Hic. split; [|split].
  - by rewrite handler_ignoreCache.
  - intros other. by rewrite (handler_ignoreCache env req other),
      (handler_ignoreCache env req cache).
  - intros rs. unfold handler.
    destruct (negb _); [done|].
    destruct (collectVideoIds env req) as [[allVideoIds videoTypes]|e]; [|done].
    destruct allVideoIds as [|id ids]; [by intros [= <-]|].
    rewrite Hic. destruct (resolve _ _ _ _ _) as [resp cache'] eqn:Hres.
    cbn. intros ->. by eapply resolve_ignoreCache_fresh.
Qed.

(** ** Cache hits *)

Lemma filter_nil_intro {A} (P : A → Prop) `{!∀ x, Decision (P x)} (l : list A) :
  (∀ x, x ∈ l → ¬ P x) → filter P l = [].
Proof.
  intros Hall. apply elem_of_nil_inv. intros x [HP Hx]%list_elem_of_filter.
  by apply (Hall x).
Qed.

Lemma cacheSelect_key cache ids cacheExpiry k :
  k ∈ fst <$> cacheSelect cache ids cacheExpiry
  ↔ k ∈ ids ∧ ∃ row, cache !! k = Some row ∧ cacheExpiry < cached_at row.
Proof.
  rewrite list_elem_of_fmap. split.
  - intros ([k' d] & -> & Hin). apply cacheSelect_elem in Hin as (Hk & row & ? & ? & _).
    eauto.
  - intros (Hk & row & Hrow & Hfresh). exists (k, data row). split; [done|].
    apply cacheSelect_elem. eauto.
Qed.

Lemma workList_elem cacheData ids id :
  id ∈ workList cacheData ids ↔ id ∈ ids ∧ id ∉ (fst <$> cacheData).
Proof. unfold workList. rewrite list_elem_of_filter. tauto. Qed.

Lemma resultMap_cached_only cached fresh id :
  (∀ r, r ∈ fresh → idOf r ≠ id) →
  resultMapOf (cached ++ fresh) !! id = resultMapOf cached !! id.
Proof.
  intros Hnone. rewrite !resultMap_lookup, filter_app.
  rewrite (filter_nil_intro (fun r => idOf r = id) fresh) by done.
  by rewrite app_nil_r.
Qed.

Lemma resultMap_fresh_wins cached fresh id r0 :
  r0 ∈ fresh → idOf r0 = id →
  ∃ r, resultMapOf (cached ++ fresh) !! id = Some r ∧ r ∈ fresh ∧ idOf r = id
       ∧ resultMapOf fresh !! id = Some r.
Proof.
  intros Hin Hid. rewrite !resultMap_lookup, filter_app, last_app.
  destruct (last (filter (fun r => idOf r = id) fresh)) as [r|] eqn:Hlast.
  - exists r. apply (last_filter_Some (fun r => idOf r = id)) in Hlast as [? ?].
    by repeat split.
  - pose proof (proj1 (last_filter_None (fun r => idOf r = id) fresh) Hlast) as Hn.
    by destruct (Hn r0 Hin).
Qed.

Lemma resultMap_unique allResults id rec :
  rec ∈ allResults → idOf rec = id →
  (∀ r, r ∈ allResults → idOf r = id → r = rec) →
  resultMapOf allResults !! id = Some rec.
Proof.
  intros Hin Hid Huniq. rewrite resultMap_lookup.
  destruct (last (filter (fun r => idOf r = id) allResults)) as [r|] eqn:Hlast.
  - apply (last_filter_Some (fun r => idOf r = id)) in Hlast as [Hr Hrid].
    f_equal. by apply Huniq.
  - pose proof (proj1 (last_filter_None (fun r => idOf r = id) allResults) Hlast) as Hn.
    by destruct (Hn rec Hin).
Qed.

Lemma cached_lookup cache ids cacheExpiry fresh id row :
  selectedWellKeyed cache ids cacheExpiry →
  id ∈ ids → cache !! id = Some row → cacheExpiry < cached_at row →
  (∀ r, r ∈ fresh → idOf r ≠ id) →
  resultMapOf ((cachedRecord <$> cacheSelect cache ids cacheExpiry) ++ fresh) !! id
  = Some {| fields := data row; fromCache := true |}.
Proof.
  intros Hwk Hid Hrow Hfresh Hnone. rewrite resultMap_cached_only by done.
  apply resultMap_unique.
  - apply list_elem_of_fmap. exists (id, data row). split; [done|].
    apply cacheSelect_elem. eauto.
  - cbn. by apply (Hwk id row).
  - intros r ([k d] & -> & Hin)%list_elem_of_fmap Hk. cbn in Hk.
    apply cacheSelect_elem in Hin as (Hkin & row' & Hrow' & Hfresh' & ->).
    assert (k = id) as -> by (rewrite <- Hk; symmetry; by apply (Hwk k row')).
    cbn. by simplify_eq.
Qed.

(** C6: when the cache is consulted, the row of a requested video is read
    as a hit exactly when its [cached_at] is strictly later than 24 hours
    before the request time, and the video is put on the work list exactly
    when it is not; a row exactly 24 hours old is not a hit and its video is
    fetched again.  In the results, a hit is served as the cached data with
    [fromCache] true, and a video that is not a hit gets a fresh record. *)
Theorem C6_cache_hit_iff_strictly_fresher_than_24h
    (env : Env) (videoTypes : gmap string ContentType) (ids : list string)
    (cache : gmap string CacheRow) (id : string) (row : CacheRow) :
  wellKeyed cache →
  cache !! id = Some row →
  id ∈ ids →
  let cacheExpiry := dateNow env - 24 * 60 * 60 * 1000 in
  let cacheData := cacheRead env false ids cache in
  ((id, data row) ∈ cacheData ↔ cacheExpiry < cached_at row)
  ∧ (id ∈ workList cacheData ids ↔ cached_at row <= cacheExpiry)
  ∧ (cached_at row = cacheExpiry →
     ((id, data row) ∉ cacheData) ∧ id ∈ workList cacheData ids)
  ∧ (∀ rs cache',
       resolve env videoTypes false ids cache = (Results rs, cache') →
       (cacheExpiry < cached_at row →
        {| fields := data row; fromCache := true |} ∈ rs
        ∧ ∀ r, r ∈ rs → videoId (fields r) = id →
               r = {| fields := data row; fromCache := true |})
       ∧ (cached_at row <= cacheExpiry →
          (∃ r, r ∈ rs ∧ videoId (fields r) = id)
          ∧ ∀ r, r ∈ rs → videoId (fields r) = id → fromCache r = false)).
Proof.
  intros Hwk Hrow Hid cacheExpiry cacheData.
  assert (cacheData = cacheSelect cache ids cacheExpiry) as HcacheData by done.
  assert ((id, data row) ∈ cacheData ↔ cacheExpiry < cached_at row) as Hhit.
  { rewrite HcacheData, cacheSelect_elem. split.
    - intros (_ & row' & Hrow' & Hfresh & _). by simplify_eq.
    - intros Hfresh. eauto. }
  assert (id ∈ workList cacheData ids ↔ cached_at row <= cacheExpiry) as Hwork.
  { rewrite workList_elem, HcacheData, cacheSelect_key. split.
    - intros [_ Hnot]. destruct (decide (cacheExpiry < cached_at row)); [|lia].
      destruct Hnot. eauto.
    - intros Hstale. split; [done|]. intros (_ & row' & Hrow' & Hfresh).
      simplify_eq. lia. }
  split; [exact Hhit|]. split; [exact Hwork|]. split.
  { intros Heq. split; [rewrite Hhit; lia | apply Hwork; lia]. }
  intros rs cache' Hres.
  apply resolve_Results in Hres as (fresh & _ & Hids & Hfresh & -> & _).
  fold cacheData in Hids |- *. split.
  - intros Hnew.
    assert (∀ r, r ∈ fresh → idOf r ≠ id) as Hnone.
    { intros r Hr Hrid. assert (id ∈ workList cacheData ids) as Hin.
      { rewrite <- Hids, <- Hrid. by apply (list_elem_of_fmap_2 idOf). }
      apply Hwork in Hin. lia. }
    assert (resultMapOf ((cachedRecord <$> cacheData) ++ fresh) !! id
            = Some {| fields := data row; fromCache := true |}) as Hlook.
    { rewrite HcacheData. apply cached_lookup; try done.
      intros k row' _ Hk _. by apply Hwk. }
    split.
    + apply list_elem_of_omap. by exists id.
    + intros r (k & Hk & Hr)%list_elem_of_omap Hrid.
      pose proof (resultMap_lookup_Some _ _ _ Hr) as [_ Hkid]. cbn in Hkid.
      assert (k = id) as -> by congruence. congruence.
  - intros Hstale. apply Hwork in Hstale. rewrite <- Hids in Hstale.
    apply list_elem_of_fmap in Hstale as (r0 & Hr0id & Hr0).
    destruct (resultMap_fresh_wins (cachedRecord <$> cacheData) fresh id r0 Hr0
                (eq_sym Hr0id)) as (r1 & Hlook & Hr1 & Hr1id & _).
    split.
    + exists r1. split; [|done]. apply list_elem_of_omap. by exists id.
    + intros r (k & Hk & Hr)%list_elem_of_omap Hrid.
      pose proof (resultMap_lookup_Some _ _ _ Hr) as [_ Hkid]. cbn in Hkid.
      assert (k = id) as -> by congruence.
      assert (r = r1) as -> by congruence.
      by apply (proj1 (Forall_forall _ _) Hfresh).
Qed.

(** ** Cache writes *)

Lemma last_filter_filter {A} (P Q : A → Prop)
    `{!∀ x, Decision (P x)} `{!∀ x, Decision (Q x)} (l : list A) x :
  last (filter P l) = Some x → Q x → last (filter P (filter Q l)) = Some x.
Proof.
  induction l as [|y l IH] using rev_ind; [done|].
  rewrite !filter_app, !filter_cons, !filter_nil.
  destruct (decide (Q y)) as [HQy|HQy]; rewrite ?filter_cons, ?filter_nil;
    destruct (decide (P y)) as [HPy|HPy]; rewrite ?app_nil_r, ?last_snoc.
  - by intros [= ->].
  - apply IH.
  - by intros [= ->].
  - apply IH.
Qed.

Lemma payload_last env (defs : list VideoRecord) k :
  ∃ j, last (filter (fun kv : string * CacheRow => kv.1 = k) (imap (rowOf env) defs))
       = rowOf env j <$> last (filter (fun r => idOf r = k) defs).
Proof.
  induction defs as [|x defs IH] using rev_ind; [by exists O|].
  rewrite imap_app, !filter_app. cbn [imap]. rewrite !filter_cons, !filter_nil.
  cbn [fst]. destruct (decide (idOf x = k)) as [Hk|Hk].
  - rewrite !last_snoc. by eexists.
  - by rewrite !app_nil_r.
Qed.

Lemma upsert_lookup env cache freshResults k :
  ∃ j, upsert cache (cachePayloadOf env freshResults) !! k
       = match last (filter (fun r => idOf r = k)
                       (filter (fun r => definitive (status (fields r)) = true)
                          freshResults)) with
         | Some r => Some {| data := fields r; cached_at := cachedAtStamp env j |}
         | None => cache !! k
         end.
Proof.
  unfold upsert, cachePayloadOf.
  rewrite (foldl_insert_lookup fst snd).
  destruct (payload_last env
              (filter (fun r => definitive (status (fields r)) = true) freshResults) k)
    as [j ->].
  exists j. by destruct (last _).
Qed.

(** What a run of the resolver leaves in the cache. *)
Lemma resolve_cache_after
    (env : Env) (videoTypes : gmap string ContentType) (ignoreCache : bool)
    (ids : list string) (cache cache' : gmap string CacheRow) (response : Response) :
  resolve env videoTypes ignoreCache ids cache = (response, cache') →
  (∀ k row, cache' !! k = Some row →
     cache !! k = Some row
     ∨ (definitive (status (data row)) = true ∧ videoId (data row) = k
        ∧ ∃ j, cached_at row = cachedAtStamp env j))
  ∧ (ignoreCache = false → ∀ rs, response = Results rs →
     ∀ r, r ∈ rs → fromCache r = false → definitive (status (fields r)) = true →
       ∃ j, cache' !! videoId (fields r)
            = Some {| data := fields r; cached_at := cachedAtStamp env j |}).
Proof.
  intros Hres. destruct response as [rs|code e].
  2:{ assert (cache' = cache) as ->.
      { unfold resolve in Hres. by destruct (batchLoop _ _ _ _ _ _); simplify_eq. }
      split; [by left | done]. }
  apply resolve_Results in Hres as (fresh & _ & Hids & Hfresh & Hrs & Hcache).
  split.
  - destruct ignoreCache; [subst cache'; by left|].
    intros k row Hrow. subst cache'.
    destruct (upsert_lookup env cache fresh k) as [j Hlook].
    rewrite Hrow in Hlook.
    destruct (last _) as [r|] eqn:Hlast; [|by left]. right.
    apply (last_filter_Some (fun r => idOf r = k)) in Hlast as [Hin Hk].
    apply list_elem_of_filter in Hin as [Hdef _].
    injection Hlook as ->. cbn. eauto.
  - intros -> rs' [= <-] r Hr Hfc Hdef. subst cache'.
    rewrite Hrs in Hr. apply list_elem_of_omap in Hr as (k & Hk & Hr).
    pose proof Hr as Hr'. apply resultMap_lookup_Some in Hr' as [Hin Hrid].
    cbn in Hrid. apply elem_of_app in Hin as [Hin|Hin].
    { apply list_elem_of_fmap in Hin as (item & -> & _). done. }
    destruct (resultMap_fresh_wins
                (cachedRecord <$> cacheRead env false ids cache) fresh k r Hin Hrid)
      as (r1 & Hlook & _ & _ & Hlast).
    assert (r1 = r) as -> by congruence.
    rewrite resultMap_lookup in Hlast.
    destruct (upsert_lookup env cache fresh k) as [j Hup].
    rewrite (last_filter_filter _ (fun r => definitive (status (fields r)) = true)
               _ _ Hlast Hdef) in Hup.
    exists j. by rewrite Hrid.
Qed.


(** ** Resolving twice *)

Lemma omap_total {A B} (f : A → option B) (l : list A) :
  (∀ x, x ∈ l → is_Some (f x)) →
  length (omap f l) = length l ∧ ∀ i, omap f l !! i = l !! i ≫= f.
Proof.
  induction l as [|x l IH]; intros Hall; [done|].
  destruct (Hall x) as [y Hy]; [by left|].
  destruct IH as [Hlen Hlook]; [intros z Hz; apply Hall; by right|].
  cbn [omap list_omap]. rewrite Hy. split; [cbn; by rewrite Hlen|].
  intros [|i]; [done|]. apply Hlook.
Qed.



(** ** The order of the results *)

Lemma JsSet_addAll_prefix s xs : ∃ tail, JsSet.addAll s xs = s ++ tail.
Proof.
  unfold JsSet.addAll. revert s. induction xs as [|x xs IH]; intros s; cbn [foldl].
  - exists []. by rewrite app_nil_r.
  - destruct (IH (JsSet.add s x)) as [tail ->]. unfold JsSet.add.
    destruct (decide (x ∈ s)); [by exists tail|].
    exists ([x] ++ tail). by rewrite app_assoc.
Qed.

Lemma JsSet_addAll_distinct s xs : NoDup (s ++ xs) → JsSet.addAll s xs = s ++ xs.
Proof.
  unfold JsSet.addAll. revert s. induction xs as [|x xs IH]; intros s Hnd; cbn [foldl].
  - by rewrite app_nil_r.
  - assert (x ∉ s) as Hx.
    { apply NoDup_app in Hnd as (_ & Hdisj & _). intros Hin.
      apply (Hdisj x Hin). by left. }
    unfold JsSet.add. rewrite decide_False by done.
    rewrite IH; [by rewrite <- app_assoc|]. by rewrite <- app_assoc.
Qed.

(** Ids given once each come first in the union with the ids of a channel,
    in the order they were given. *)
Lemma JsSet_ofList_explicit_first explicit discovered :
  NoDup explicit →
  ∃ tail, JsSet.ofList (explicit ++ discovered) = explicit ++ tail.
Proof.
  intros Hnd. unfold JsSet.ofList, JsSet.addAll. rewrite foldl_app.
  fold (JsSet.addAll [] explicit). rewrite (JsSet_addAll_distinct [] explicit Hnd).
  apply JsSet_addAll_prefix.
Qed.

Lemma omap_keyed_sublist (m : gmap string VideoRecord) (ids : list string) :
  (∀ id r, m !! id = Some r → idOf r = id) →
  sublist (idOf <$> omap (fun id => m !! id) ids) ids.
Proof.
  intros Hkey. induction ids as [|id ids IH]; [done|]. cbn [omap list_omap].
  destruct (m !! id) as [r|] eqn:Hr.
  - cbn. rewrite (Hkey id r Hr). by apply sublist_skip.
  - by apply sublist_cons.
Qed.

(** The results follow the list of ids that was resolved: the ids of the
    results are the resolved ids that have a record, in their order. *)
Lemma resolve_results_in_order env videoTypes ignoreCache ids cache rs cache' :
  resolve env videoTypes ignoreCache ids cache = (Results rs, cache') →
  sublist (idOf <$> rs) ids.
Proof.
  intros Hres. apply resolve_Results in Hres as (fresh & _ & _ & _ & -> & _).
  apply omap_keyed_sublist. intros id r Hr.
  by apply resultMap_lookup_Some in Hr as [_ Hid].
Qed.

(** With a channel, the list of ids to resolve has every id once. *)
Lemma collectVideoIds_channel_NoDup env req allVideoIds videoTypes :
  Str.truthy (default "" (channelUrl req)) = true →
  collectVideoIds env req = inl (allVideoIds, videoTypes) →
  NoDup allVideoIds.
Proof.
  unfold collectVideoIds. intros ->.
  destruct (match getChannelVideosWithApi env _ with inl _ => _ | inr _ => _ end)
    as [result|e]; [|done].
  intros [= <- _]. apply JsSet_addAll_NoDup, NoDup_nil_2.
Qed.

(** C4: the code at the failing input.  A request that gives the same id
    twice and no channel is answered with the record of that id twice: the
    ids of a request without channel are not passed through a [Set]. *)
Theorem C4_duplicate_explicit_id_returned_twice :
  ∃ r,
    (handler sampleEnv
       {| videoIds := Some ["dQw4w9WgXcQ"; "dQw4w9WgXcQ"]; channelUrl := None;
          ignoreCache := false |} ∅).1 = Results [r; r]
    ∧ videoId (fields r) = "dQw4w9WgXcQ".
Proof. eexists. split; by vm_compute. Qed.

(** With a channel in the request the same two ids are resolved once. *)
Example duplicate_explicit_id_with_channel :
  (fun r => videoId (fields r)) <$>
    match (handler sampleEnv
             {| videoIds := Some ["dQw4w9WgXcQ"; "dQw4w9WgXcQ"];
                channelUrl := Some "@example"; ignoreCache := false |} ∅).1 with
    | Results rs => rs
    | Failure _ _ => []
    end
  = ["dQw4w9WgXcQ"; "9bZkp7q19f0"].
Proof. by vm_compute. Qed.

(** ** The claims at concrete inputs *)

Lemma C7_witness_private_page :
  let page := fetchWatchPage sampleEnv (0 + 0) "9bZkp7q19f0" in
  let foundPrivate := ∃ html, page = Some html ∧ containsIgnoringCase html "private" in
  ∃ records r,
    processBatch sampleEnv ∅ 0 ["9bZkp7q19f0"] = inl records
    ∧ records !! O = Some r
    ∧ videoId (fields r) = "9bZkp7q19f0"
    ∧ status (fields r) = checkMissingVideoStatusViaScraping page
    ∧ (foundPrivate →
       status (fields r) = "private" ∧ title (fields r) = "Private Video")
    ∧ (¬ foundPrivate →
       status (fields r) = "deleted" ∧ title (fields r) = "Video Not Found")
    ∧ thumbnail (fields r) = null
    ∧ publishedAt (fields r) = null
    ∧ duration (fields r) = null
    ∧ fromCache r = false.
Proof.
  apply (C7_missing_video_record sampleEnv ∅ 0 ["9bZkp7q19f0"]
           [sampleItem "dQw4w9WgXcQ" (Some "public") (Some "PT3M33S");
            sampleItem "kJQP7kiw5Fk" None (Some "PT4M42S")] 0 "9bZkp7q19f0").
  - reflexivity.
  - reflexivity.
  - intros item Hin. rewrite !elem_of_cons, elem_of_nil in Hin.
    destruct Hin as [-> | [-> | []]]; vm_compute; discriminate.
Defined.

Lemma C2_witness_public_status :
  ∃ records r,
    processBatch sampleEnv ∅ 0 ["dQw4w9WgXcQ"] = inl records
    ∧ records !! O = Some r
    ∧ videoId (fields r) = "dQw4w9WgXcQ"
    ∧ fromCache r = false
    ∧ (∀ s, Some "public" = Some s → s ≠ "" → status (fields r) = s)
    ∧ (Some "public" = None ∨ Some "public" = Some "" →
       status (fields r) = "unknown")
    ∧ (∀ s, Some "public" = Some s →
         s ∈ ["public"; "unlisted"; "private"] →
         status (fields r) ∈ ["public"; "unlisted"; "private"]).
Proof.
  apply (C2_status_of_answered_video sampleEnv ∅ 0 ["dQw4w9WgXcQ"]
           [sampleItem "dQw4w9WgXcQ" (Some "public") (Some "PT3M33S");
            sampleItem "kJQP7kiw5Fk" None (Some "PT4M42S")] 0 "dQw4w9WgXcQ"
           (sampleItem "dQw4w9WgXcQ" (Some "public") (Some "PT3M33S")));
    reflexivity.
Defined.

(** The claim as written fails: the batch answer below contains the
    requested video, without a privacy status, and the record carries the
    status "unknown", which is none of the five. *)
Lemma C2_counterexample_status_unknown :
  let items := [sampleItem "dQw4w9WgXcQ" (Some "public") (Some "PT3M33S");
                sampleItem "kJQP7kiw5Fk" None (Some "PT4M42S")] in
  ∃ r,
    fetchVideos sampleEnv 0 ["kJQP7kiw5Fk"] = inl items
    ∧ answerFor items "kJQP7kiw5Fk" = Some (sampleItem "kJQP7kiw5Fk" None (Some "PT4M42S"))
    ∧ processBatch sampleEnv ∅ 0 ["kJQP7kiw5Fk"] = inl [r]
    ∧ status (fields r) = "unknown"
    ∧ status (fields r) ∉ ["public"; "unlisted"; "private"; "deleted"; "checking"].
Proof.
  cbv zeta. eexists. split; [reflexivity|]. split; [reflexivity|].
  split; [by vm_compute|]. split; [reflexivity|].
  cbn. rewrite !elem_of_cons, elem_of_nil. intros [H|[H|[H|[H|[H|[]]]]]]; discriminate.
Qed.

Lemma C10_witness_ignoreCache :
  let req := {| videoIds := Some ["dQw4w9WgXcQ"]; channelUrl := None;
                ignoreCache := true |} in
  (handler sampleEnv req dayOldCache).2 = dayOldCache
  ∧ (∀ other, (handler sampleEnv req other).1 = (handler sampleEnv req dayOldCache).1)
  ∧ (∀ rs, (handler sampleEnv req dayOldCache).1 = Results rs →
       Forall (fun r => fromCache r = false) rs).
Proof.
  apply (C10_ignoreCache_leaves_cache_alone sampleEnv
           {| videoIds := Some ["dQw4w9WgXcQ"]; channelUrl := None;
              ignoreCache := true |} dayOldCache).
  reflexivity.
Defined.

Lemma dayOldCache_wellKeyed : wellKeyed dayOldCache.
Proof.
  unfold wellKeyed, dayOldCache. intros k row Hrow.
  apply lookup_singleton_Some in Hrow as [<- <-]. reflexivity.
Defined.

Lemma C6_witness_exactly_24_hours :
  let id := "dQw4w9WgXcQ" in
  let row := {| data := {| videoId := "dQw4w9WgXcQ"; title := "A title";
                           status := "public"; thumbnail := absent;
                           publishedAt := absent; contentType := video;
                           duration := text "PT3M33S" |};
                cached_at := 1700000000000 - 86400000 |} in
  let cacheExpiry := dateNow sampleEnv - 24 * 60 * 60 * 1000 in
  cached_at row = cacheExpiry
  ∧ ((id, data row) ∉ cacheRead sampleEnv false [id] dayOldCache)
  ∧ id ∈ workList (cacheRead sampleEnv false [id] dayOldCache) [id].
Proof.
  cbv zeta. split; [reflexivity|].
  apply (C6_cache_hit_iff_strictly_fresher_than_24h sampleEnv ∅ ["dQw4w9WgXcQ"]
           dayOldCache "dQw4w9WgXcQ" _ dayOldCache_wellKeyed).
  - reflexivity.
  - apply (bool_decide_unpack _). vm_compute. exact I.
  - reflexivity.
Defined.





(** * Further properties of the code *)

(** ** Ids found in a page *)

Lemma dropLiteral_Some lit s rest :
  Extract.dropLiteral lit s = Some rest ↔ s = lit +:+ rest.
Proof.
  revert s. induction lit as [|a lit IH]; intros s.
  - rewrite app_empty. destruct s; cbn; split; congruence.
  - destruct s as [|b s]; cbn; [split; discriminate|].
    destruct (decide (a = b)) as [->|Hne].
    + rewrite IH, app_String. split; [by intros -> | by intros [= ->]].
    + split; [discriminate|]. rewrite app_String. intros [= ? _]. done.
Qed.

Lemma takeExactly_Some p n s cs rest :
  Extract.takeExactly p n s = Some (cs, rest) →
  s = cs +:+ rest ∧ String.length cs = n
  ∧ forallb p (list_ascii_of_string cs) = true.
Proof.
  revert s cs. induction n as [|n IH]; intros s cs; cbn.
  - by intros [= <- <-].
  - destruct s as [|c s]; [discriminate|].
    destruct (p c) eqn:Hc; [|discriminate].
    destruct (Extract.takeExactly p n s) as [[cs' rest']|] eqn:Htake; [|discriminate].
    intros [= <- <-]. apply IH in Htake as (-> & <- & Hall).
    cbn. by rewrite Hc, Hall.
Qed.

Lemma execAll_elem {A} (matchAt : string → option (A * nat)) skip index s i a :
  (i, a) ∈ Extract.execAll matchAt skip index s →
  ∃ pre s' len, s = pre +:+ s' ∧ matchAt s' = Some (a, len)
                ∧ i = (index + String.length pre)%nat.
Proof.
  revert skip index. induction s as [|c s IH]; intros skip index; cbn.
  - by intros ?%elem_of_nil.
  - assert (∀ skip',
             (i, a) ∈ Extract.execAll matchAt skip' (S index) s →
             ∃ pre s' len, String c s = pre +:+ s' ∧ matchAt s' = Some (a, len)
                           ∧ i = (index + String.length pre)%nat) as Hlater.
    { intros skip' Hin. apply IH in Hin as (pre & s' & len & -> & Hm & ->).
      exists (String c pre), s', len. cbn. split; [done|]. split; [done | lia]. }
    destruct skip as [|skip]; [|apply Hlater].
    destruct (matchAt (String c s)) as [[capture len]|] eqn:Hm; [|apply Hlater].
    intros [[= -> ->] | Hin]%elem_of_cons; [|by eapply Hlater].
    exists "", (String c s), len. cbn. split; [done|]. split; [done | lia].
Qed.

Lemma idAt_Some prefix suffix s id len :
  Extract.idAt prefix suffix s = Some (id, len) →
  wellFormedId id ∧ ∃ rest, s = prefix +:+ id +:+ suffix +:+ rest.
Proof.
  unfold Extract.idAt.
  destruct (Extract.dropLiteral prefix s) as [rest|] eqn:Hdrop; [|discriminate].
  destruct (Extract.takeExactly Extract.isIdChar 11 rest) as [[id' rest']|] eqn:Htake;
    [|discriminate].
  destruct (Str.startsWith rest' suffix) eqn:Hsuffix; [|discriminate].
  intros [= <- _]. apply dropLiteral_Some in Hdrop as ->.
  apply takeExactly_Some in Htake as (-> & Hlen & Hall).
  apply startsWith_spec in Hsuffix as [post ->]. split.
  - split; [done|]. unfold Extract.allIdChars. rewrite Hall.
    by destruct id'.
  - by exists post.
Qed.

Lemma occursIn_suffix part pre s : occursIn part s → occursIn part (pre +:+ s).
Proof.
  intros (p & q & ->). exists (pre +:+ p), q. by rewrite app_assoc_string.
Qed.

Lemma idMatches_wellFormed prefix suffix html i id :
  (i, id) ∈ Extract.execAll (Extract.idAt prefix suffix) O O html →
  wellFormedId id ∧ occursIn id html.
Proof.
  intros (pre & s' & len & -> & Hm & _)%execAll_elem.
  apply idAt_Some in Hm as [Hwf [rest ->]]. split; [done|].
  apply occursIn_suffix. by exists prefix, (suffix +:+ rest).
Qed.

Lemma foldl_addAll_elem {P} (f : P → list string) (ps : list P) init x :
  x ∈ foldl (fun acc p => JsSet.addAll acc (f p)) init ps
  ↔ x ∈ init ∨ ∃ p, p ∈ ps ∧ x ∈ f p.
Proof.
  revert init. induction ps as [|p ps IH]; intros init; cbn [foldl].
  - split; [by left | intros [?|(p & ?%elem_of_nil & _)]; done].
  - rewrite IH, JsSet_addAll_elem. split.
    + intros [[?|?] | (q & Hq & Hx)]; [by left | right | right].
      * exists p. split; [by left | done].
      * exists q. split; [by right | done].
    + intros [? | (q & [->|Hq]%elem_of_cons & Hx)]; [by left; left | by left; right |].
      right. by exists q.
Qed.

Lemma foldl_addAll_NoDup {P} (f : P → list string) (ps : list P) init :
  NoDup init → NoDup (foldl (fun acc p => JsSet.addAll acc (f p)) init ps).
Proof.
  revert init. induction ps as [|p ps IH]; intros init Hnd; [done|].
  cbn [foldl]. by apply IH, JsSet_addAll_NoDup.
Qed.

Lemma extractVideoIds_elem html id :
  id ∈ Extract.extractVideoIds html → wellFormedId id ∧ occursIn id html.
Proof.
  unfold Extract.extractVideoIds. intros [Hin|Hin]%JsSet_addAll_elem.
  - apply (foldl_addAll_elem
             (fun pattern : string * string =>
                snd <$> Extract.execAll (Extract.idAt pattern.1 pattern.2) O O html))
      in Hin as [Hin%elem_of_nil | (pattern & _ & Hin)]; [done|].
    apply list_elem_of_fmap in Hin as ([i id'] & -> & Hin).
    by eapply idMatches_wellFormed.
  - apply list_elem_of_fmap in Hin as ([i id'] & -> & Hin).
    apply list_elem_of_filter in Hin as [_ Hin]. by eapply idMatches_wellFormed.
Qed.

(** X1: the ids that [extractVideoIds] finds in a page are distinct, each has
    eleven id characters, and each is a piece of the page. *)
Theorem extractVideoIds_wellFormed html :
  NoDup (Extract.extractVideoIds html)
  ∧ ∀ id, id ∈ Extract.extractVideoIds html → wellFormedId id ∧ occursIn id html.
Proof.
  split.
  - unfold Extract.extractVideoIds.
    apply JsSet_addAll_NoDup, foldl_addAll_NoDup, NoDup_nil_2.
  - intros id Hid. by apply extractVideoIds_elem.
Qed.

(** recall *)
Lemma execAll_finds {A} (matchAt : string → option (A * nat)) index pre s a len :
  matchAt s = Some (a, len) → s ≠ "" →
  Extract.execAll matchAt O index (pre +:+ s) ≠ [].
Proof.
  intros Hm Hne. revert index. induction pre as [|c pre IH]; intros index.
  - rewrite app_empty. destruct s as [|c s]; [done|]. cbn. by rewrite Hm.
  - rewrite app_String. cbn.
    destruct (matchAt (String c (pre +:+ s))) as [[a' len']|]; [done|]. apply IH.
Qed.

Lemma takeExactly_app p n cs rest :
  String.length cs = n → forallb p (list_ascii_of_string cs) = true →
  Extract.takeExactly p n (cs +:+ rest) = Some (cs, rest).
Proof.
  revert n. induction cs as [|c cs IH]; intros n Hlen Hall; cbn in Hlen; subst n.
  - done.
  - cbn in Hall. apply andb_true_iff in Hall as [Hc Hall]. rewrite app_String. cbn.
    by rewrite Hc, (IH _ eq_refl Hall).
Qed.

(** X2: a page that holds a watch link with a well-formed id gives at least
    one id. *)
Theorem extractVideoIds_finds_watch_link html pre id post :
  wellFormedId id →
  html = pre +:+ "watch?v=" +:+ id +:+ post →
  Extract.extractVideoIds html ≠ [].
Proof.
  intros [Hlen Hchars] ->.
  assert (∃ id', id' ∈ snd <$> Extract.execAll (Extract.idAt "watch?v=" "") O O
                   (pre +:+ "watch?v=" +:+ id +:+ post)) as [id' Hid'].
  { assert (Extract.idAt "watch?v=" "" ("watch?v=" +:+ id +:+ post)
            = Some (id, 19%nat)) as Hm.
    { unfold Extract.idAt.
      rewrite (proj2 (dropLiteral_Some "watch?v=" _ (id +:+ post)) eq_refl).
      unfold Extract.allIdChars in Hchars. apply andb_true_iff in Hchars as [_ Hall].
      rewrite (takeExactly_app _ _ _ _ Hlen Hall). by destruct post. }
    pose proof (execAll_finds _ O pre _ _ _ Hm) as Hne.
    destruct (Extract.execAll _ O O _) as [|[i x] l]; [by destruct Hne|].
    exists x. cbn. by left. }
  intros Hempty.
  assert (id' ∈ Extract.extractVideoIds (pre +:+ "watch?v=" +:+ id +:+ post)) as Hin.
  { unfold Extract.extractVideoIds. apply JsSet_addAll_elem. left.
    apply (foldl_addAll_elem
             (fun pattern : string * string =>
                snd <$> Extract.execAll (Extract.idAt pattern.1 pattern.2) O O _)).
    right. exists ("watch?v=", ""). split; [|done].
    unfold Extract.idPatterns. do 4 right. left. }
  rewrite Hempty in Hin. by apply elem_of_nil in Hin.
Qed.

(** ** Continuation tokens *)

Lemma span_app p s cs rest : Extract.span p s = (cs, rest) → s = cs +:+ rest.
Proof.
  revert cs rest. induction s as [|c s IH]; intros cs rest; cbn.
  - by intros [= <- <-].
  - destruct (p c).
    + destruct (Extract.span p s) as [cs' rest'] eqn:Hspan. intros [= <- <-].
      by rewrite app_String, <- (IH _ _ eq_refl).
    + by intros [= <- <-].
Qed.

Lemma runAt_Some prefix stop closing s capture len :
  Extract.runAt prefix stop closing s = Some (capture, len) → occursIn capture s.
Proof.
  unfold Extract.runAt.
  destruct (Extract.dropLiteral prefix s) as [rest|] eqn:Hdrop; [|discriminate].
  apply dropLiteral_Some in Hdrop as ->.
  destruct (Extract.span _ rest) as [[|c cs] rest'] eqn:Hspan; [discriminate|].
  apply span_app in Hspan as ->.
  assert (occursIn (String c cs) (prefix +:+ String c cs +:+ rest')) as Hocc
    by by exists prefix, rest'.
  destruct closing; [destruct (Str.startsWith rest' Extract.dq)|];
    by intros [= <- _].
Qed.








(** ** The page fetchers *)

Lemma extractVideoIds_Forall html : Forall wellFormedId (Extract.extractVideoIds html).
Proof.
  apply Forall_forall. intros id Hid.
  by apply extractVideoIds_elem in Hid as [? _].
Qed.

Section NetFacts.

Context (World : Type).
Context (fetch : Net.FetchRequest → World → (Net.FetchResponse + string) * World).

Local Abbreviation tryStrategy := (Net.tryStrategy World fetch).
Local Abbreviation tryStrategies := (Net.tryStrategies World fetch).
Local Abbreviation fetchPageWithMultipleStrategies :=
  (Net.fetchPageWithMultipleStrategies World fetch).
Local Abbreviation tryAlternativeContinuation :=
  (Net.tryAlternativeContinuation World fetch).
Local Abbreviation scrapePageContent := (Net.scrapePageContent World fetch).

Lemma tryStrategy_total baseUrl url w :
  ∃ found w', tryStrategy baseUrl url w = (inl found, w')
    ∧ ∀ ids next, found = Some (ids, next) → ids ≠ [] ∧ Forall wellFormedId ids.
Proof.
  unfold Net.tryStrategy, Net.tryCatch, Net.bind, Net.textOf, Net.ret.
  destruct (fetch _ w) as [[response|e] w1]; [|by eexists _, _].
  destruct (Net.resp_ok response); [|by eexists _, _].
  destruct (Net.resp_text response) as [data|e]; [|by eexists _, _].
  pose proof (extractVideoIds_Forall data) as Hwf.
  destruct (Extract.extractVideoIds data) as [|id ids]; [by eexists _, _|].
  eexists _, _. split; [done|]. by intros ids' next [= <- _].
Qed.

Lemma tryStrategies_total baseUrl urls w :
  ∃ ids next w', tryStrategies baseUrl urls w = (inl (ids, next), w')
    ∧ (ids = [] → next = None) ∧ Forall wellFormedId ids.
Proof.
  revert w. induction urls as [|url urls IH]; intros w; cbn [Net.tryStrategies].
  - by eexists _, _, _.
  - unfold Net.bind.
    destruct (tryStrategy_total baseUrl url w) as (found & w1 & -> & Hfound).
    destruct found as [[ids next]|]; [|apply IH].
    destruct (Hfound ids next eq_refl) as [Hne Hwf].
    by eexists _, _, _.
Qed.

Lemma tryAlternativeContinuation_total baseUrl token contentType w :
  ∃ ids w', tryAlternativeContinuation baseUrl token contentType w = (inl ids, w')
    ∧ Forall wellFormedId ids.
Proof.
  unfold Net.tryAlternativeContinuation, Net.tryCatch, Net.bind, Net.textOf, Net.ret.
  destruct (fetch _ w) as [[response|e] w1]; [|by eexists _, _].
  destruct (Net.resp_ok response); [|by eexists _, _].
  destruct (Net.resp_text response) as [data|e]; [|by eexists _, _].
  eexists _, _. split; [done|]. apply Forall_forall.
  intros id [?%elem_of_nil|Hid]%JsSet_addAll_elem; [done|].
  by apply extractVideoIds_elem in Hid as [? _].
Qed.

Lemma scrapePageContent_wellFormed url contentType w :
  Forall wellFormedId (scrapePageContent url contentType w).1.
Proof.
  unfold Net.scrapePageContent, Net.bind, Net.textOf, Net.ret.
  destruct (fetch _ w) as [[response|e] w1]; [|done].
  destruct (Net.resp_ok response); cbn [negb].
  - destruct (Net.resp_text response) as [html|e]; [apply extractVideoIds_Forall | done].
  - destruct (Str.includes url "/@"); [|done].
    destruct (fetch _ w1) as [[fallback|e] w2]; [|done].
    destruct (Net.resp_ok fallback); cbn [negb]; [|done].
    destruct (Net.resp_text fallback) as [html|e]; [apply extractVideoIds_Forall | done].
Qed.

(** X4: [fetchPageWithMultipleStrategies] and [tryAlternativeContinuation]
    return whatever the network does: their own handlers take every error.
    A page of results without ids carries no next token, and the ids are well
    formed. *)
Theorem pageFetchers_never_throw baseUrl token contentType w :
  (∃ ids next w',
     fetchPageWithMultipleStrategies baseUrl token contentType w = (inl (ids, next), w')
     ∧ (ids = [] → next = None) ∧ Forall wellFormedId ids)
  ∧ (∃ ids w',
       tryAlternativeContinuation baseUrl token contentType w = (inl ids, w')
       ∧ Forall wellFormedId ids).
Proof.
  split; [apply tryStrategies_total | apply tryAlternativeContinuation_total].
Qed.

End NetFacts.

(** Generic pagination when the page fetchers do not throw. *)
Section QuietPagination.

Context (World : Type).
Context (scrapePageContent : string → ContentType → World → list string * World).
Context (fetchPageHtml : string → World → (string + string) * World).
Context (extractContinuationToken : string → option string).
Context (fetchPageWithMultipleStrategies :
  string → string → ContentType → World → (list string * option string + string) * World).
Context (tryAlternativeContinuation :
  string → string → ContentType → World → (list string + string) * World).
Context (P : string → Prop).

Hypothesis Hscrape : ∀ url contentType w, Forall P (scrapePageContent url contentType w).1.
Hypothesis Hpage : ∀ url token contentType w,
  ∃ r w', fetchPageWithMultipleStrategies url token contentType w = (inl r, w')
          ∧ Forall P r.1.
Hypothesis Halt : ∀ url token contentType w,
  ∃ ids w', tryAlternativeContinuation url token contentType w = (inl ids, w')
            ∧ Forall P ids.

Local Abbreviation PState := (Scrape.PState World).
Local Abbreviation pageBody :=
  (Scrape.pageBody World fetchPageWithMultipleStrategies tryAlternativeContinuation).
Local Abbreviation paginate :=
  (Scrape.paginate World fetchPageHtml extractContinuationToken
     fetchPageWithMultipleStrategies tryAlternativeContinuation).
Local Abbreviation scrapeWithAggressivePagination :=
  (Scrape.scrapeWithAggressivePagination World scrapePageContent fetchPageHtml
     extractContinuationToken fetchPageWithMultipleStrategies tryAlternativeContinuation).

Lemma addNew_Forall ids (st : PState) :
  Forall P ids → Forall P (Scrape.allVideoIds st) →
  ∃ n st', Scrape.addNew ids st = (inl n, st')
    ∧ Forall P (Scrape.allVideoIds st')
    ∧ Scrape.pageCount st' = Scrape.pageCount st
    ∧ Scrape.refreshes st' = Scrape.refreshes st.
Proof.
  intros Hids Hall.
  destruct (addNew_spec World ids st) as (n & st' & Hrun & _ & Hset & _ & Hp & Hr).
  exists n, st'. split; [done|]. split; [|done].
  rewrite Hset. apply Forall_forall. intros id [Hid|Hid]%JsSet_addAll_elem.
  - by apply (proj1 (Forall_forall _ _) Hall).
  - by apply (proj1 (Forall_forall _ _) Hids).
Qed.

Lemma pageBody_quiet url contentType token (st : PState) :
  Forall P (Scrape.allVideoIds st) →
  ∃ goOn st', pageBody url contentType token st = (inl goOn, st')
    ∧ Forall P (Scrape.allVideoIds st')
    ∧ Scrape.pageCount st' = Scrape.pageCount st
    ∧ Scrape.refreshes st' = Scrape.refreshes st.
Proof.
  intros Hall. unfold Scrape.pageBody, Scrape.bind, Scrape.await, Scrape.ret,
    Scrape.setToken.
  destruct (Hpage url token contentType (Scrape.world st)) as (r & w1 & -> & Hr).
  destruct (addNew_Forall r.1 (Scrape.withWorld World st w1) Hr Hall)
    as (n & st1 & -> & Hall1 & Hp1 & Hr1). cbn in Hp1, Hr1.
  destruct (decide (n = O)) as [->|Hn]; cbn.
  2:{ eexists _, _. split; [done|]. by repeat split. }
  destruct (Halt url token contentType (Scrape.world st1)) as (alt & w2 & -> & Halt').
  destruct (addNew_Forall alt (Scrape.withWorld World st1 w2) Halt' Hall1)
    as (n2 & st2 & -> & Hall2 & Hp2 & Hr2). cbn in Hp2, Hr2.
  destruct (bool_decide (n2 = O)); cbn; eexists _, _; (split; [done|]);
    repeat split; cbn; congruence.
Qed.

Lemma paginate_quiet url contentType fuel (st : PState) :
  Forall P (Scrape.allVideoIds st) →
  (Scrape.pageCount st ≤ Scrape.maxPages)%nat →
  ∃ st', paginate url contentType fuel st = (inl (), st')
    ∧ Forall P (Scrape.allVideoIds st')
    ∧ (Scrape.pageCount st' ≤ Scrape.maxPages)%nat
    ∧ Scrape.refreshes st' = Scrape.refreshes st.
Proof.
  revert st. induction fuel as [|fuel IH]; intros st Hall Hcount.
  { by exists st. }
  rewrite paginate_unfold.
  destruct (Scrape.continuationToken st) as [token|]; [|by exists st].
  destruct (Str.truthy token); cbn [andb]; [|by exists st].
  destruct (bool_decide_reflect (Scrape.pageCount st < Scrape.maxPages)%nat) as [Hlt|Hge];
    [|by exists st].
  destruct (pageBody_quiet url contentType token (Scrape.incrPageCount st).2 Hall)
    as (goOn & st1 & -> & Hall1 & Hp1 & Hr1). cbn in Hp1, Hr1.
  destruct goOn.
  - destruct (IH st1 Hall1) as (st2 & -> & Hall2 & Hp2 & Hr2); [lia|].
    exists st2. repeat split; [done | done | congruence].
  - exists st1. repeat split; [done | lia | done].
Qed.

Lemma scrapeWithAggressivePagination_quiet url contentType w :
  ∃ ids st',
    scrapeWithAggressivePagination url contentType (Scrape.entry w) = (inl ids, st')
    ∧ ids = Scrape.allVideoIds st'
    ∧ Scrape.refreshes st' = O
    ∧ (Scrape.pageCount st' ≤ Scrape.maxPages)%nat
    ∧ Forall P ids.
Proof.
  unfold Scrape.scrapeWithAggressivePagination, Scrape.tryCatch.
  unfold Scrape.bind at 1, Scrape.awaitTotal at 1. cbn [Scrape.world Scrape.entry].
  pose proof (Hscrape url contentType w) as Hinit.
  destruct (scrapePageContent url contentType w) as [initialResults w1]. cbn [fst] in *.
  unfold Scrape.bind at 1.
  edestruct (addNew_Forall initialResults) as (n & st1 & -> & Hall1 & Hp1 & Hr1);
    [exact Hinit | |].
  { cbn. constructor. }
  cbn in Hp1, Hr1.
  unfold Scrape.bind at 1, Scrape.await at 1.
  destruct (fetchPageHtml url (Scrape.world st1)) as [[initialHtml|e] w2].
  2:{ cbn. eexists _, _. split; [done|]. cbn. repeat split; [done | unfold Scrape.maxPages; lia | done]. }
  unfold Scrape.bind at 1, Scrape.setToken at 1. unfold Scrape.bind at 1.
  edestruct (paginate_quiet url contentType Scrape.maxPages) as (st3 & -> & Hall3 & Hp3 & Hr3);
    [| |].
  3:{ cbn. eexists _, _. split; [done|]. cbn in Hr3. repeat split; [congruence | done | done]. }
  - exact Hall1.
  - cbn. unfold Scrape.maxPages. lia.
Qed.

End QuietPagination.

(** ** Scraping a channel *)

Section ScraperFacts.

Context (World : Type).
Context (fetch : Net.FetchRequest → World → (Net.FetchResponse + string) * World).

Lemma paginateListing_quiet url contentType w :
  ∃ ids st',
    Scrape.scrapeWithAggressivePagination World
      (Net.scrapePageContent World fetch) (Net.fetchPageHtml World fetch)
      Extract.extractContinuationToken
      (Net.fetchPageWithMultipleStrategies World fetch)
      (Net.tryAlternativeContinuation World fetch)
      url contentType (Scrape.entry w) = (inl ids, st')
    ∧ Scrape.refreshes st' = O
    ∧ (Scrape.pageCount st' ≤ 50)%nat
    ∧ Forall wellFormedId ids.
Proof.
  destruct (scrapeWithAggressivePagination_quiet World
              (Net.scrapePageContent World fetch) (Net.fetchPageHtml World fetch)
              Extract.extractContinuationToken
              (Net.fetchPageWithMultipleStrategies World fetch)
              (Net.tryAlternativeContinuation World fetch) wellFormedId)
    with (url := url) (contentType := contentType) (w := w)
    as (ids & st' & Hrun & Hids & Hrefresh & Hcount & Hwf).
  - apply scrapePageContent_wellFormed.
  - intros u token ct w0.
    destruct (tryStrategies_total World fetch u (Net.continuationUrls u token) w0)
      as (ids & next & w' & Hrun & _ & Hwf).
    by exists (ids, next), w'.
  - intros u token ct w0. apply tryAlternativeContinuation_total.
  - by exists ids, st'.
Qed.

(** X5: with the page fetchers of the repository, the pagination of a listing
    returns ids that are distinct and well formed, reads at most 50 pages,
    and never starts a token refresh: the fetchers throw nothing that its
    handler could take. *)
Theorem listing_pagination_never_refreshes url contentType w :
  ∃ ids st',
    Scrape.scrapeWithAggressivePagination World
      (Net.scrapePageContent World fetch) (Net.fetchPageHtml World fetch)
      Extract.extractContinuationToken
      (Net.fetchPageWithMultipleStrategies World fetch)
      (Net.tryAlternativeContinuation World fetch)
      url contentType (Scrape.entry w) = (inl ids, st')
    ∧ Scrape.refreshes st' = O
    ∧ (Scrape.pageCount st' ≤ 50)%nat
    ∧ NoDup ids
    ∧ Forall wellFormedId ids.
Proof.
  destruct (paginateListing_quiet url contentType w)
    as (ids & st' & Hrun & Hrefresh & Hcount & Hwf).
  exists ids, st'. split; [done|]. split; [done|]. split; [done|]. split; [|done].
  destruct (scrapeWithAggressivePagination_total World
              (Net.scrapePageContent World fetch) (Net.fetchPageHtml World fetch)
              Extract.extractContinuationToken
              (Net.fetchPageWithMultipleStrategies World fetch)
              (Net.tryAlternativeContinuation World fetch) url contentType w)
    as (ids2 & st2 & Hrun2 & _ & _ & _ & Hnd).
  rewrite Hrun in Hrun2. by injection Hrun2 as -> _.
Qed.

Lemma paginateListing_total url contentType w :
  ∃ ids w', Net.paginateListing World fetch url contentType w = (inl ids, w')
    ∧ Forall wellFormedId ids.
Proof.
  unfold Net.paginateListing.
  destruct (paginateListing_quiet url contentType w)
    as (ids & st' & -> & _ & _ & Hwf).
  by eexists _, _.
Qed.

Lemma tryAdditionalChannelMethods_wellFormed channelInput w :
  Forall wellFormedId (Net.tryAdditionalChannelMethods World fetch channelInput w).1.
Proof.
  unfold Net.tryAdditionalChannelMethods.
  assert (Forall wellFormedId (([] : list string), w).1) as Hinit by constructor.
  revert Hinit. generalize (([] : list string), w).
  induction (Net.channelVariations channelInput) as [|variation rest IH];
    intros acc Hacc; [done|].
  cbn [foldl]. apply IH.
  pose proof (scrapePageContent_wellFormed World fetch variation video acc.2) as Hres.
  destruct (Net.scrapePageContent World fetch variation video acc.2) as [results w'].
  cbn [fst] in *. apply Forall_forall. intros id [Hid|Hid]%JsSet_addAll_elem.
  - by apply (proj1 (Forall_forall _ _) Hacc).
  - by apply (proj1 (Forall_forall _ _) Hres).
Qed.

Lemma scrapeChannelContent_returns channelInput w :
  ∃ result w', Net.scrapeChannelContent World fetch channelInput w = (inl result, w').
Proof.
  unfold Net.scrapeChannelContent.
  destruct (Net.normalizeChannelUrls channelInput) as [videosUrl shortsUrl].
  unfold Net.tryCatch, Net.bind, Net.ret.
  destruct (paginateListing_total videosUrl video w) as (videoResults & w1 & -> & _).
  destruct (paginateListing_total shortsUrl short w1) as (shortsResults & w2 & -> & _).
  destruct (Net.tryAdditionalChannelMethods World fetch channelInput w2)
    as [additionalResults w3].
  by eexists _, _.
Qed.

(** X6: for a channel given as a string, [scrapeChannelContent] returns a
    result whatever the network does; the ids of the result are distinct and
    well formed, and every id with a hint is among them. *)
Theorem scrapeChannelContent_never_fails channelInput w :
  ∃ result w',
    Net.scrapeChannelContent World fetch channelInput w = (inl result, w')
    ∧ NoDup (found result)
    ∧ Forall wellFormedId (found result)
    ∧ ∀ id hint, types result !! id = Some hint → id ∈ found result.
Proof.
  unfold Net.scrapeChannelContent.
  destruct (Net.normalizeChannelUrls channelInput) as [videosUrl shortsUrl].
  unfold Net.tryCatch, Net.bind, Net.ret.
  destruct (paginateListing_total videosUrl video w) as (videoResults & w1 & -> & Hv).
  destruct (paginateListing_total shortsUrl short w1) as (shortsResults & w2 & -> & Hs).
  pose proof (tryAdditionalChannelMethods_wellFormed channelInput w2) as Ha.
  destruct (Net.tryAdditionalChannelMethods World fetch channelInput w2)
    as [additionalResults w3]. cbn [fst] in Ha.
  eexists _, _. split; [done|].
  destruct (scrapeChannelContent_found videoResults shortsResults additionalResults)
    as [Hnd Hin].
  split; [done|]. split.
  - apply Forall_forall. intros id [Hid|[Hid|Hid]]%Hin.
    + by apply (proj1 (Forall_forall _ _) Hv).
    + by apply (proj1 (Forall_forall _ _) Hs).
    + by apply (proj1 (Forall_forall _ _) Ha).
  - intros id hint. rewrite scrapeChannelContent_types. intros Hhint. apply Hin.
    destruct (decide (id ∈ shortsResults)); [by right; left|].
    destruct (decide (id ∈ videoResults)); [by left | done].
Qed.

End ScraperFacts.

(** ** Channel addresses *)

Lemma listingSuffixAt_other c s : c ≠ "/"%char → Net.listingSuffixAt (String c s) = false.
Proof.
  intros Hc. unfold Net.listingSuffixAt. cbn.
  destruct (decide ("/"%char = c)) as [<-|_]; done.
Qed.

Lemma dropListingSuffix_noSlash name suffix :
  noSlash name = true →
  suffix = "/videos" ∨ suffix = "/shorts" →
  Net.dropListingSuffix (name +:+ suffix) = name.
Proof.
  intros Hname Hsuffix. induction name as [|c name IH].
  - rewrite app_empty. by destruct Hsuffix as [-> | ->].
  - cbn in Hname. apply andb_true_iff in Hname as [Hc Hname].
    apply negb_true_iff, bool_decide_eq_false in Hc.
    rewrite app_String. cbn [Net.dropListingSuffix].
    by rewrite (listingSuffixAt_other _ _ Hc), (IH Hname).
Qed.

Lemma dropListingSuffix_handle name suffix :
  noSlash name = true →
  suffix = "/videos" ∨ suffix = "/shorts" →
  Net.dropListingSuffix (("https://www.youtube.com/@" +:+ name) +:+ suffix)
  = "https://www.youtube.com/@" +:+ name.
Proof.
  intros Hname Hsuffix. rewrite app_assoc_string.
  rewrite <- (dropListingSuffix_noSlash name suffix Hname Hsuffix) at 2.
  generalize (name +:+ suffix). intros rest.
  repeat (rewrite !app_String, ?app_empty;
          cbn [Net.dropListingSuffix];
          first [ rewrite listingSuffixAt_other by discriminate
                | change (Net.listingSuffixAt (String "/" (String ?c ?r))) with false ];
          f_equal).
Qed.

Lemma noSlash_trimStart s : noSlash s = true → noSlash (Net.trimStart s) = true.
Proof.
  induction s as [|c s IH]; [done|]. cbn [Net.trimStart].
  destruct (Net.isSpace c); [|done]. intros [_ Hs]%andb_true_iff. by apply IH.
Qed.

Lemma noSlash_trimEnd s : noSlash s = true → noSlash (Net.trimEnd s) = true.
Proof.
  induction s as [|c s IH]; [done|]. cbn [Net.trimEnd].
  intros [Hc Hs]%andb_true_iff. specialize (IH Hs).
  destruct (Net.trimEnd s) as [|c' rest].
  - destruct (Net.isSpace c); [done|]. cbn. by rewrite Hc.
  - cbn in IH |- *. by rewrite Hc, IH.
Qed.

Lemma noSlash_tail s :
  noSlash s = true → noSlash (String.substring 1 (String.length s - 1) s) = true.
Proof.
  destruct s as [|c s]; [done|]. intros [_ Hs]%andb_true_iff.
  cbn [String.length String.substring]. rewrite Nat.sub_succ, Nat.sub_0_r.
  clear c. induction s as [|c s IH]; [done|].
  cbn [String.length String.substring].
  change (noSlash (String c ?x))
    with (negb (bool_decide (c = "/"%char)) && noSlash x) in *.
  apply andb_true_iff in Hs as [Hc Hs]. by rewrite Hc, (IH Hs).
Qed.

(** X7: the two addresses that [normalizeChannelUrls] makes of a channel name
    are fixed points: each of them is normalized to the same two addresses. *)
Theorem normalizeChannelUrls_round_trip channelInput :
  Str.startsWith channelInput "http://" = false →
  Str.startsWith channelInput "https://" = false →
  noSlash channelInput = true →
  let urls := Net.normalizeChannelUrls channelInput in
  Net.normalizeChannelUrls urls.1 = urls ∧ Net.normalizeChannelUrls urls.2 = urls.
Proof.
  intros Hhttp Hhttps Hslash urls.
  set (name := if Str.startsWith (Net.trim channelInput) "@"
               then String.substring 1 (String.length (Net.trim channelInput) - 1)
                      (Net.trim channelInput)
               else Net.trim channelInput).
  assert (urls = (("https://www.youtube.com/@" +:+ name) +:+ "/videos",
                  ("https://www.youtube.com/@" +:+ name) +:+ "/shorts")) as ->.
  { unfold urls, Net.normalizeChannelUrls. by rewrite Hhttp, Hhttps. }
  assert (noSlash name = true) as Hname.
  { unfold name, Net.trim.
    pose proof (noSlash_trimEnd _ (noSlash_trimStart _ Hslash)) as Htrim.
    destruct (Str.startsWith _ "@"); [by apply noSlash_tail | done]. }
  clearbody name. cbn [fst snd]. unfold Net.normalizeChannelUrls.
  assert (∀ suffix,
            Str.startsWith (("https://www.youtube.com/@" +:+ name) +:+ suffix) "http://"
            || Str.startsWith (("https://www.youtube.com/@" +:+ name) +:+ suffix) "https://"
            = true) as Hurl.
  { intros suffix. rewrite app_assoc_string.
    change ("https://www.youtube.com/@" +:+ ?r)
      with ("https://" +:+ "www.youtube.com/@" +:+ r).
    apply orb_true_iff. right. apply startsWith_spec. by eexists. }
  rewrite !Hurl.
  rewrite (dropListingSuffix_handle name "/videos" Hname (or_introl eq_refl)),
    (dropListingSuffix_handle name "/shorts" Hname (or_intror eq_refl)).
  done.
Qed.

(** ** The resolver and the handler, again *)





Lemma omap_keyed_ids (m : gmap string VideoRecord) (ids : list string) :
  (∀ id r, m !! id = Some r → idOf r = id) →
  (∀ id, id ∈ ids → is_Some (m !! id)) →
  idOf <$> omap (fun id => m !! id) ids = ids.
Proof.
  intros Hkey Hall. induction ids as [|id ids IH]; [done|].
  destruct (Hall id) as [r Hr]; [by left|]. cbn [omap list_omap]. rewrite Hr.
  cbn. rewrite (Hkey id r Hr). f_equal. apply IH. intros id' Hid'. apply Hall. by right.
Qed.

Lemma resolve_answers_all
    (env : Env) (videoTypes : gmap string ContentType) (ignoreCache : bool)
    (ids : list string) (cache cache' : gmap string CacheRow) (rs : list VideoRecord) :
  (ignoreCache = false →
   selectedWellKeyed cache ids (dateNow env - freshnessWindow)) →
  resolve env videoTypes ignoreCache ids cache = (Results rs, cache') →
  ∃ resultMap : gmap string VideoRecord,
    rs = omap (fun id => resultMap !! id) ids
    ∧ (∀ id r, resultMap !! id = Some r → idOf r = id)
    ∧ (∀ id, id ∈ ids → is_Some (resultMap !! id)).
Proof.
  intros Hwk Hres.
  apply resolve_Results in Hres as (fresh & _ & Hids & _ & -> & _).
  eexists. split; [done|]. split.
  - intros id r Hr. by apply resultMap_lookup_Some in Hr as [_ ?].
  - intros id Hid.
    destruct (decide (id ∈ fst <$> cacheRead env ignoreCache ids cache)) as [Hin|Hnot].
    + destruct ignoreCache; [by apply elem_of_nil in Hin|].
      pose proof Hin as Hkey. apply cacheSelect_key in Hkey as (_ & row & Hrow & Hnew).
      unfold cacheRead. rewrite (cached_lookup _ _ _ _ id row); try done; [by apply Hwk|].
      intros r Hr Hrid.
      assert (id ∈ workList (cacheRead env false ids cache) ids) as Hw.
      { rewrite <- Hids, <- Hrid. by apply (list_elem_of_fmap_2 idOf). }
      apply workList_elem in Hw as [_ Hw]. done.
    + assert (id ∈ idOf <$> fresh) as Hw by (rewrite Hids; by apply workList_elem).
      apply list_elem_of_fmap in Hw as (r0 & Hr0id & Hr0).
      destruct (resultMap_fresh_wins
                  (cachedRecord <$> cacheRead env ignoreCache ids cache)
                  fresh id r0 Hr0 (eq_sym Hr0id)) as (r1 & -> & _). done.
Qed.

(** X9: when the cache rows that a request selects hold the video they are
    keyed by, the results have one record for each requested id, in the
    order of the request: no id is dropped. *)
Theorem resolve_one_record_per_id
    (env : Env) (videoTypes : gmap string ContentType) (ignoreCache : bool)
    (ids : list string) (cache cache' : gmap string CacheRow) (rs : list VideoRecord) :
  (ignoreCache = false →
   selectedWellKeyed cache ids (dateNow env - freshnessWindow)) →
  resolve env videoTypes ignoreCache ids cache = (Results rs, cache') →
  (fun r => videoId (fields r)) <$> rs = ids.
Proof.
  intros Hwk Hres.
  destruct (resolve_answers_all _ _ _ _ _ _ _ Hwk Hres) as (resultMap & -> & Hkey & Hall).
  by apply omap_keyed_ids.
Qed.

Lemma handler_cases env req cache :
  handler env req cache = (Failure 500 "YouTube API key not configured", cache)
  ∨ (∃ message, collectVideoIds env req = inr message
                ∧ handler env req cache = (Failure 500 message, cache))
  ∨ handler env req cache = (Results [], cache)
  ∨ ∃ ids videoTypes,
      collectVideoIds env req = inl (ids, videoTypes) ∧ ids ≠ []
      ∧ handler env req cache = resolve env videoTypes (ignoreCache req) ids cache.
Proof.
  unfold handler. destruct (negb _); [by left|].
  destruct (collectVideoIds env req) as [[ids videoTypes]|message]; [|right; left; eauto].
  destruct ids as [|id ids]; [by right; right; left|].
  right; right; right. by exists (id :: ids), videoTypes.
Qed.

(** X10: the handler keeps the cache well keyed and free of records without a
    definitive status, whatever it answers. *)
Theorem handler_keeps_cache_invariants
    (env : Env) (req : Request) (cache cache' : gmap string CacheRow)
    (response : Response) :
  handler env req cache = (response, cache') →
  (wellKeyed cache → wellKeyed cache')
  ∧ (allDefinitive cache → allDefinitive cache').
Proof.
  intros Hrun.
  destruct (handler_cases env req cache)
    as [H | [(m & _ & H) | [H | (ids & videoTypes & _ & _ & H)]]];
    rewrite H in Hrun; try (injection Hrun as _ <-; by split).
  destruct (resolve_cache_after _ _ _ _ _ _ _ Hrun) as [Hrows _]. split.
  - intros Hwk k row Hrow. destruct (Hrows k row Hrow) as [Hold | (_ & Hk & _)]; [|done].
    by apply (Hwk k row).
  - intros Hdef k row Hrow. destruct (Hrows k row Hrow) as [Hold | (Hd & _)]; [|done].
    by apply (Hdef k row).
Qed.

(** X11: a record that is returned with [fromCache] set was read from the
    cache: the request did not ignore the cache, and the row of a requested
    id, less than 24 hours old, holds its data. *)
Theorem fromCache_records_come_from_fresh_rows
    (env : Env) (videoTypes : gmap string ContentType) (ignoreCache : bool)
    (ids : list string) (cache cache' : gmap string CacheRow) (rs : list VideoRecord)
    (r : VideoRecord) :
  resolve env videoTypes ignoreCache ids cache = (Results rs, cache') →
  r ∈ rs →
  fromCache r = true →
  ignoreCache = false
  ∧ ∃ k row, k ∈ ids ∧ cache !! k = Some row ∧ data row = fields r
             ∧ dateNow env - 24 * 60 * 60 * 1000 < cached_at row.
Proof.
  intros Hres Hr Hfc.
  apply resolve_Results in Hres as (fresh & _ & _ & Hfresh & -> & _).
  apply list_elem_of_omap in Hr as (id & _ & Hr).
  apply resultMap_lookup_Some in Hr as [Hin _].
  apply elem_of_app in Hin as [Hin|Hin].
  2:{ apply (proj1 (Forall_forall _ _) Hfresh) in Hin. congruence. }
  apply list_elem_of_fmap in Hin as ([k d] & -> & Hin).
  destruct ignoreCache; [by apply elem_of_nil in Hin|]. split; [done|].
  apply cacheSelect_elem in Hin as (Hk & row & Hrow & Hnew & ->).
  by exists k, row.
Qed.

(** X12: for a request with a channel, the ids to resolve are the ids of the
    request and those of the channel, each once, the ids of the request first
    when they are distinct; the hints are those of the discovery.  The
    discovery is that of the data API when it answers, and that of the
    scraper only when the data API fails. *)
Theorem collectVideoIds_channel_union
    (env : Env) (req : Request) (url : string) (result : Discovery) :
  channelUrl req = Some url →
  url ≠ "" →
  getChannelVideosWithApi env url = inl result
  ∨ (∃ e, getChannelVideosWithApi env url = inr e)
    ∧ scrapeChannelContent env url = inl result →
  ∃ ids,
    collectVideoIds env req = inl (ids, types result)
    ∧ NoDup ids
    ∧ (∀ id, id ∈ ids ↔ id ∈ default [] (videoIds req) ∨ id ∈ found result)
    ∧ (NoDup (default [] (videoIds req)) →
       ∃ tail, ids = default [] (videoIds req) ++ tail).
Proof.
  intros Hurl Hne Hfound. unfold collectVideoIds. rewrite Hurl. cbn [default id].
  assert (Str.truthy url = true) as -> by by destruct url.
  assert (match getChannelVideosWithApi env url with
          | inl apiResult => inl apiResult
          | inr _ => scrapeChannelContent env url
          end = inl result) as ->.
  { destruct Hfound as [-> | [[e ->] ->]]; done. }
  eexists. split.
  { f_equal. f_equal. apply (right_id_L ∅ (∪)). }
  split; [apply JsSet_addAll_NoDup, NoDup_nil_2|]. split.
  - intros id. unfold JsSet.ofList. rewrite JsSet_addAll_elem, elem_of_app, elem_of_nil.
    tauto.
  - apply JsSet_ofList_explicit_first.
Qed.

Section HandlerWithScraper.

Context (World : Type).
Context (fetch : Net.FetchRequest → World → (Net.FetchResponse + string) * World).

(** X13: with the scraper of the repository, and the channel given as a
    string, the collection of the ids never fails: the answer for a failure
    of both discoveries is out of reach. *)
Theorem collectVideoIds_never_fails_with_scraper (env : Env) (req : Request) (w : World) :
  (∀ channelInput,
     scrapeChannelContent env channelInput
     = (Net.scrapeChannelContent World fetch channelInput w).1) →
  ∃ ids videoTypes, collectVideoIds env req = inl (ids, videoTypes).
Proof.
  intros Hscraper. unfold collectVideoIds.
  destruct (Str.truthy _); [|by eexists _, _].
  destruct (getChannelVideosWithApi env _) as [apiResult|e]; [by eexists _, _|].
  rewrite Hscraper.
  destruct (scrapeChannelContent_returns World fetch
              (default "" (channelUrl req)) w) as (result & w' & ->).
  by eexists _, _.
Qed.

End HandlerWithScraper.

(** ** Channel discovery by the data API *)




Lemma allIdChars_forallb name :
  Extract.allIdChars name = true →
  name ≠ "" ∧ forallb Extract.isIdChar (list_ascii_of_string name) = true.
Proof.
  unfold Extract.allIdChars. intros [Hne Hall]%andb_true_iff. split; [|done].
  by destruct name.
Qed.






Lemma channelMatchAt_nonempty s m : Api.channelMatchAt s = Some m → s ≠ "".
Proof. by intros Hm ->. Qed.






Section ApiFacts.

Context (World : Type).
Context (search : string → World → (Api.Answer Api.SearchItem + string) * World).
Context (channels : string → World → (Api.Answer Api.ChannelItem + string) * World).
Context (playlistItems :
  string → option string → World → (Api.Answer Api.PlaylistItem + string) * World).

Local Abbreviation playlistLoop := (Api.playlistLoop World playlistItems).
Local Abbreviation getAllVideosFromPlaylist :=
  (Api.getAllVideosFromPlaylist World playlistItems).
Local Abbreviation getChannelVideosWithApi :=
  (Api.getChannelVideosWithApi World search channels playlistItems).

Lemma playlistLoop_unfold fuel playlistId pageToken videoIds w :
  playlistLoop (S fuel) playlistId pageToken videoIds w
  = match playlistItems playlistId pageToken w with
    | (inl data, w) =>
        if negb (Api.ok data) then Some (inl videoIds, w)
        else
          match Api.items data with
          | Some its =>
              let ids := filter (fun id => Str.truthy id = true)
                           (omap Api.resourceVideoId its) in
              let videoIds := videoIds ++ ids in
              match Api.nextPageToken data with
              | Some token =>
                  if Str.truthy token
                  then playlistLoop fuel playlistId (Some token) videoIds w
                  else Some (inl videoIds, w)
              | None => Some (inl videoIds, w)
              end
          | None => Some (inr Api.typeError, w)
          end
    | (inr e, w) => Some (inr e, w)
    end.
Proof. reflexivity. Qed.

Lemma playlistLoop_more_fuel fuel fuel' playlistId pageToken videoIds w r :
  (fuel ≤ fuel')%nat →
  playlistLoop fuel playlistId pageToken videoIds w = Some r →
  playlistLoop fuel' playlistId pageToken videoIds w = Some r.
Proof.
  revert fuel' pageToken videoIds w.
  induction fuel as [|fuel IH]; intros fuel' pageToken videoIds w Hle; [done|].
  destruct fuel' as [|fuel']; [lia|]. rewrite !playlistLoop_unfold.
  destruct (playlistItems playlistId pageToken w) as [[data|e] w1]; [|done].
  destruct (negb (Api.ok data)); [done|].
  destruct (Api.items data) as [its|]; [|done]. cbn zeta.
  destruct (Api.nextPageToken data) as [token|]; [|done].
  destruct (Str.truthy token); [|done]. apply IH. lia.
Qed.

Lemma playlistLoop_ids fuel playlistId pageToken videoIds w ids w' :
  playlistLoop fuel playlistId pageToken videoIds w = Some (inl ids, w') →
  ∃ more, ids = videoIds ++ more ∧ Forall (fun id => id ≠ "") more.
Proof.
  revert pageToken videoIds w.
  induction fuel as [|fuel IH]; intros pageToken videoIds w; [done|].
  rewrite playlistLoop_unfold.
  destruct (playlistItems playlistId pageToken w) as [[data|e] w1]; [|done].
  destruct (negb (Api.ok data)).
  { intros [= <- <-]. exists []. by rewrite app_nil_r. }
  destruct (Api.items data) as [its|]; [|done]. cbn zeta.
  set (page := filter _ _).
  assert (Forall (fun id => id ≠ "") page) as Hpage.
  { apply Forall_forall. intros id [Hid _]%list_elem_of_filter. by destruct id. }
  assert (Some (inl (videoIds ++ page) : list string + string, w1)
          = Some (inl ids, w') →
          ∃ more, ids = videoIds ++ more ∧ Forall (fun id => id ≠ "") more) as Hstop.
  { intros [= <- <-]. by exists page. }
  destruct (Api.nextPageToken data) as [token|]; [|done].
  destruct (Str.truthy token); [|done].
  intros (more & -> & Hmore)%IH. exists (page ++ more).
  split; [by rewrite app_assoc|]. by apply Forall_app.
Qed.

Lemma playlistLoop_error fuel playlistId pageToken videoIds w e w' :
  playlistLoop fuel playlistId pageToken videoIds w = Some (inr e, w') →
  e = Api.typeError
  ∨ ∃ pageToken0 w0, playlistItems playlistId pageToken0 w0 = (inr e, w').
Proof.
  revert pageToken videoIds w.
  induction fuel as [|fuel IH]; intros pageToken videoIds w; [done|].
  rewrite playlistLoop_unfold.
  destruct (playlistItems playlistId pageToken w) as [[data|e0] w1] eqn:Hpage.
  2:{ intros [= <- <-]. right. by exists pageToken, w. }
  destruct (negb (Api.ok data)); [done|].
  destruct (Api.items data) as [its|]; [|intros [= <- <-]; by left]. cbn zeta.
  destruct (Api.nextPageToken data) as [token|]; [|done].
  destruct (Str.truthy token); [|done]. apply IH.
Qed.

(** X15: a playlist that comes to an end is listed: when each further page that
    is asked for brings the world closer to the end, by a measure, the loop
    returns, and more turns do not change what it returns; the ids it
    returns are non-empty strings. *)
Theorem getAllVideosFromPlaylist_returns
    (measure : World → nat) (playlistId : string) (w : World) :
  (∀ pageToken w0 data w1,
     playlistItems playlistId pageToken w0 = (inl data, w1) →
     continues data = true → (measure w1 < measure w0)%nat) →
  ∃ r w',
    (∀ fuel, (measure w < fuel)%nat →
             getAllVideosFromPlaylist fuel playlistId w = Some (r, w'))
    ∧ ∀ ids, r = inl ids → Forall (fun id => id ≠ "") ids.
Proof.
  intros Hmeasure.
  assert (∀ n pageToken videoIds w0,
            (measure w0 < n)%nat →
            ∃ r, playlistLoop n playlistId pageToken videoIds w0 = Some r) as Hloop.
  { induction n as [|n IH]; intros pageToken videoIds w0 Hn; [lia|].
    rewrite playlistLoop_unfold.
    destruct (playlistItems playlistId pageToken w0) as [[data|e] w1] eqn:Hpage;
      [|by eexists].
    pose proof (Hmeasure pageToken w0 data w1 Hpage) as Hless. unfold continues in Hless.
    destruct (Api.ok data); cbn [negb]; [|by eexists].
    destruct (Api.items data) as [its|]; [|by eexists]. cbn zeta.
    destruct (Api.nextPageToken data) as [token|]; [|by eexists].
    destruct (Str.truthy token) eqn:Htoken; [|by eexists].
    apply IH. assert (measure w1 < measure w0)%nat; [|lia].
    apply Hless. change (default "" (Some token)) with token.
    rewrite Htoken, bool_decide_eq_true_2; by eauto. }
  destruct (Hloop (S (measure w)) None [] w) as [[r w'] Hr]; [lia|].
  exists r, w'. split.
  - intros fuel Hfuel. unfold Api.getAllVideosFromPlaylist.
    apply (playlistLoop_more_fuel (S (measure w))); [lia | done].
  - intros ids ->. apply playlistLoop_ids in Hr as (more & -> & Hmore). done.
Qed.

(** X16: the loop has no bound of its own: a data API that names a further
    page in every answer keeps it running for ever. *)
Theorem getAllVideosFromPlaylist_unbounded (playlistId : string) :
  (∀ pageToken w0, ∃ data w1,
     playlistItems playlistId pageToken w0 = (inl data, w1) ∧ continues data = true) →
  ∀ fuel w, getAllVideosFromPlaylist fuel playlistId w = None.
Proof.
  intros Hmore fuel w. unfold Api.getAllVideosFromPlaylist.
  generalize (@None string) as pageToken. generalize (@nil string) as videoIds.
  revert w. induction fuel as [|fuel IH]; intros w videoIds pageToken; [done|].
  rewrite playlistLoop_unfold.
  destruct (Hmore pageToken w) as (data & w1 & -> & Hdata). unfold continues in Hdata.
  apply andb_true_iff in Hdata as [[Hok Hitems]%andb_true_iff Htoken].
  rewrite Hok. cbn [negb]. apply bool_decide_eq_true in Hitems as [its ->]. cbn zeta.
  destruct (Api.nextPageToken data) as [token|]; [|done]. cbn in Htoken.
  rewrite Htoken. apply IH.
Qed.

Lemma findChannelId_error channelInput w e w' :
  Api.findChannelId World search channelInput w = (inr e, w') →
  e = Api.typeError ∨ search (Api.queryOf channelInput) w = (inr e, w').
Proof.
  unfold Api.findChannelId.
  destruct (search (Api.queryOf channelInput) w) as [[data|e0] w1]; [|intros [= <- <-]; by right].
  destruct (Api.noItems data); [done|].
  destruct (Api.items data) as [[|first ?]|]; try done.
  destruct (Api.snippet first); [done|]. intros [= <- <-]. by left.
Qed.

Lemma getUploadsPlaylistId_error channelId w e w' :
  Api.getUploadsPlaylistId World channels channelId w = (inr e, w') →
  e = Api.typeError ∨ channels channelId w = (inr e, w').
Proof.
  unfold Api.getUploadsPlaylistId.
  destruct (channels channelId w) as [[data|e0] w1]; [|intros [= <- <-]; by right].
  destruct (Api.noItems data); [done|].
  destruct (Api.items data) as [[|first ?]|]; try done.
  destruct (Api.contentDetails first) as [details|]; [|intros [= <- <-]; by left].
  destruct (Api.relatedPlaylists details); [done|]. intros [= <- <-]. by left.
Qed.

(** X17: what discovery by the data API comes to.  When it succeeds it gives
    no content-type hint at all and only non-empty ids.  When it fails, the
    message is one of its own two, that of a property read of a missing
    object, or what a request threw; an error status of a playlist page is
    none of these. *)
Theorem getChannelVideosWithApi_outcome
    (fuel : nat) (channelInput : string) (w w' : World) (r : Discovery + string) :
  getChannelVideosWithApi fuel channelInput w = Some (r, w') →
  match r with
  | inl result => types result = ∅ ∧ Forall (fun id => id ≠ "") (found result)
  | inr e =>
      e = "Could not find channel ID for the given input via API."
      ∨ e = "Could not find uploads playlist for the channel."
      ∨ e = Api.typeError
      ∨ (∃ w0 w1, search (Api.queryOf channelInput) w0 = (inr e, w1))
      ∨ (∃ channelId w0 w1, channels channelId w0 = (inr e, w1))
      ∨ (∃ playlistId pageToken w0 w1,
           playlistItems playlistId pageToken w0 = (inr e, w1))
  end.
Proof.
  unfold Api.getChannelVideosWithApi.
  destruct (Api.findChannelId World search channelInput w)
    as [[channelId|e] w1] eqn:Hchannel.
  2:{ intros [= <- <-]. apply findChannelId_error in Hchannel as [-> | Hthrown]; eauto 10. }
  destruct (negb (Str.truthy (default "" channelId))); [intros [= <- <-]; by left|].
  destruct (Api.getUploadsPlaylistId World channels (default "" channelId) w1)
    as [[uploadsPlaylistId|e] w2] eqn:Huploads.
  2:{ intros [= <- <-].
      apply getUploadsPlaylistId_error in Huploads as [-> | Hthrown]; eauto 10. }
  destruct (negb (Str.truthy (default "" uploadsPlaylistId)));
    [intros [= <- <-]; right; by left|].
  unfold Api.getAllVideosFromPlaylist.
  destruct (playlistLoop fuel (default "" uploadsPlaylistId) None [] w2)
    as [[[videoIds|e] w3]|] eqn:Hlist; [| |done]; intros [= <- <-].
  - apply playlistLoop_ids in Hlist as (more & -> & Hmore). by split.
  - apply playlistLoop_error in Hlist as [-> | (pageToken0 & w0 & Hthrown)]; eauto 12.
Qed.

End ApiFacts.

(** ** The page *)

Lemma noChar_app c a b : noChar c (a +:+ b) = noChar c a && noChar c b.
Proof.
  unfold noChar. induction a as [|x a IH]; [done|].
  rewrite app_String. cbn. by rewrite IH, andb_assoc.
Qed.

Lemma span_spec p s cs rest :
  Extract.span p s = (cs, rest) →
  s = cs +:+ rest ∧ forallb p (list_ascii_of_string cs) = true
  ∧ match rest with String r _ => p r = false | EmptyString => True end.
Proof.
  revert cs rest. induction s as [|c s IH]; intros cs rest; cbn.
  - by intros [= <- <-].
  - destruct (p c) eqn:Hc.
    + destruct (Extract.span p s) as [cs' rest'] eqn:Hspan. intros [= <- <-].
      destruct (IH _ _ eq_refl) as (-> & Hall & Hrest). cbn. by rewrite Hc.
    + by intros [= <- <-].
Qed.

Lemma span_run p cs rest :
  forallb p (list_ascii_of_string cs) = true →
  match rest with String r _ => p r = false | EmptyString => True end →
  Extract.span p (cs +:+ rest) = (cs, rest).
Proof.
  intros Hall Hrest. induction cs as [|c cs IH].
  - rewrite app_empty. destruct rest as [|r rest]; [done|]. cbn. by rewrite Hrest.
  - rewrite app_String. cbn in *. apply andb_true_iff in Hall as [-> Hall].
    by rewrite (IH Hall).
Qed.

(** What [runAt] without closing quote matches. *)
Lemma runAt_open_spec prefix stop s capture len :
  Extract.runAt prefix stop false s = Some (capture, len) ↔
  ∃ rest, s = prefix +:+ capture +:+ rest ∧ capture ≠ ""
          ∧ forallb (fun c => negb (stop c)) (list_ascii_of_string capture) = true
          ∧ endsRun stop rest
          ∧ len = (String.length prefix + String.length capture)%nat.
Proof.
  unfold Extract.runAt. split.
  - destruct (Extract.dropLiteral prefix s) as [rest|] eqn:Hdrop; [|discriminate].
    apply dropLiteral_Some in Hdrop as ->.
    destruct (Extract.span _ rest) as [[|c cs] rest'] eqn:Hspan; [discriminate|].
    apply span_spec in Hspan as (-> & Hall & Hrest). intros [= <- <-].
    exists rest'. repeat split; try done.
    destruct rest' as [|r rest']; [done|]. cbn. by apply negb_false_iff.
  - intros (rest & -> & Hne & Hall & Hrest & ->).
    rewrite (proj2 (dropLiteral_Some prefix _ _) eq_refl).
    rewrite (span_run _ capture rest Hall).
    + by destruct capture.
    + destruct rest as [|r rest]; [done|]. cbn in Hrest. by rewrite Hrest.
Qed.

Lemma runAt_clean prefix s capture len :
  Extract.runAt prefix Client.isIdEnd false s = Some (capture, len) →
  cleanId capture ∧ occursIn capture s.
Proof.
  intros Hrun. split; [|by eapply runAt_Some].
  apply runAt_open_spec in Hrun as (rest & _ & Hne & Hall & _). by split.
Qed.

Lemma lastRunOnLine_clean lit s capture len :
  Client.lastRunOnLine lit s = Some (capture, len) →
  cleanId capture ∧ occursIn capture s.
Proof.
  revert len. induction s as [|c s IH]; intros len; cbn [Client.lastRunOnLine].
  - apply runAt_clean.
  - destruct (Net.isLineTerminator c); [apply runAt_clean|].
    destruct (Client.lastRunOnLine lit s) as [[capture' len']|] eqn:Hlater.
    + intros [= <- _]. destruct (IH _ eq_refl) as [Hclean Hocc]. split; [done|].
      by apply (occursIn_suffix _ (String c "")).
    + apply runAt_clean.
Qed.

Lemma patterns_clean pattern s capture len :
  pattern ∈ Client.patterns →
  pattern s = Some (capture, len) → cleanId capture ∧ occursIn capture s.
Proof.
  unfold Client.patterns. rewrite !elem_of_cons, elem_of_nil.
  intros [->|[->|[->|[->|[]]]]]; try apply runAt_clean.
  - cbn [Client.firstOf].
    repeat (destruct (Extract.runAt _ _ _ s) as [m|] eqn:Hrun;
            [intros [= ->]; by apply runAt_clean in Hrun|clear Hrun]).
    done.
  - unfold Client.watchParamAt.
    destruct (Extract.dropLiteral _ s) as [rest|] eqn:Hdrop; [|discriminate].
    apply dropLiteral_Some in Hdrop as ->.
    destruct (Client.lastRunOnLine _ rest) as [[capture' len']|] eqn:Hlast; [|discriminate].
    intros [= <- _]. apply lastRunOnLine_clean in Hlast as [Hclean Hocc].
    split; [done|]. by apply occursIn_suffix.
Qed.

(** X18: what [extractVideoId] gives is a piece of the address, is not
    empty, and holds none of the characters that end an id. *)
Theorem extractVideoId_clean (url id : string) :
  Client.extractVideoId url = Some id →
  id ≠ ""
  ∧ forallb (fun c => negb (Client.isIdEnd c)) (list_ascii_of_string id) = true
  ∧ occursIn id url.
Proof.
  unfold Client.extractVideoId. intros Hhead.
  assert (id ∈ omap (fun pattern => Client.matchOf pattern url) Client.patterns) as Hin.
  { destruct (omap _ _) as [|x l]; [done|]. injection Hhead as ->. by left. }
  apply list_elem_of_omap in Hin as (pattern & Hpattern & Hmatch).
  unfold Client.matchOf in Hmatch.
  destruct (head (Extract.execAll pattern O O url)) as [[index capture]|] eqn:Hfirst;
    [|done].
  injection Hmatch as ->.
  assert ((index, id) ∈ Extract.execAll pattern O O url) as Hin.
  { destruct (Extract.execAll pattern O O url) as [|x l]; [done|].
    injection Hfirst as ->. by left. }
  apply execAll_elem in Hin as (pre & s' & len & -> & Hm & _).
  apply (patterns_clean _ _ _ _ Hpattern) in Hm as [[Hne Hall] Hocc].
  repeat split; try done. by apply occursIn_suffix.
Qed.

Lemma runAt_mismatch lit stop closing s :
  Extract.dropLiteral lit s = None → Extract.runAt lit stop closing s = None.
Proof. unfold Extract.runAt. by intros ->. Qed.

Lemma dropLiteral_noChar c lit s :
  noChar c lit = false → noChar c s = true → Extract.dropLiteral lit s = None.
Proof.
  intros Hlit Hs.
  destruct (Extract.dropLiteral lit s) as [rest|] eqn:Hdrop; [|done].
  apply dropLiteral_Some in Hdrop as ->. rewrite noChar_app in Hs.
  apply andb_true_iff in Hs as [Hs _]. congruence.
Qed.

Lemma pattern_first_char pattern c s :
  pattern ∈ Client.patterns → c ≠ "y"%char → pattern (String c s) = None.
Proof.
  unfold Client.patterns. rewrite !elem_of_cons, elem_of_nil. intros Hpattern Hc.
  assert (∀ lit, Extract.dropLiteral (String "y" lit) (String c s) = None) as Hdrop.
  { intros lit. cbn. by destruct (decide ("y"%char = c)) as [<-|]. }
  destruct Hpattern as [->|[->|[->|[->|[]]]]]; cbn [Client.firstOf];
    unfold Client.watchParamAt; rewrite ?runAt_mismatch, ?Hdrop; by try apply Hdrop.
Qed.

Lemma pattern_needs_dot pattern s :
  pattern ∈ Client.patterns → noChar "." s = true → pattern s = None.
Proof.
  unfold Client.patterns. rewrite !elem_of_cons, elem_of_nil.
  intros [->|[->|[->|[->|[]]]]] Hs; cbn [Client.firstOf]; unfold Client.watchParamAt;
    rewrite ?runAt_mismatch, ?(dropLiteral_noChar "." _ s);
    by try (apply (dropLiteral_noChar "."%char)).
Qed.

Lemma noChar_tail c x s : noChar c (String x s) = true → x ≠ c ∧ noChar c s = true.
Proof.
  unfold noChar. cbn. intros [Hx Hs]%andb_true_iff. split; [|done].
  by apply negb_true_iff, bool_decide_eq_false in Hx.
Qed.

Lemma execAll_noDot pattern skip index s :
  pattern ∈ Client.patterns → noChar "." s = true →
  Extract.execAll pattern skip index s = [].
Proof.
  intros Hpattern. revert skip index.
  induction s as [|c s IH]; intros skip index Hs; [done|].
  cbn [Extract.execAll]. rewrite (pattern_needs_dot _ _ Hpattern Hs).
  apply noChar_tail in Hs as [_ Hs]. destruct skip; by apply IH.
Qed.

Lemma execAll_beforeHost pattern index a b :
  pattern ∈ Client.patterns → noChar "y" a = true →
  Extract.execAll pattern O index (a +:+ b)
  = Extract.execAll pattern O (index + String.length a) b.
Proof.
  intros Hpattern. revert index. induction a as [|c a IH]; intros index Ha.
  - by rewrite app_empty, Nat.add_0_r.
  - apply noChar_tail in Ha as [Hc Ha]. rewrite app_String. cbn [Extract.execAll].
    rewrite (pattern_first_char _ _ _ Hpattern Hc), (IH _ Ha). cbn [String.length].
    f_equal. lia.
Qed.

Lemma matchOf_found pattern pre s capture len :
  pattern ∈ Client.patterns → noChar "y" pre = true →
  pattern s = Some (capture, len) →
  Client.matchOf pattern (pre +:+ s) = Some capture.
Proof.
  intros Hpattern Hpre Hm. unfold Client.matchOf.
  rewrite (execAll_beforeHost _ _ _ _ Hpattern Hpre).
  destruct s as [|c s].
  - apply (patterns_clean _ _ _ _ Hpattern) in Hm as [[Hne _] (p & q & Hs)].
    destruct p; [|done]. rewrite app_empty in Hs. by destruct capture.
  - cbn [Extract.execAll]. by rewrite Hm.
Qed.

Lemma matchOf_none pattern pre hostTail tail :
  pattern ∈ Client.patterns →
  noChar "y" pre = true → noChar "y" hostTail = true → noChar "." tail = true →
  pattern (String "y" hostTail +:+ tail) = None →
  Client.matchOf pattern (pre +:+ String "y" hostTail +:+ tail) = None.
Proof.
  intros Hpattern Hpre Hhost Htail Hm. unfold Client.matchOf.
  rewrite (execAll_beforeHost _ _ _ _ Hpattern Hpre).
  pose proof Hm as Hm'. rewrite app_String in Hm' |- *. cbn [Extract.execAll].
  rewrite Hm', (execAll_beforeHost _ _ _ _ Hpattern Hhost).
  by rewrite (execAll_noDot _ _ _ _ Hpattern Htail).
Qed.

Lemma runAt_here prefix id rest :
  id ≠ "" →
  forallb (fun c => negb (Client.isIdEnd c)) (list_ascii_of_string id) = true →
  endsRun Client.isIdEnd rest →
  Extract.runAt prefix Client.isIdEnd false (prefix +:+ id +:+ rest)
  = Some (id, (String.length prefix + String.length id)%nat).
Proof. intros Hne Hall Hrest. apply runAt_open_spec. by exists rest. Qed.

Lemma lastRunOnLine_occurs lit s capture len :
  Client.lastRunOnLine lit s = Some (capture, len) → occursIn lit s.
Proof.
  assert (∀ s m, Extract.runAt lit Client.isIdEnd false s = Some m → occursIn lit s)
    as Hhere.
  { intros s0 [capture0 len0] Hrun.
    apply (proj1 (runAt_open_spec _ _ _ _ _)) in Hrun as (rest & -> & _).
    exists "", (capture0 +:+ rest). reflexivity. }
  revert capture len.
  induction s as [|c s IH]; intros capture len; cbn [Client.lastRunOnLine].
  - apply Hhere.
  - destruct (Net.isLineTerminator c); [apply Hhere|].
    destruct (Client.lastRunOnLine lit s) as [[capture' len']|] eqn:Hlater.
    + intros _. apply (occursIn_suffix _ (String c "")). by eapply IH.
    + apply Hhere.
Qed.

Lemma lastRunOnLine_after params lit tail capture len :
  forallb (fun c => negb (Net.isLineTerminator c)) (list_ascii_of_string params) = true →
  Client.lastRunOnLine lit tail = Some (capture, len) →
  Client.lastRunOnLine lit (params +:+ tail)
  = Some (capture, (String.length params + len)%nat).
Proof.
  intros Hparams Htail. induction params as [|c params IH]; [by rewrite app_empty|].
  cbn in Hparams. apply andb_true_iff in Hparams as [Hc Hparams].
  apply negb_true_iff in Hc. rewrite app_String. cbn [Client.lastRunOnLine].
  by rewrite Hc, (IH Hparams).
Qed.

Lemma lastRunOnLine_last id rest :
  id ≠ "" →
  forallb (fun c => negb (Client.isIdEnd c)) (list_ascii_of_string id) = true →
  endsRun Client.isIdEnd rest →
  noChar "=" (id +:+ rest) = true →
  Client.lastRunOnLine "v=" ("v=" +:+ id +:+ rest)
  = Some (id, (2 + String.length id)%nat).
Proof.
  intros Hne Hall Hrest Heq.
  rewrite app_String. cbn [Client.lastRunOnLine].
  change (Net.isLineTerminator "v") with false. cbn iota.
  destruct (Client.lastRunOnLine "v=" ("=" +:+ id +:+ rest)) as [[capture len]|] eqn:Hlater.
  - apply lastRunOnLine_occurs in Hlater as (p & q & Hocc). exfalso.
    destruct p as [|x p]; [done|]. rewrite !app_String, app_empty in Hocc.
    injection Hocc as _ Hocc. rewrite Hocc, noChar_app in Heq.
    apply andb_true_iff in Heq as [_ Heq]. discriminate Heq.
  - change (String "v" ("=" +:+ id +:+ rest)) with ("v=" +:+ id +:+ rest).
    by apply runAt_here.
Qed.

Lemma firstOf_cons_None alternative rest s :
  alternative s = None →
  Client.firstOf (alternative :: rest) s = Client.firstOf rest s.
Proof. cbn. by intros ->. Qed.

Lemma firstOf_cons_Some alternative rest s m :
  alternative s = Some m → Client.firstOf (alternative :: rest) s = Some m.
Proof. cbn. by intros ->. Qed.

Lemma extractVideoId_first pattern others url id :
  Client.matchOf pattern url = Some id →
  head (omap (fun pattern => Client.matchOf pattern url) (pattern :: others)) = Some id.
Proof. cbn. by intros ->. Qed.

Lemma extractVideoId_later pattern others url :
  Client.matchOf pattern url = None →
  head (omap (fun pattern => Client.matchOf pattern url) (pattern :: others))
  = head (omap (fun pattern => Client.matchOf pattern url) others).
Proof. cbn. by intros ->. Qed.

Lemma extractVideoId_watch_address pre id rest :
  noChar "y" pre = true →
  id ≠ "" →
  forallb (fun c => negb (Client.isIdEnd c)) (list_ascii_of_string id) = true →
  endsRun Client.isIdEnd rest →
  Client.extractVideoId (pre +:+ "youtube.com/watch?v=" +:+ id +:+ rest) = Some id.
Proof.
  intros Hpre Hne Hall Hrest. unfold Client.extractVideoId, Client.patterns.
  apply extractVideoId_first.
  eapply matchOf_found; [by left | done |].
  apply firstOf_cons_Some. by apply runAt_here.
Qed.

Ltac host_mismatch :=
  cbn [Client.firstOf]; unfold Client.watchParamAt;
  rewrite ?runAt_mismatch by reflexivity; reflexivity.

(** X19: the id of a video comes back out of each of the addresses the page
    knows, whatever precedes the host and whatever follows the id.  With the
    id in a later parameter of a watch address, it comes back when no equals
    sign follows it. *)
Theorem extractVideoId_round_trip (pre id rest : string) :
  noChar "y" pre = true →
  id ≠ "" →
  forallb (fun c => negb (Client.isIdEnd c)) (list_ascii_of_string id) = true →
  noChar "." (id +:+ rest) = true →
  endsRun Client.isIdEnd rest →
  (∀ address, address ∈ videoAddresses →
     Client.extractVideoId (pre +:+ address +:+ id +:+ rest) = Some id)
  ∧ (∀ params,
       params ≠ "" → Str.startsWith params "v=" = false →
       noChar "." params = true →
       forallb (fun c => negb (Net.isLineTerminator c)) (list_ascii_of_string params) = true →
       noChar "=" (id +:+ rest) = true →
       Client.extractVideoId (pre +:+ "youtube.com/watch?" +:+ params +:+ "v=" +:+ id +:+ rest)
       = Some id).
Proof.
  intros Hpre Hne Hall Hdot Hrest.
  pose proof (fun prefix => runAt_here prefix id rest Hne Hall Hrest) as Hhere.
  split.
  - intros address. unfold videoAddresses. rewrite !elem_of_cons, elem_of_nil.
    unfold Client.extractVideoId, Client.patterns.
    intros [->|[->|[->|[->|[->|[]]]]]].
    + by apply extractVideoId_watch_address.
    + apply extractVideoId_first.
      eapply matchOf_found; [by left | done |].
      rewrite firstOf_cons_None by (by apply runAt_mismatch).
      apply firstOf_cons_Some, Hhere.
    + apply extractVideoId_first.
      eapply matchOf_found; [by left | done |].
      rewrite !firstOf_cons_None by (by apply runAt_mismatch).
      apply firstOf_cons_Some, Hhere.
    + rewrite extractVideoId_later.
      * apply extractVideoId_first.
        eapply matchOf_found; [by right; left | done |]. apply Hhere.
      * apply (matchOf_none _ pre "outube.com/v/" (id +:+ rest));
          [by left | done | done | done |]. host_mismatch.
    + rewrite extractVideoId_later.
      2:{ apply (matchOf_none _ pre "outube.com/shorts/" (id +:+ rest));
            [by left | done | done | done |]. host_mismatch. }
      rewrite extractVideoId_later.
      2:{ apply (matchOf_none _ pre "outube.com/shorts/" (id +:+ rest));
            [by right; left | done | done | done |]. host_mismatch. }
      rewrite extractVideoId_later.
      2:{ apply (matchOf_none _ pre "outube.com/shorts/" (id +:+ rest));
            [by do 2 right; left | done | done | done |]. host_mismatch. }
      apply extractVideoId_first.
      eapply matchOf_found; [by do 3 right; left | done |]. apply Hhere.
  - intros params Hparams Hstart Hpdot Hline Heq.
    set (tail := params +:+ "v=" +:+ id +:+ rest).
    assert (noChar "." tail = true) as Htail.
    { unfold tail. rewrite noChar_app, Hpdot. cbn [andb].
      by rewrite (noChar_app "." "v="), Hdot. }
    assert (Extract.dropLiteral "v=" tail = None) as Hv.
    { unfold tail. destruct params as [|c params]; [done|].
      rewrite app_String. cbn [Extract.dropLiteral]. cbn [Str.startsWith] in Hstart.
      destruct (decide ("v"%char = c)) as [<-|]; [|done].
      destruct params as [|d params]; [done|].
      rewrite app_String. cbn [Extract.dropLiteral].
      destruct (decide ("="%char = d)) as [<-|]; [|done]. by destruct params. }
    unfold Client.extractVideoId, Client.patterns.
    rewrite extractVideoId_later.
    2:{ apply (matchOf_none _ pre "outube.com/watch?" tail);
          [by left | done | done | done |].
        cbn [Client.firstOf]. rewrite (runAt_mismatch "youtube.com/watch?v=") by apply Hv.
        host_mismatch. }
    rewrite extractVideoId_later.
    2:{ apply (matchOf_none _ pre "outube.com/watch?" tail);
          [by right; left | done | done | done |]. host_mismatch. }
    apply extractVideoId_first.
    eapply matchOf_found; [by do 2 right; left | done |].
    unfold Client.watchParamAt.
    rewrite (proj2 (dropLiteral_Some "youtube.com/watch?" _ _) eq_refl).
    unfold tail.
    by rewrite (lastRunOnLine_after params "v=" _ id _ Hline
                  (lastRunOnLine_last id rest Hne Hall Hrest Heq)).
Qed.

(** ** The table of the page *)

Lemma imap_lookup_fmap {A B C} (F : A → B → C) (g : A → B) (d : B) (l : list A) :
  imap (fun index x => F x (default d ((g <$> l) !! index))) l
  = (fun x => F x (g x)) <$> l.
Proof.
  apply list_eq. intros i. rewrite list_lookup_imap, !list_lookup_fmap.
  by destruct (l !! i).
Qed.

Lemma processUrls_rows checkVideoStatus urls videos :
  Client.processUrls checkVideoStatus urls videos
  = match validUrlsOf urls with
    | [] => videos
    | _ :: _ =>
        match checkVideoStatus (idOfUrl <$> validUrlsOf urls) with
        | Some results =>
            (fun url =>
               match Client.findResult results (idOfUrl url) with
               | Some result => Client.processedVideo url result (idOfUrl url)
               | None => Client.errorVideo url (idOfUrl url)
               end) <$> validUrlsOf urls
        | None => (fun url => Client.errorVideo url (idOfUrl url)) <$> validUrlsOf urls
        end
    end.
Proof.
  unfold Client.processUrls. fold (validUrlsOf urls).
  destruct (validUrlsOf urls) as [|url valid] eqn:Hvalid; [done|].
  change (fun url0 => default "" (Client.extractVideoId (Net.trim url0))) with idOfUrl.
  destruct (checkVideoStatus _) as [results|].
  - apply (imap_lookup_fmap
             (fun url wanted =>
                match Client.findResult results wanted with
                | Some result => Client.processedVideo url result wanted
                | None => Client.errorVideo url wanted
                end) idOfUrl "").
  - rewrite (imap_lookup_fmap Client.initialVideo idOfUrl "").
    by rewrite <- list_fmap_compose.
Qed.

Lemma processUrls_rows_nonempty checkVideoStatus urls videos :
  validUrlsOf urls ≠ [] →
  Client.processUrls checkVideoStatus urls videos
  = match checkVideoStatus (idOfUrl <$> validUrlsOf urls) with
    | Some results =>
        (fun url =>
           match Client.findResult results (idOfUrl url) with
           | Some result => Client.processedVideo url result (idOfUrl url)
           | None => Client.errorVideo url (idOfUrl url)
           end) <$> validUrlsOf urls
    | None => (fun url => Client.errorVideo url (idOfUrl url)) <$> validUrlsOf urls
    end.
Proof. intros Hne. rewrite processUrls_rows. by destruct (validUrlsOf urls). Qed.

Lemma isValidUrl_id url :
  Client.isValidUrl url = true →
  Client.extractVideoId (Net.trim url) = Some (idOfUrl url).
Proof.
  unfold Client.isValidUrl, idOfUrl. intros [_ Hid]%andb_true_iff.
  apply bool_decide_eq_true in Hid as [id ->]. done.
Qed.

(** X20: the table after [processUrls].  Without an address that holds an id
    the table stays as it was.  Else it has one row for each such address,
    in order, with the trimmed address and the id taken out of it; and when
    the call of the edge function fails, every row says that the video is
    deleted. *)
Theorem processUrls_table
    (checkVideoStatus : list string → option (list VideoRecord))
    (urls : list string) (videos : list Client.Row) :
  let validUrls := filter (fun url => Client.isValidUrl url = true) urls in
  let rows := Client.processUrls checkVideoStatus urls videos in
  (validUrls = [] → rows = videos)
  ∧ (validUrls ≠ [] →
     Client.row_url <$> rows = Net.trim <$> validUrls
     ∧ (fun row => Some (Client.row_id row)) <$> rows
       = (fun url => Client.extractVideoId (Net.trim url)) <$> validUrls
     ∧ (checkVideoStatus (Client.row_id <$> rows) = None →
        Forall (fun row => Client.row_status row = "deleted"
                           ∧ Client.row_title row = "Error checking video") rows)).
Proof.
  intros validUrls rows. unfold rows. rewrite processUrls_rows.
  fold (validUrlsOf urls) in validUrls. change (validUrlsOf urls) with validUrls.
  assert (Forall (fun url => Client.isValidUrl url = true) validUrls) as Hvalid.
  { apply Forall_forall. by intros url [? _]%list_elem_of_filter. }
  clearbody validUrls. split; [by intros ->|]. intros Hne.
  destruct validUrls as [|first others] eqn:Hlist; [done|]. rewrite <- Hlist in *.
  clear Hlist Hne.
  assert (∀ f : string → Client.Row,
            (∀ url, Client.row_url (f url) = Net.trim url
                    ∧ Client.row_id (f url) = idOfUrl url) →
            Client.row_url <$> (f <$> validUrls) = Net.trim <$> validUrls
            ∧ (fun row => Some (Client.row_id row)) <$> (f <$> validUrls)
              = (fun url => Client.extractVideoId (Net.trim url)) <$> validUrls
            ∧ Client.row_id <$> (f <$> validUrls) = idOfUrl <$> validUrls) as Hshape.
  { intros f Hf. rewrite <- !list_fmap_compose. repeat split.
    - apply list_fmap_ext. intros _ url _. apply Hf.
    - apply Forall_fmap_ext_1. eapply Forall_impl; [apply Hvalid|].
      intros url Hurl. cbn. rewrite (isValidUrl_id _ Hurl). f_equal. apply Hf.
    - apply list_fmap_ext. intros _ url _. apply Hf. }
  destruct (checkVideoStatus (idOfUrl <$> validUrls)) as [results|] eqn:Hcheck;
    match goal with
    | |- context [Client.row_url <$> (?f <$> validUrls)] =>
        destruct (Hshape f) as (Hurls & Hids & Hsent)
    end.
  - intros url. by destruct (Client.findResult _ _).
  - split; [done|]. split; [done|]. rewrite Hsent, Hcheck. done.
  - done.
  - split; [done|]. split; [done|]. intros _.
    apply Forall_fmap, Forall_forall. by intros url _.
Qed.

Lemma findResult_cons r results wanted :
  Client.findResult (r :: results) wanted
  = if decide (idOf r = wanted) then Some r else Client.findResult results wanted.
Proof.
  unfold Client.findResult. cbn [list_find].
  destruct (decide (idOf r = wanted)); [done|].
  by destruct (list_find _ results) as [[? ?]|].
Qed.

Lemma findResult_answers (resultMap : gmap string VideoRecord) ids id :
  (∀ id r, resultMap !! id = Some r → idOf r = id) →
  (∀ id, id ∈ ids → is_Some (resultMap !! id)) →
  id ∈ ids →
  Client.findResult (omap (fun id => resultMap !! id) ids) id = resultMap !! id.
Proof.
  intros Hkey Hall Hid. induction ids as [|a ids IH]; [by apply elem_of_nil in Hid|].
  destruct (Hall a) as [ra Hra]; [by left|]. cbn [omap list_omap]. rewrite Hra.
  rewrite findResult_cons. pose proof (Hkey a ra Hra) as Ha.
  destruct (decide (idOf ra = id)) as [Heq|Hne].
  - rewrite Ha in Heq. by subst.
  - apply IH.
    + intros id' Hid'. apply Hall. by right.
    + apply elem_of_cons in Hid as [->|Hid]; [|done]. by rewrite Ha in Hne.
Qed.

Lemma handler_explicit env ids ignoreCache_ cache rs cache' :
  ids ≠ [] →
  handler env {| videoIds := Some ids; channelUrl := None;
                 ignoreCache := ignoreCache_ |} cache = (Results rs, cache') →
  resolve env ∅ ignoreCache_ ids cache = (Results rs, cache').
Proof.
  intros Hne. unfold handler. destruct (negb _); [done|].
  unfold collectVideoIds. cbn. by destruct ids.
Qed.

Lemma rows_zip (resultMap : gmap string VideoRecord) (valid : list string) :
  (∀ id r, resultMap !! id = Some r → idOf r = id) →
  (∀ url, url ∈ valid → is_Some (resultMap !! idOfUrl url)) →
  (fun url =>
     match resultMap !! idOfUrl url with
     | Some result => Client.processedVideo url result (idOfUrl url)
     | None => Client.errorVideo url (idOfUrl url)
     end) <$> valid
  = zip_with (fun url r => Client.processedVideo url r (videoId (fields r)))
      valid (omap (fun id => resultMap !! id) (idOfUrl <$> valid)).
Proof.
  intros Hkey Hsome. induction valid as [|url valid IH]; [done|].
  cbn [fmap list_fmap omap list_omap].
  destruct (Hsome url) as [r Hr]; [by left|]. rewrite Hr. cbn [zip_with]. f_equal.
  - by rewrite (Hkey _ _ Hr).
  - apply IH. intros url' Hurl'. apply Hsome. by right.
Qed.

(** X21: the page and the edge function together.  When the edge function
    answers the ids of the table, and the cache rows it reads hold the video
    they are keyed by, the table has one row for each address that holds an
    id, in order, made of the record of the same place in the answer: no row
    is left without a record. *)
Theorem table_shows_the_answer
    (env : Env) (ignoreCache_ : bool) (cache cache' : gmap string CacheRow)
    (urls : list string) (videos : list Client.Row) (rs : list VideoRecord) :
  let validUrls := filter (fun url => Client.isValidUrl url = true) urls in
  let videoIds_ :=
    (fun url => default "" (Client.extractVideoId (Net.trim url))) <$> validUrls in
  validUrls ≠ [] →
  handler env {| videoIds := Some videoIds_; channelUrl := None;
                 ignoreCache := ignoreCache_ |} cache = (Results rs, cache') →
  (ignoreCache_ = false →
   selectedWellKeyed cache videoIds_ (dateNow env - freshnessWindow)) →
  length rs = length validUrls
  ∧ Client.processUrls (Client.invoke env ignoreCache_ cache) urls videos
    = zip_with (fun url r => Client.processedVideo url r (videoId (fields r)))
        validUrls rs.
Proof.
  intros validUrls videoIds_ Hne Hrun Hwk.
  rewrite processUrls_rows_nonempty by done. fold (validUrlsOf urls) in validUrls.
  change (validUrlsOf urls) with validUrls.
  change (idOfUrl <$> validUrls) with videoIds_.
  unfold Client.invoke. rewrite Hrun. cbn [fst].
  assert (resolve env ∅ ignoreCache_ videoIds_ cache = (Results rs, cache')) as Hres.
  { apply handler_explicit; [|done]. unfold videoIds_. by destruct validUrls. }
  clear Hne.
  destruct (resolve_answers_all _ _ _ _ _ _ _ Hwk Hres) as (resultMap & -> & Hkey & Hall).
  split.
  { rewrite (proj1 (omap_total _ _ Hall)). unfold videoIds_. by rewrite length_fmap. }
  assert (∀ url, url ∈ validUrls →
            Client.findResult (omap (fun id => resultMap !! id) videoIds_) (idOfUrl url)
            = resultMap !! idOfUrl url) as Hfind.
  { intros url Hurl. apply findResult_answers; [done..|].
    unfold videoIds_. by apply (list_elem_of_fmap_2 idOfUrl). }
  assert (∀ url, url ∈ validUrls → is_Some (resultMap !! idOfUrl url)) as Hsome.
  { intros url Hurl. apply Hall. unfold videoIds_. by apply (list_elem_of_fmap_2 idOfUrl). }
  etrans; [|apply (rows_zip resultMap validUrls Hkey Hsome)].
  apply Forall_fmap_ext_1, Forall_forall. intros url Hurl. by rewrite (Hfind url Hurl).
Qed.

Lemma isIdChar_plain c :
  Extract.isIdChar c = true →
  negb (Client.isIdEnd c) = true ∧ negb (bool_decide (c = "."%char)) = true.
Proof.
  intros Hc. split; apply negb_true_iff.
  - unfold Client.isIdEnd. rewrite !orb_false_iff.
    repeat split; apply bool_decide_eq_false; intros ->; discriminate Hc.
  - apply bool_decide_eq_false. intros ->. discriminate Hc.
Qed.

Lemma wellFormedId_plain id :
  wellFormedId id →
  id ≠ ""
  ∧ forallb (fun c => negb (Client.isIdEnd c)) (list_ascii_of_string id) = true
  ∧ noChar "." id = true.
Proof.
  intros [_ [Hne Hall]%allIdChars_forallb]. split; [done|]. clear Hne. unfold noChar.
  induction id as [|c id IH]; [done|]. cbn in *.
  apply andb_true_iff in Hall as [Hc Hall].
  destruct (isIdChar_plain c Hc) as [-> ->]. cbn. by apply IH.
Qed.

Lemma trimEnd_plain s :
  forallb (fun c => negb (Net.isSpace c)) (list_ascii_of_string s) = true →
  Net.trimEnd s = s.
Proof.
  induction s as [|c s IH]; [done|]. cbn. intros [Hc Hs]%andb_true_iff.
  rewrite (IH Hs). apply negb_true_iff in Hc. rewrite Hc. by destruct s.
Qed.

Lemma trimEnd_before s tail :
  tail ≠ "" → Net.trimEnd tail = tail → Net.trimEnd (s +:+ tail) = s +:+ tail.
Proof.
  intros Hne Htail. induction s as [|c s IH]; [by rewrite app_empty|].
  rewrite app_String. cbn. rewrite IH.
  destruct (s +:+ tail) eqn:Hs; [|done]. by destruct s, tail.
Qed.

Lemma isIdChar_noSpace c : Extract.isIdChar c = true → negb (Net.isSpace c) = true.
Proof.
  intros Hc. apply negb_true_iff. destruct (Net.isSpace c) eqn:Hs; [|done].
  exfalso. unfold Net.isSpace, Extract.isIdChar in *.
  destruct (nat_of_ascii c) as [|n]; [done|].
  do 32 (destruct n as [|n]; [by vm_compute in Hc; vm_compute in Hs|]).
  vm_compute in Hs. discriminate Hs.
Qed.

(** X22: the rows of a channel scan can be checked again as addresses: when
    the ids of the answer are well formed, as the ids that scraping finds
    are, [extractVideoId] takes out of the address of each row the id of the
    row, and [processUrls] keeps the address. *)
Theorem channel_rows_have_valid_addresses
    (checkVideoStatus : string → option (list VideoRecord))
    (channelInput : string) (results : list VideoRecord) :
  Net.trim channelInput ≠ "" →
  checkVideoStatus (Net.trim channelInput) = Some results →
  Forall (fun r => wellFormedId (videoId (fields r))) results →
  ∀ videos,
    let rows := Client.handleChannelSubmit checkVideoStatus channelInput videos in
    Client.row_id <$> rows = (fun r => videoId (fields r)) <$> results
    ∧ Forall (fun row =>
                Client.extractVideoId (Client.row_url row) = Some (Client.row_id row)
                ∧ Client.isValidUrl (Client.row_url row) = true) rows.
Proof.
  intros Hinput Hcheck Hids videos rows. unfold rows, Client.handleChannelSubmit.
  assert (Str.truthy (Net.trim channelInput) = true) as ->
    by by destruct (Net.trim channelInput).
  cbn [negb]. rewrite Hcheck. split.
  - rewrite <- list_fmap_compose. by apply list_fmap_ext.
  - apply Forall_fmap. eapply Forall_impl; [apply Hids|]. intros r Hr. cbn.
    destruct (wellFormedId_plain _ Hr) as (Hne & Hclean & Hdot).
    assert (Client.extractVideoId
              ("https://www.youtube.com/watch?v=" +:+ videoId (fields r))
            = Some (videoId (fields r))) as Hid.
    { pose proof (extractVideoId_watch_address "https://www." (videoId (fields r)) ""
                    eq_refl Hne Hclean I) as Hround.
      by rewrite app_empty_r in Hround. }
    split; [done|]. unfold Client.isValidUrl.
    assert (Net.trim ("https://www.youtube.com/watch?v=" +:+ videoId (fields r))
            = "https://www.youtube.com/watch?v=" +:+ videoId (fields r)) as ->.
    { unfold Net.trim. rewrite app_String. cbn [Net.trimStart].
      change (Net.isSpace "h") with false. cbn iota.
      change (String "h" ("ttps://www.youtube.com/watch?v=" +:+ videoId (fields r)))
        with ("https://www.youtube.com/watch?v=" +:+ videoId (fields r)).
      apply trimEnd_before; [done|]. apply trimEnd_plain.
      destruct Hr as [_ [_ Hall]%allIdChars_forallb]. clear -Hall.
      induction (videoId (fields r)) as [|c id IH]; [done|]. cbn in *.
      apply andb_true_iff in Hall as [Hc Hall].
      by rewrite (isIdChar_noSpace c Hc), (IH Hall). }
    rewrite Hid. by rewrite bool_decide_eq_true_2 by eauto.
Qed.

Lemma trimEnd_head c s : Net.isSpace c = false → Net.trimEnd (String c s) ≠ "".
Proof. intros Hc. cbn. destruct (Net.trimEnd s); by rewrite ?Hc. Qed.

Lemma trim_blank s : Net.trim s = "" ↔ isBlank s = true.
Proof.
  unfold Net.trim, isBlank. induction s as [|c s IH]; [done|].
  cbn [Net.trimStart list_ascii_of_string forallb].
  destruct (Net.isSpace c) eqn:Hc; [done|]. cbn [andb]. split; [|done].
  intros Hempty. by apply (trimEnd_head c s Hc) in Hempty.
Qed.

Lemma splitLines_blank text line :
  isBlank text = true → line ∈ Client.splitLines text → isBlank line = true.
Proof.
  unfold isBlank. revert line. induction text as [|c text IH]; intros line; cbn.
  - by intros _ ->%list_elem_of_singleton.
  - intros [Hc Htext]%andb_true_iff. destruct (bool_decide _).
    + intros [->|Hin]%elem_of_cons; [done | by apply IH].
    + destruct (Client.splitLines text) as [|first lines] eqn:Hsplit.
      * intros ->%list_elem_of_singleton. cbn. by rewrite Hc.
      * intros [->|Hin]%elem_of_cons.
        -- cbn. rewrite Hc. apply (IH first Htext). by left.
        -- apply (IH line Htext). by right.
Qed.

Lemma isValidUrl_not_blank url : Client.isValidUrl url = true → Str.truthy (Net.trim url) = true.
Proof. unfold Client.isValidUrl. by intros [? _]%andb_true_iff. Qed.

Lemma validUrlsOf_nonblank urls :
  validUrlsOf (filter (fun url => Str.truthy (Net.trim url) = true) urls) = validUrlsOf urls.
Proof.
  unfold validUrlsOf. induction urls as [|url urls IH]; [done|].
  rewrite !filter_cons.
  destruct (decide (Client.isValidUrl url = true)) as [Hvalid|Hinvalid].
  - rewrite decide_True by by apply isValidUrl_not_blank.
    rewrite filter_cons, decide_True by done. by rewrite IH.
  - destruct (decide (Str.truthy (Net.trim url) = true)); [|done].
    rewrite filter_cons, decide_False by done. done.
Qed.

Lemma processUrls_valid checkVideoStatus urls urls' videos :
  validUrlsOf urls = validUrlsOf urls' →
  Client.processUrls checkVideoStatus urls videos
  = Client.processUrls checkVideoStatus urls' videos.
Proof. intros Hsame. by rewrite !processUrls_rows, Hsame. Qed.

(** X23: the text area.  What [handleTextSubmit] does to the table is what
    [processUrls] does with all the lines of the text: to leave the blank
    lines out first, and to do nothing for a blank text, changes nothing,
    since [processUrls] keeps no blank line. *)
Theorem handleTextSubmit_is_processUrls
    (checkVideoStatus : list string → option (list VideoRecord))
    (textInput : string) (videos : list Client.Row) :
  Client.handleTextSubmit checkVideoStatus textInput videos
  = Client.processUrls checkVideoStatus (Client.splitLines textInput) videos.
Proof.
  unfold Client.handleTextSubmit.
  destruct (Str.truthy (Net.trim textInput)) eqn:Htext; cbn [negb].
  - apply processUrls_valid, validUrlsOf_nonblank.
  - assert (isBlank textInput = true) as Hblank.
    { apply trim_blank. by destruct (Net.trim textInput). }
    rewrite processUrls_rows.
    assert (validUrlsOf (Client.splitLines textInput) = []) as ->; [|done].
    apply filter_nil_intro. intros line Hline Hvalid.
    apply isValidUrl_not_blank in Hvalid.
    pose proof (proj2 (trim_blank line) (splitLines_blank _ _ Hblank Hline)) as Hempty.
    by rewrite Hempty in Hvalid.
Qed.

(** X24: the counters of the page.  The count for the two statuses together
    is the sum of the counts for each, when the two are different. *)
Theorem getStatusCombinationCount_sum (videos : list Client.Row) (a b : string) :
  a ≠ b →
  Client.getStatusCombinationCount videos [a; b]
  = (Client.getStatusCount videos a + Client.getStatusCount videos b)%nat.
Proof.
  intros Hab. unfold Client.getStatusCombinationCount, Client.getStatusCount.
  induction videos as [|v videos IH]; [done|].
  rewrite !filter_cons.
  destruct (decide (Client.row_status v = a)) as [Ha|Ha];
    destruct (decide (Client.row_status v = b)) as [Hb|Hb].
  - congruence.
  - rewrite decide_True by (rewrite Ha; by left). cbn. by rewrite IH.
  - rewrite decide_True by (rewrite Hb; by right; left). cbn. rewrite IH. lia.
  - rewrite decide_False; [done|].
    intros [?|[?|[]%elem_of_nil]%elem_of_cons]%elem_of_cons; done.
Qed.

(** ** The content type of a record *)




(** ** The further properties at concrete inputs *)

Lemma extractVideoIds_finds_watch_link_witness :
  wellFormedId "dQw4w9WgXcQ"
  ∧ Extract.extractVideoIds "<a href=/watch?v=dQw4w9WgXcQ>" ≠ [].
Proof.
  assert (wellFormedId "dQw4w9WgXcQ") as Hid by (split; reflexivity).
  split; [exact Hid|].
  apply (extractVideoIds_finds_watch_link _ "<a href=/" "dQw4w9WgXcQ" ">" Hid).
  reflexivity.
Defined.

Lemma normalizeChannelUrls_round_trip_witness :
  let urls := Net.normalizeChannelUrls "@veritasium" in
  urls = ("https://www.youtube.com/@veritasium/videos",
          "https://www.youtube.com/@veritasium/shorts")
  ∧ Net.normalizeChannelUrls urls.1 = urls
  ∧ Net.normalizeChannelUrls urls.2 = urls.
Proof.
  split; [vm_compute; reflexivity|].
  apply (normalizeChannelUrls_round_trip "@veritasium"); reflexivity.
Defined.


Lemma resolve_one_record_per_id_witness :
  let ids := ["dQw4w9WgXcQ"; "kJQP7kiw5Fk"; "dQw4w9WgXcQ"] in
  ∃ rs cache',
    resolve sampleEnv ∅ false ids ∅ = (Results rs, cache')
    ∧ (fun r => videoId (fields r)) <$> rs = ids.
Proof.
  cbv zeta. eexists _, _. split; [vm_compute; reflexivity|].
  refine (resolve_one_record_per_id sampleEnv ∅ false _ ∅ _ _ _ _).
  - intros _ k row _ Hrow. by rewrite lookup_empty in Hrow.
  - vm_compute. reflexivity.
Defined.

Lemma handler_keeps_cache_invariants_witness :
  let run :=
    handler sampleEnv {| videoIds := Some ["dQw4w9WgXcQ"; "kJQP7kiw5Fk"];
                         channelUrl := None; ignoreCache := false |} ∅ in
  is_Some (run.2 !! "dQw4w9WgXcQ") ∧ wellKeyed run.2 ∧ allDefinitive run.2.
Proof.
  cbv zeta. split; [vm_compute; by eexists|].
  destruct (handler_keeps_cache_invariants sampleEnv
              {| videoIds := Some ["dQw4w9WgXcQ"; "kJQP7kiw5Fk"];
                 channelUrl := None; ignoreCache := false |} ∅ _ _ (surjective_pairing _))
    as [Hkeyed Hdefinitive].
  split; [apply Hkeyed | apply Hdefinitive];
    intros k row Hrow; by rewrite lookup_empty in Hrow.
Defined.

Lemma fromCache_records_come_from_fresh_rows_witness :
  let ids := ["dQw4w9WgXcQ"] in
  ∃ r cache',
    resolve sampleEnv ∅ false ids hourOldCache = (Results [r], cache')
    ∧ fromCache r = true
    ∧ (false = false
       ∧ ∃ k row, k ∈ ids ∧ hourOldCache !! k = Some row ∧ data row = fields r
                  ∧ dateNow sampleEnv - 24 * 60 * 60 * 1000 < cached_at row).
Proof.
  cbv zeta. eexists _, _. split; [vm_compute; reflexivity|]. split; [reflexivity|].
  refine (fromCache_records_come_from_fresh_rows sampleEnv ∅ false _ hourOldCache _ _ _
            _ _ _).
  - vm_compute. reflexivity.
  - by left.
  - reflexivity.
Defined.

Lemma collectVideoIds_channel_union_witness :
  let req := {| videoIds := Some ["kJQP7kiw5Fk"; "dQw4w9WgXcQ"];
                channelUrl := Some "@example"; ignoreCache := false |} in
  let result := Scrape.scrapeChannelContent ["dQw4w9WgXcQ"] ["9bZkp7q19f0"] [] in
  ∃ ids,
    collectVideoIds sampleEnv req = inl (ids, types result)
    ∧ NoDup ids
    ∧ (∀ id, id ∈ ids ↔ id ∈ default [] (videoIds req) ∨ id ∈ found result)
    ∧ (NoDup (default [] (videoIds req)) →
       ∃ tail, ids = default [] (videoIds req) ++ tail).
Proof.
  cbv zeta.
  apply (collectVideoIds_channel_union sampleEnv _ "@example"); [reflexivity | done |].
  right. split; [by eexists | reflexivity].
Defined.

Lemma collectVideoIds_never_fails_with_scraper_witness :
  ∃ ids videoTypes,
    collectVideoIds offlineEnv {| videoIds := Some ["dQw4w9WgXcQ"];
                                  channelUrl := Some "@example";
                                  ignoreCache := false |}
    = inl (ids, videoTypes).
Proof.
  apply (collectVideoIds_never_fails_with_scraper unit offlineFetch offlineEnv _ ()).
  intros channelInput. reflexivity.
Defined.


Lemma getAllVideosFromPlaylist_returns_witness :
  ∃ r w',
    (∀ fuel, (3 < fuel)%nat →
             Api.getAllVideosFromPlaylist nat pagedPlaylist fuel "UU-sample" 3%nat
             = Some (r, w'))
    ∧ ∀ ids, r = inl ids → Forall (fun id => id ≠ "") ids.
Proof.
  apply (getAllVideosFromPlaylist_returns nat pagedPlaylist (fun w => w) "UU-sample" 3%nat).
  intros pageToken [|pagesLeft] data w1 [= <- <-]; cbn; [discriminate | lia].
Defined.

Lemma getAllVideosFromPlaylist_unbounded_witness :
  Api.getAllVideosFromPlaylist unit endlessPlaylist 1000 "UU-sample" () = None
  ∧ ∀ fuel w, Api.getAllVideosFromPlaylist unit endlessPlaylist fuel "UU-sample" w = None.
Proof.
  assert (∀ fuel w,
            Api.getAllVideosFromPlaylist unit endlessPlaylist fuel "UU-sample" w = None)
    as Hnever.
  { apply (getAllVideosFromPlaylist_unbounded unit endlessPlaylist "UU-sample").
    intros pageToken w0. eexists _, _. split; reflexivity. }
  split; [apply Hnever | exact Hnever].
Defined.

Lemma getChannelVideosWithApi_outcome_witness :
  ∃ result w',
    Api.getChannelVideosWithApi nat sampleSearch sampleChannels pagedPlaylist
      5 "@veritasium" 1%nat = Some (inl result, w')
    ∧ found result = ["dQw4w9WgXcQ"; "dQw4w9WgXcQ"]
    ∧ types result = ∅
    ∧ Forall (fun id => id ≠ "") (found result).
Proof.
  eexists _, _. split; [vm_compute; reflexivity|]. split; [reflexivity|].
  refine (getChannelVideosWithApi_outcome nat sampleSearch sampleChannels pagedPlaylist
            5 "@veritasium" 1%nat _ (inl _) _).
  vm_compute. reflexivity.
Defined.

Lemma extractVideoId_clean_witness :
  let url := "https://youtu.be/dQw4w9WgXcQ?t=42" in
  let id := "dQw4w9WgXcQ" in
  Client.extractVideoId url = Some id
  ∧ id ≠ ""
  ∧ forallb (fun c => negb (Client.isIdEnd c)) (list_ascii_of_string id) = true
  ∧ occursIn id url.
Proof.
  cbv zeta. split; [vm_compute; reflexivity|].
  apply extractVideoId_clean. vm_compute. reflexivity.
Defined.

Lemma extractVideoId_round_trip_witness :
  let id := "dQw4w9WgXcQ" in
  Client.extractVideoId "https://www.youtube.com/watch?v=dQw4w9WgXcQ#later" = Some id
  ∧ Client.extractVideoId "https://www.youtube.com/shorts/dQw4w9WgXcQ#later" = Some id
  ∧ Client.extractVideoId
      "https://www.youtube.com/watch?feature=shared&v=dQw4w9WgXcQ#later" = Some id.
Proof.
  cbv zeta.
  destruct (extractVideoId_round_trip "https://www." "dQw4w9WgXcQ" "#later"
              eq_refl ltac:(discriminate) eq_refl eq_refl eq_refl) as [Haddress Hparam].
  split; [apply (Haddress "youtube.com/watch?v="); by left|].
  split; [apply (Haddress "youtube.com/shorts/"); by do 4 right; left|].
  apply (Hparam "feature=shared&"); [discriminate | reflexivity..].
Defined.

Lemma table_shows_the_answer_witness :
  let validUrls := filter (fun url => Client.isValidUrl url = true) sampleUrls in
  validUrls = ["https://youtu.be/dQw4w9WgXcQ";
               "  https://www.youtube.com/watch?v=kJQP7kiw5Fk  "]
  ∧ ∃ rs,
      length rs = length validUrls
      ∧ Client.processUrls (Client.invoke sampleEnv false ∅) sampleUrls []
        = zip_with (fun url r => Client.processedVideo url r (videoId (fields r)))
            validUrls rs.
Proof.
  cbv zeta. split; [vm_compute; reflexivity|]. eexists.
  refine (table_shows_the_answer sampleEnv false ∅ _ sampleUrls [] _ _ _ _).
  - vm_compute. discriminate.
  - vm_compute. reflexivity.
  - intros _ k row _ Hrow. by rewrite lookup_empty in Hrow.
Defined.

Lemma channel_rows_have_valid_addresses_witness :
  let rows := Client.handleChannelSubmit sampleScan " @veritasium " [] in
  Client.row_id <$> rows = ["dQw4w9WgXcQ"]
  ∧ Forall (fun row =>
              Client.extractVideoId (Client.row_url row) = Some (Client.row_id row)
              ∧ Client.isValidUrl (Client.row_url row) = true) rows.
Proof.
  refine (channel_rows_have_valid_addresses sampleScan " @veritasium " _ _ eq_refl _ []).
  - vm_compute. discriminate.
  - apply Forall_singleton. split; reflexivity.
Defined.

Lemma getStatusCombinationCount_sum_witness :
  let videos := Client.handleChannelSubmit sampleScan "@veritasium" [] in
  "public" ≠ "unlisted"
  ∧ Client.getStatusCombinationCount videos ["public"; "unlisted"]
    = (Client.getStatusCount videos "public" + Client.getStatusCount videos "unlisted")%nat
  ∧ Client.getStatusCount videos "public" = 1%nat.
Proof.
  cbv zeta. assert ("public" ≠ "unlisted") as Hdifferent by discriminate.
  split; [exact Hdifferent|].
  split; [apply (getStatusCombinationCount_sum _ _ _ Hdifferent) | reflexivity].
Defined.

